(** * Eddy: node identification and OWL 2 export

    A shallow embedding of the identity-inference slot of the diagram
    ([Diagram.doNodeIdentification], eddy/core/diagram.py), of the
    cardinality branches of the OWL 2 exporter
    ([getDomainRestriction], [getRangeRestriction],
    eddy/core/exporters/owl2.py) and of the [identity] property of
    [ConceptNode] and [SquaredNode]; then of the slot
    [Diagram.onConnectionChanged] and of [Diagram.itemOnTopOf], of the
    [restriction] and [cardinality] properties of [SquaredNode], and of
    the worker of the OWL 2 exporter: its conversion of nodes with the
    dictionary of converted nodes, and the axioms it generates from
    edges. *)

From stdpp Require Import base option list strings gmap.

(** ** Graphol datatypes (eddy.core.datatypes.graphol) *)

Inductive Identity :=
  | Neutral | Concept | Role | Attribute | ValueDomain | Individual
  | Value | RoleInstance | AttributeInstance | Unknown.

Inductive Item :=
  | ConceptNode | RoleNode | AttributeNode | ValueDomainNode
  | IndividualNode | EnumerationNode | IntersectionNode | UnionNode
  | ComplementNode | DomainRestrictionNode | RangeRestrictionNode
  | PropertyAssertionNode | RoleChainNode | RoleInverseNode | FacetNode
  | DisjointUnionNode | DatatypeRestrictionNode | ValueRestrictionNode
  | InputEdge | InclusionEdge | EquivalenceEdge | MembershipEdge.

Module Restriction.
Inductive t := Exists | Forall | Cardinality | Self.
End Restriction.

#[global] Instance Identity_eq_dec : EqDecision Identity.
Proof. solve_decision. Defined.
#[global] Instance Item_eq_dec : EqDecision Item.
Proof. solve_decision. Defined.
#[global] Instance Restriction_eq_dec : EqDecision Restriction.t.
Proof. solve_decision. Defined.

(** ** Diagram objects

    Nodes and edges are Python objects compared by reference; a node is
    named here by its key in the diagram's node store, and an edge records
    the keys of its two endpoints.  The only mutable attribute the
    identification slot touches is a node's identity.  A key without an
    entry in the store names no object: filters reject it and assignments
    to it do nothing. *)

Record Node := mkNode {
  node_type : Item;
  node_identity : Identity
}.

Record Edge := mkEdge {
  source : nat;
  target : nat;
  edge_type : Item
}.

Record Diagram := mkDiagram {
  nodes : gmap nat Node;
  edges : list Edge
}.

(** ** eddy.core.functions.misc *)

(** Modelled from the spec: [first] (eddy.core.functions.misc) is not among
    the sources.  It yields the first element of an iterable, and nothing
    when the iterable is empty. *)
Definition first {A} (iterable : list A) : option A := head iterable.

(** Modelled from the spec: [partition] (eddy.core.functions.misc) is not
    among the sources.  The spec calls it a stable filter driven by the
    supplied predicate that puts every element in exactly one of two
    sequences.  The caller supplies the neutral-capability predicate and
    reads component 0 as the weak set, the nodes that wait for an identity,
    and component 1 as the strong set: component 0 holds the elements that
    satisfy the predicate and component 1 those that do not. *)
Definition partition {A} (predicate : A → bool) (iterable : list A)
  : list A * list A :=
  (filter (λ x, predicate x) iterable, filter (λ x, ¬ predicate x) iterable).

(** The idiom that occurs four times in [doNodeIdentification]:
<<
    computed = Identity.Neutral
    if identities:
        computed = first(identities)
        if len(identities) > 1:
            computed = Identity.Unknown
>>
    [identities] is a Python set, here a duplicate-free list. *)
Definition computed_identity (identities : list Identity) : Identity :=
  match first identities with
  | None => Neutral
  | Some x => if decide (1 < length identities) then Unknown else x
  end.

(** Python [set] operations on sets of node references, kept as
    duplicate-free lists in insertion order. *)
Definition add (s : list nat) (n : nat) : list nat :=
  if decide (n ∈ s) then s else s ++ [n].

Definition discard (s : list nat) (k : nat) : list nat :=
  filter (λ x, x ≠ k) s.

Section Identification.

(** The class attribute [Identities] of every node class, returned by
    [identities()].  Only [ConceptNode.Identities] is among the sources;
    the table is a parameter of the development. *)
Variable Identities : Item → list Identity.

(** *** Node interface *)

(** [p] evaluated on the node object referenced by [n]. *)
Definition holds (d : Diagram) (p : Node → bool) (n : nat) : bool :=
  match nodes d !! n with
  | Some x => p x
  | None => false
  end.

(** Modelled from the spec: [identity()] (the node classes) is not among
    the sources for the nodes the slot handles; it reads the node's
    current identity. *)
Definition identity (d : Diagram) (n : nat) : Identity :=
  match nodes d !! n with
  | Some x => node_identity x
  | None => Neutral
  end.

(** [map(c, collection)] over node references. *)
Definition node_map {B} (d : Diagram) (c : Node → B) (collection : list nat)
  : list B :=
  omap (λ k, c <$> nodes d !! k) collection.

(** Modelled from the spec: the value [setIdentity], below, leaves in a
    node of class [t] when [identity] is assigned to it. *)
Definition stored (t : Item) (identity : Identity) : Identity :=
  if decide (identity ∈ Identities t) then identity else Unknown.

(** Modelled from the spec: [setIdentity] (the node classes but
    [ConceptNode] and [SquaredNode]) is not among the sources.  The spec
    has the computed identity assigned to the node, requires a node's
    identity to be at all times a member of its capability set or
    [Unknown], and lets the resolver write nothing but identity fields:
    the setter stores the value when the capability set of the node
    holds it and [Unknown] otherwise, and leaves everything else. *)
Definition setIdentity (d : Diagram) (n : nat) (identity : Identity)
  : Diagram :=
  mkDiagram
    (alter (λ x, mkNode (node_type x) (stored (node_type x) identity))
           n (nodes d))
    (edges d).

(** Modelled from the spec: [incomingNodes] (AbstractNode) is not among the
    sources.  It collects the operands that reach the node over an
    incoming edge accepted by [filter_on_edges] and that are themselves
    accepted by [filter_on_nodes]; operands are nodes, so a node reached
    over several edges is collected once. *)
Definition incomingNodes (d : Diagram) (self : nat)
    (filter_on_edges : Edge → bool) (filter_on_nodes : Node → bool)
  : list nat :=
  remove_dups
    (filter (λ k, holds d filter_on_nodes k)
       (source <$> filter (λ e, target e = self ∧ filter_on_edges e)
                          (edges d))).

(** Modelled from the spec: [outgoingNodes] (AbstractNode) is not among the
    sources; the mirror image of [incomingNodes] over outgoing edges. *)
Definition outgoingNodes (d : Diagram) (self : nat)
    (filter_on_edges : Edge → bool) (filter_on_nodes : Node → bool)
  : list nat :=
  remove_dups
    (filter (λ k, holds d filter_on_nodes k)
       (target <$> filter (λ e, source e = self ∧ filter_on_edges e)
                          (edges d))).

(** Modelled from the spec: [other] and [adjacentNodes] are not among the
    sources.  The traversal follows edges in both directions, so the
    neighbours of a node are the far endpoints of its incident edges. *)
Definition other (e : Edge) (n : nat) : nat :=
  if decide (source e = n) then target e else source e.

Definition adjacentNodes (d : Diagram) (self : nat) : list nat :=
  (λ e, other e self)
    <$> filter (λ e, source e = self ∨ target e = self) (edges d).

(** *** eddy.core.functions.graph *)

(** Modelled from the spec: [bfs] (eddy.core.functions.graph) is not among
    the sources.  A breadth-first traversal from [source] over undirected
    adjacency that collects, in discovery order, only nodes accepted by
    [filter_on_visit]: a node that fails the filter is neither collected
    nor crossed.  [fuel] bounds the number of nodes taken from the queue;
    the size of the node store is enough for the traversal to run to its
    end. *)
Fixpoint bfs_loop (d : Diagram) (filter_on_visit : Node → bool)
    (fuel : nat) (queue ordered : list nat) {struct fuel}
  : option (list nat) :=
  match queue with
  | [] => Some ordered
  | n :: queue' =>
    match fuel with
    | 0 => None
    | S fuel' =>
      let fresh :=
        remove_dups
          (filter (λ m, holds d filter_on_visit m ∧ m ∉ ordered)
                  (adjacentNodes d n)) in
      bfs_loop d filter_on_visit fuel' (queue' ++ fresh) (ordered ++ fresh)
    end
  end.

Definition bfs (d : Diagram) (source : nat) (filter_on_visit : Node → bool)
  : list nat :=
  default [] (bfs_loop d filter_on_visit (size (nodes d)) [source] [source]).

(** *** Diagram.doNodeIdentification *)

Definition predicate (n1 : Node) : bool :=
  bool_decide (Neutral ∈ Identities (node_type n1)).

(* FILTERS *)
Definition f1 (x : Edge) : bool := bool_decide (edge_type x = InputEdge).
Definition f2 (x : Node) : bool := bool_decide (node_type x = IndividualNode).
Definition f3 (x : Edge) : bool := bool_decide (edge_type x = MembershipEdge).
Definition f4 (x : Node) : bool :=
  bool_decide (node_identity x ∈ [Role; Attribute; Concept])
  && bool_decide (Neutral ∉ Identities (node_type x)).
Definition f5 (x : Node) : bool :=
  bool_decide (node_type x ∈ [RoleNode; RoleInverseNode; AttributeNode]).
Definition f6 (x : Node) : bool := bool_decide (node_type x = IndividualNode).

(* CONVERTERS *)
Definition c1 (x : Node) : Identity :=
  if decide (node_identity x = Individual) then Concept else ValueDomain.
Definition c2 (x : Node) : Identity :=
  if decide (node_identity x ∈ [Role; Concept]) then Concept else ValueDomain.
Definition c3 (x : Node) : Identity :=
  if decide (node_identity x = Role) then RoleInstance else AttributeInstance.

(* AUXILIARY FUNCTIONS *)
Definition a1 (x : Node) : bool := bool_decide (node_identity x = Value).

(** The working sets of one pass together with the diagram they refer
    to. *)
Record Pass := mkPass {
  diagram : Diagram;
  strong : list nat;
  excluded : list nat
}.

(** Body of the loop for [node.type() is Item.EnumerationNode]. *)
Definition enumeration_case (p : Pass) (node : nat) : Pass :=
  let d := diagram p in
  let collection := incomingNodes d node f1 f2 in
  let identities := remove_dups (node_map d c1 collection) in
  let computed := computed_identity identities in
  let d' := setIdentity d node computed in
  let strong' :=
    if decide (identity d' node ≠ Neutral) then add (strong p) node
    else strong p in
  mkPass d' (foldl discard strong' collection) (excluded p).

(** Body of the loop for [node.type() is Item.RangeRestrictionNode]. *)
Definition range_restriction_case (p : Pass) (node : nat) : Pass :=
  let d := diagram p in
  let collection := incomingNodes d node f1 f4 in
  let identities := remove_dups (node_map d c2 collection) in
  let computed := computed_identity identities in
  let d' := setIdentity d node computed in
  let strong' :=
    if decide (identity d' node ≠ Neutral) then add (strong p) node
    else strong p in
  mkPass d' (foldl discard strong' collection) (excluded p).

(** Body of the loop for [node.type() is Item.PropertyAssertionNode]. *)
Definition property_assertion_case (p : Pass) (node : nat) : Pass :=
  let d := diagram p in
  let outgoing := outgoingNodes d node f3 f5 in
  let incoming := incomingNodes d node f1 f6 in
  (* 1) USE MEMBERSHIP EDGE *)
  let identities := remove_dups (node_map d c3 outgoing) in
  let computed := computed_identity identities in
  (* 2) USE INPUT EDGES *)
  let computed :=
    if decide (computed = Neutral ∧ 2 ≤ length incoming) then
      if decide (0 < sum_list (node_map d (λ x, Nat.b2n (a1 x)) incoming))
      then AttributeInstance else RoleInstance
    else computed in
  let d' := setIdentity d node computed in
  mkPass d' (foldl discard (strong p) incoming) (add (excluded p) node).

(** One iteration of [for node in weak]. *)
Definition special_case (p : Pass) (node : nat) : Pass :=
  match node_type <$> nodes (diagram p) !! node with
  | Some EnumerationNode => enumeration_case p node
  | Some RangeRestrictionNode => range_restriction_case p node
  | Some PropertyAssertionNode => property_assertion_case p node
  | _ => p
  end.

(** [collection = bfs(source=node, filter_on_visit=predicate)] *)
Definition collection (d : Diagram) (node : nat) : list nat :=
  bfs d node predicate.

(** [generators = partition(predicate, collection)] and the two sets
    built from it. *)
Definition weak (d : Diagram) (node : nat) : list nat :=
  remove_dups (partition (holds d predicate) (collection d node)).1.

Definition strong0 (d : Diagram) (node : nat) : list nat :=
  remove_dups (partition (holds d predicate) (collection d node)).2.

(** The special-case loop over the weak set.  Python iterates a set in
    an order of its own; the nodes are taken in discovery order here. *)
Definition special_cases (d : Diagram) (node : nat) : Pass :=
  foldl special_case (mkPass d (strong0 d node) []) (weak d node).

(** FINAL COMPUTATION: the identity assigned to the remaining weak
    nodes. *)
Definition aggregate (p : Pass) : Identity :=
  computed_identity (remove_dups (identity (diagram p) <$> strong p)).

(** [weak - strong - excluded] *)
Definition remaining (weak : list nat) (p : Pass) : list nat :=
  list_difference (list_difference weak (strong p)) (excluded p).

Definition assign_all (d : Diagram) (targets : list nat) (computed : Identity)
  : Diagram :=
  foldl (λ d' n, setIdentity d' n computed) d targets.

Definition doNodeIdentification (d : Diagram) (node : nat) : Diagram :=
  if holds d predicate node then
    let p := special_cases d node in
    assign_all (diagram p) (remaining (weak d node) p) (aggregate p)
  else d.

End Identification.

(** ** OWL 2 export of restriction nodes (eddy.core.exporters.owl2) *)

Module owl2.

(** Objects handed out by the OWL data factory [self.df] for properties,
    fillers and converted operands. *)
Inductive OWLObject :=
  | OWLEntity (iri : nat)
  | OWLInverseProperty (ope : OWLObject)
  | OWLTopDatatype
  | OWLThing.

(** The restrictions the factory builds, one constructor per factory
    method. *)
Inductive OWLRestriction :=
  | OWLDataSomeValuesFrom (dpe dre : OWLObject)
  | OWLDataAllValuesFrom (dpe dre : OWLObject)
  | OWLDataMinCardinality (n : nat) (dpe dre : OWLObject)
  | OWLDataMaxCardinality (n : nat) (dpe dre : OWLObject)
  | OWLObjectHasSelf (ope : OWLObject)
  | OWLObjectSomeValuesFrom (ope ce : OWLObject)
  | OWLObjectAllValuesFrom (ope ce : OWLObject)
  | OWLObjectMinCardinality (n : nat) (ope ce : OWLObject)
  | OWLObjectMaxCardinality (n : nat) (ope ce : OWLObject).

Inductive OWLClassExpression :=
  | OWLRestrictionOf (r : OWLRestriction)
  | OWLDataIntersectionOf (operands : list OWLRestriction)
  | OWLObjectIntersectionOf (operands : list OWLRestriction).

(** Outcome of a builder: the value returned, a raised
    [DiagramMalformedError] with its message, or the implicit [None] of a
    function body that falls off its end. *)
Inductive Result :=
  | Return (e : OWLClassExpression)
  | DiagramMalformedError (message : string)
  | ReturnNone.

#[global] Instance OWLObject_eq_dec : EqDecision OWLObject.
Proof. solve_decision. Defined.
#[global] Instance OWLRestriction_eq_dec : EqDecision OWLRestriction.
Proof. solve_decision. Defined.

(** [java.util.HashSet.add]: an element equal to one already present is
    not added again. *)
Definition HashSet_add (s : list OWLRestriction) (e : OWLRestriction)
  : list OWLRestriction :=
  if decide (e ∈ s) then s else s ++ [e].

Section Builders.

(** [self.convert(node)]: the translation of an operand node, defined
    over the whole diagram and taken as given here. *)
Variable convert : nat → OWLObject.
(** [node.restriction()] and [node.cardinality(key)]. *)
Variable restriction : nat → Restriction.t.
Variable cardinality : nat → string → option nat.

(** The [Restriction.Cardinality] branch for an [Attribute] operand. *)
Definition data_cardinalities (node : nat) (dpe dre : OWLObject)
  : Result :=
  let cardinalities := [] in
  let min_cardinality := cardinality node "min" in
  let max_cardinality := cardinality node "max" in
  let cardinalities :=
    match min_cardinality with
    | Some n => HashSet_add cardinalities (OWLDataMinCardinality n dpe dre)
    | None => cardinalities
    end in
  let cardinalities :=
    match max_cardinality with
    | Some n => HashSet_add cardinalities (OWLDataMinCardinality n dpe dre)
    | None => cardinalities
    end in
  match cardinalities with
  | [] => DiagramMalformedError "missing cardinality"
  | e :: _ =>
    if decide (1 ≤ length cardinalities)
    then Return (OWLDataIntersectionOf cardinalities)
    else Return (OWLRestrictionOf e)
  end.

(** The [Restriction.Cardinality] branch for a [Role] operand, the same
    text in [getDomainRestriction] and [getRangeRestriction]. *)
Definition object_cardinalities (node : nat) (ope ce : OWLObject)
  : Result :=
  let cardinalities := [] in
  let min_cardinality := cardinality node "min" in
  let max_cardinality := cardinality node "max" in
  let cardinalities :=
    match min_cardinality with
    | Some n =>
      HashSet_add cardinalities (OWLObjectMinCardinality n ope ce)
    | None => cardinalities
    end in
  let cardinalities :=
    match max_cardinality with
    | Some n =>
      HashSet_add cardinalities (OWLObjectMaxCardinality n ope ce)
    | None => cardinalities
    end in
  match cardinalities with
  | [] => DiagramMalformedError "missing cardinality"
  | e :: _ =>
    if decide (1 ≤ length cardinalities)
    then Return (OWLObjectIntersectionOf cardinalities)
    else Return (OWLRestrictionOf e)
  end.

Definition getDomainRestriction (d : Diagram) (node : nat) : Result :=
  let f1 := λ x, bool_decide (edge_type x = InputEdge) in
  let f2 := λ x, bool_decide (node_identity x ∈ [Role; Attribute]) in
  let f3 := λ x, bool_decide (node_identity x = ValueDomain) in
  let f4 := λ x, bool_decide (node_identity x = Concept) in
  match first (incomingNodes d node f1 f2) with
  | None => DiagramMalformedError "missing operand(s)"
  | Some operand =>
    if decide (identity d operand = Attribute) then
      let dpe := convert operand in
      let dre :=
        match first (incomingNodes d node f1 f3) with
        | None => OWLTopDatatype
        | Some filler => convert filler
        end in
      if decide (restriction node = Restriction.Exists) then
        Return (OWLRestrictionOf (OWLDataSomeValuesFrom dpe dre))
      else if decide (restriction node = Restriction.Forall) then
        Return (OWLRestrictionOf (OWLDataAllValuesFrom dpe dre))
      else if decide (restriction node = Restriction.Cardinality) then
        data_cardinalities node dpe dre
      else DiagramMalformedError "unsupported restriction"
    else if decide (identity d operand = Role) then
      let ope := convert operand in
      let ce :=
        match first (incomingNodes d node f1 f4) with
        | None => OWLThing
        | Some filler => convert filler
        end in
      if decide (restriction node = Restriction.Self) then
        Return (OWLRestrictionOf (OWLObjectHasSelf ope))
      else if decide (restriction node = Restriction.Exists) then
        Return (OWLRestrictionOf (OWLObjectSomeValuesFrom ope ce))
      else if decide (restriction node = Restriction.Forall) then
        Return (OWLRestrictionOf (OWLObjectAllValuesFrom ope ce))
      else if decide (restriction node = Restriction.Cardinality) then
        object_cardinalities node ope ce
      else DiagramMalformedError "unsupported restriction"
    else ReturnNone
  end.

Definition getRangeRestriction (d : Diagram) (node : nat) : Result :=
  let f1 := λ x, bool_decide (edge_type x = InputEdge) in
  let f2 := λ x, bool_decide (node_identity x ∈ [Role; Attribute]) in
  let f3 := λ x, bool_decide (node_identity x = Concept) in
  match first (incomingNodes d node f1 f2) with
  | None => DiagramMalformedError "missing operand(s)"
  | Some operand =>
    if decide (identity d operand = Role) then
      let ope := OWLInverseProperty (convert operand) in
      let ce :=
        match first (incomingNodes d node f1 f3) with
        | None => OWLThing
        | Some filler => convert filler
        end in
      if decide (restriction node = Restriction.Self) then
        Return (OWLRestrictionOf (OWLObjectHasSelf ope))
      else if decide (restriction node = Restriction.Exists) then
        Return (OWLRestrictionOf (OWLObjectSomeValuesFrom ope ce))
      else if decide (restriction node = Restriction.Forall) then
        Return (OWLRestrictionOf (OWLObjectAllValuesFrom ope ce))
      else if decide (restriction node = Restriction.Cardinality) then
        object_cardinalities node ope ce
      else DiagramMalformedError "unsupported restriction"
    else ReturnNone
  end.

End Builders.

End owl2.

(** ** The [identity] property of [ConceptNode] and [SquaredNode] *)

Module concept.

(** eddy/core/items/nodes/concept.py *)
Definition Identities : list Identity := [Concept].
Definition Type_ : Item := ConceptNode.
Definition MinHeight : nat := 50.
Definition MinWidth : nat := 110.

Record ConceptNode := mkConceptNode {
  width : nat;
  height : nat
}.

Definition init (width height : nat) : ConceptNode :=
  mkConceptNode (Nat.max width MinWidth) (Nat.max height MinHeight).

(** [@property identity] *)
Definition identity (self : ConceptNode) : Identity := Concept.

(** [@identity.setter]: the body is [pass]. *)
Definition set_identity (self : ConceptNode) (identity : Identity)
  : ConceptNode := self.

End concept.

Module square.

(** eddy/core/items/nodes/common/square.py *)
Record SquaredNode := mkSquaredNode {
  _restriction : Restriction.t;
  _cardinality : option nat * option nat
}.

Definition init (restriction : option Restriction.t)
    (cardinality : option nat * option nat) : SquaredNode :=
  let r := default Restriction.Exists restriction in
  mkSquaredNode r
    (if decide (r = Restriction.Cardinality) then cardinality
     else (None, None)).

(** [@property identity] *)
Definition identity (self : SquaredNode) : Identity := Concept.

(** [@identity.setter]: the body is [pass]. *)
Definition set_identity (self : SquaredNode) (identity : Identity)
  : SquaredNode := self.

End square.

(** * The rest of the diagram, the squared nodes and the exporter *)

(** ** Connection changes ([Diagram.onConnectionChanged]) *)

Section Connection.

Variable Identities : Item → list Identity.

(** [Diagram.onConnectionChanged], the slot connected to [sgnItemAdded]
    and [sgnItemRemoved]: for an edge it emits [sgnNodeIdentification] for
    the source and then for the target of the edge, and the signal is
    connected to [doNodeIdentification]; for any other item it does
    nothing.  An item is a node, named by its key, or an edge. *)
Definition onConnectionChanged (d : Diagram) (item : nat + Edge) : Diagram :=
  match item with
  | inr e => foldl (doNodeIdentification Identities) d [source e; target e]
  | inl _ => d
  end.

End Connection.

(** ** Items under a point of the diagram ([Diagram.itemOnTopOf]) *)

Module scene.

(** What [isNode()], [isEdge()] and [isLabel()] tell of an item. *)
Inductive Kind := NodeItem | EdgeItem | LabelItem | OtherItem.

(** A graphics item: the object, named by a key, what it is, and its
    stacking value [zValue()].  Stacking values are compared only; they
    are taken in [Z]. *)
Record GraphicsItem := mkItem {
  key : nat;
  kind : Kind;
  zValue : Z
}.

#[global] Instance Kind_eq_dec : EqDecision Kind.
Proof. solve_decision. Defined.
#[global] Instance GraphicsItem_eq_dec : EqDecision GraphicsItem.
Proof. solve_decision. Defined.

Definition isNode (x : GraphicsItem) : bool := bool_decide (kind x = NodeItem).
Definition isEdge (x : GraphicsItem) : bool := bool_decide (kind x = EdgeItem).
Definition isLabel (x : GraphicsItem) : bool :=
  bool_decide (kind x = LabelItem).

(** Python's [max(data, key=...)] on a list that is not empty: the first
    of the members with the greatest key. *)
Definition max {A} (first : A) (rest : list A) (key : A → Z) : A :=
  foldl (λ best x, if decide (key best < key x)%Z then x else best)
        first rest.

(** [itemOnTopOf]; [items] is what [self.items(point)] returns. *)
Definition itemOnTopOf (items : list GraphicsItem)
    (nodes edges labels : bool) (skip : list GraphicsItem)
  : option GraphicsItem :=
  let data :=
    filter (λ x, (nodes && isNode x || edges && isEdge x
                  || labels && isLabel x) ∧ x ∉ skip) items in
  match data with
  | first :: rest => Some (max first rest zValue)
  | [] => None
  end.

End scene.

(** ** The [restriction] and [cardinality] properties of [SquaredNode]
    (eddy/core/items/nodes/common/square.py) *)

Module SquaredNode.

(** The dictionary [dict(min=..., max=...)]. *)
Definition dict : Type := option nat * option nat.

(** The two attributes the properties work on.  [_cardinality] is a
    dictionary or [None]: [__init__] stores the argument [cardinality],
    [None] by default, for the restriction [Cardinality], and the setter
    stores what it is given; the read property guards against [None].
    (The record [square.SquaredNode] above holds a dictionary always.) *)
Record t := mk {
  _restriction : Restriction.t;
  _cardinality : option dict
}.

(** [@property restriction] *)
Definition restriction (self : t) : Restriction.t := _restriction self.

(** [__init__] *)
Definition init (restriction : option Restriction.t)
    (cardinality : option dict) : t :=
  let _restriction := default Restriction.Exists restriction in
  mk _restriction
     (if decide (_restriction = Restriction.Cardinality)
      then cardinality else Some (None, None)).

(** [@property cardinality] *)
Definition cardinality (self : t) : dict :=
  match _cardinality self with
  | Some c => c
  | None => (None, None)
  end.

(** [@cardinality.setter] *)
Definition set_cardinality (self : t) (cardinality : option dict) : t :=
  let self := mk (_restriction self) cardinality in
  if decide (restriction self ≠ Restriction.Cardinality) then
    mk (_restriction self) (Some (None, None))
  else self.

(** [@restriction.setter] *)
Definition set_restriction (self : t) (restriction : Restriction.t) : t :=
  let self := mk restriction (_cardinality self) in
  mk (_restriction self) (Some (None, None)).

End SquaredNode.

(** ** The OWL 2 export worker (eddy.core.exporters.owl2)

    [OWLProjectExporterWorker]: the conversion of the nodes of a diagram
    into OWL 2 expressions, with its dictionary of converted nodes, and
    the axioms generated from the edges.  The module [owl2] above holds
    the two restriction builders over a conversion of the operands that
    is taken as given; the module [worker] here is the class with its
    state, where the builders call the [convert] of the worker, which
    reads and fills the dictionary. *)

Module Datatype.
(** Modelled from the spec: the enumeration [Datatype]
    (eddy.core.datatypes.owl) is not among the sources.  Its members here
    are the ones [getOWLApiDatatype] names. *)
Inductive t :=
  | anyURI | base64Binary | boolean | byte | dateTime | dateTimeStamp
  | decimal | double | float | hexBinary | int | integer | language
  | literal | long | Name | NCName | negativeInteger | NMTOKEN
  | nonNegativeInteger | nonPositiveInteger | normalizedString
  | plainLiteral | positiveInteger | rational | real | short | string
  | token | unsignedByte | unsignedInt | unsignedLong | unsignedShort
  | xmlLiteral.
End Datatype.

Module Facet.
(** Modelled from the spec: the enumeration [Facet]
    (eddy.core.datatypes.owl) is not among the sources.  Its members here
    are the ones [getOWLApiFacet] names. *)
Inductive t :=
  | maxExclusive | maxInclusive | minExclusive | minInclusive | langRange
  | length | maxLength | minLength | pattern.
End Facet.

Module Special.
(** Modelled from the spec: the enumeration [Special]
    (eddy.core.datatypes.graphol) is not among the sources.  The exporter
    tests [node.special()] against [Top] and [Bottom]. *)
Inductive t := Top | Bottom.
End Special.

#[global] Instance Datatype_eq_dec : EqDecision Datatype.t.
Proof. solve_decision. Defined.
#[global] Instance Facet_eq_dec : EqDecision Facet.t.
Proof. solve_decision. Defined.
#[global] Instance Special_eq_dec : EqDecision Special.t.
Proof. solve_decision. Defined.

Module worker.

(** The objects the worker builds: one constructor for each method of
    the OWL data factory [self.df] the worker calls, with the arguments of
    the call; [getInverseProperty], called on a converted role;
    [OWL2Datatype.valueOf(name).getIRI()] and [OWLFacet.valueOf(name)],
    kept as the name; the Python list [getPropertyAssertion] returns, the
    [java.util.LinkedList] [getRoleChain] returns, and [None].  A
    [java.util.HashSet] handed to the factory is a duplicate-free list in
    insertion order.  What the OWL API makes of the arguments it is given
    is outside of the model. *)
#[warnings="-register-all"] Inductive OWLObject :=
  | OWLThing
  | OWLNothing
  | OWLClass (iri : string)
  | OWLTopDataProperty
  | OWLBottomDataProperty
  | OWLDataProperty (iri : string)
  | OWLTopObjectProperty
  | OWLBottomObjectProperty
  | OWLObjectProperty (iri : string)
  | OWLNamedIndividual (iri : string)
  | OWLDatatype (name : string)
  | TopDatatype
  | OWLLiteral (value : string) (datatype : OWLObject)
  | OWLFacet (name : string)
  | OWLFacetRestriction (facet literal : OWLObject)
  | InverseProperty (ope : OWLObject)
  | OWLObjectComplementOf (ce : OWLObject)
  | OWLDataComplementOf (dr : OWLObject)
  | OWLDatatypeRestriction (de : OWLObject) (facets : list OWLObject)
  | OWLObjectOneOf (individuals : list OWLObject)
  | OWLObjectIntersectionOf (operands : list OWLObject)
  | OWLDataIntersectionOf (operands : list OWLObject)
  | OWLObjectUnionOf (operands : list OWLObject)
  | OWLDataUnionOf (operands : list OWLObject)
  | OWLDataSomeValuesFrom (dpe dre : OWLObject)
  | OWLDataAllValuesFrom (dpe dre : OWLObject)
  | OWLDataMinCardinality (n : nat) (dpe dre : OWLObject)
  | OWLObjectHasSelf (ope : OWLObject)
  | OWLObjectSomeValuesFrom (ope ce : OWLObject)
  | OWLObjectAllValuesFrom (ope ce : OWLObject)
  | OWLObjectMinCardinality (n : nat) (ope ce : OWLObject)
  | OWLObjectMaxCardinality (n : nat) (ope ce : OWLObject)
  | PyList (items : list OWLObject)
  | LinkedList (items : list OWLObject)
  | PyNone.

Fixpoint OWLObject_eq_dec (x y : OWLObject) {struct x} : {x = y} + {x ≠ y}.
Proof.
  decide equality;
    try (apply (list_eq_dec (dec := OWLObject_eq_dec)));
    try apply (decide (_ = _)).
Defined.

#[global] Instance OWLObject_eqdec : EqDecision OWLObject := OWLObject_eq_dec.

(** The axioms the worker generates, one constructor for each factory
    method. *)
Inductive OWLAxiom :=
  | OWLDeclarationAxiom (entity : OWLObject)
  | OWLDisjointClassesAxiom (classes : list OWLObject)
  | OWLObjectPropertyDomainAxiom (ope ce : OWLObject)
  | OWLDataPropertyDomainAxiom (dpe ce : OWLObject)
  | OWLObjectPropertyRangeAxiom (ope ce : OWLObject)
  | OWLDataPropertyRangeAxiom (dpe dr : OWLObject)
  | OWLSubClassOfAxiom (sub sup : OWLObject)
  | OWLSubObjectPropertyOfAxiom (sub sup : OWLObject)
  | OWLSubDataPropertyOfAxiom (sub sup : OWLObject)
  | OWLSubPropertyChainOfAxiom (chain sup : OWLObject)
  | OWLDisjointObjectPropertiesAxiom (properties : list OWLObject)
  | OWLDisjointDataPropertiesAxiom (properties : list OWLObject)
  | OWLEquivalentClassesAxiom (classes : list OWLObject)
  | OWLEquivalentObjectPropertiesAxiom (properties : list OWLObject)
  | OWLEquivalentDataPropertiesAxiom (properties : list OWLObject)
  | OWLClassAssertionAxiom (ce individual : OWLObject)
  | OWLObjectPropertyAssertionAxiom (ope subject object : OWLObject)
  | OWLDataPropertyAssertionAxiom (dpe subject object : OWLObject).

(** The exceptions the worker raises, each with its message; of a
    message built from a format string the text before the argument is
    kept.  The item of a [DiagramMalformedError] is a node, named by its
    key, or an edge. *)
Inductive Exception :=
  | DiagramMalformedError (item : nat + Edge) (message : string)
  | ValueError (message : string)
  | AttributeError
  | TypeError
  | IndexError.

(** The state of the worker the conversion works on.  [_axioms] is a
    Python set the worker adds to and never reads before the export ends:
    it is kept as the list of the axioms added so far, latest first, and
    the set is the set of the members of the list.  [_converted] is the
    dictionary of converted nodes. *)
Record Worker := mkWorker {
  _axioms : list OWLAxiom;
  _converted : gmap nat OWLObject
}.

(** What a method call comes to: it returns a value and leaves a state,
    or it raises; [Unfinished] is a call the bound on the depth of the
    recursion did not let end. *)
Inductive Outcome (A : Type) :=
  | Returns (a : A) (self : Worker)
  | Raises (e : Exception)
  | Unfinished.

Arguments Returns {A} a self.
Arguments Raises {A} e.
Arguments Unfinished {A}.

Definition M (A : Type) : Type := Worker → Outcome A.

(** [__init__]: no axiom and an empty dictionary. *)
Definition init : Worker := mkWorker [] ∅.

#[global] Instance M_ret : MRet M := λ A a self, Returns a self.

#[global] Instance M_bind : MBind M := λ A B f m self,
  match m self with
  | Returns a self' => f a self'
  | Raises e => Raises e
  | Unfinished => Unfinished
  end.

Definition raise {A} (e : Exception) : M A := λ _, Raises e.

(** [java.util.HashSet.add] *)
Definition HashSet_add (s : list OWLObject) (e : OWLObject)
  : list OWLObject :=
  if decide (e ∈ s) then s else s ++ [e].

(** *** Auxiliary methods *)

(** [getOWLApiDatatype]; [None] is a value that is no member of
    [Datatype]. *)
Definition getOWLApiDatatype (datatype : option Datatype.t) : M OWLObject :=
  match datatype with
  | Some Datatype.anyURI => mret (OWLDatatype "XSD_ANY_URI")
  | Some Datatype.base64Binary => mret (OWLDatatype "XSD_BASE_64_BINARY")
  | Some Datatype.boolean => mret (OWLDatatype "XSD_BOOLEAN")
  | Some Datatype.byte => mret (OWLDatatype "XSD_BYTE")
  | Some Datatype.dateTime => mret (OWLDatatype "XSD_DATE_TIME")
  | Some Datatype.dateTimeStamp => mret (OWLDatatype "XSD_DATE_TIME_STAMP")
  | Some Datatype.decimal => mret (OWLDatatype "XSD_DECIMAL")
  | Some Datatype.double => mret (OWLDatatype "XSD_DOUBLE")
  | Some Datatype.float => mret (OWLDatatype "XSD_FLOAT")
  | Some Datatype.hexBinary => mret (OWLDatatype "XSD_HEX_BINARY")
  | Some Datatype.int => mret (OWLDatatype "XSD_INT")
  | Some Datatype.integer => mret (OWLDatatype "XSD_INTEGER")
  | Some Datatype.language => mret (OWLDatatype "XSD_LANGUAGE")
  | Some Datatype.literal => mret (OWLDatatype "RDFS_LITERAL")
  | Some Datatype.long => mret (OWLDatatype "XSD_LONG")
  | Some Datatype.Name => mret (OWLDatatype "XSD_NAME")
  | Some Datatype.NCName => mret (OWLDatatype "XSD_NCNAME")
  | Some Datatype.negativeInteger =>
    mret (OWLDatatype "XSD_NEGATIVE_INTEGER")
  | Some Datatype.NMTOKEN => mret (OWLDatatype "XSD_NMTOKEN")
  | Some Datatype.nonNegativeInteger =>
    mret (OWLDatatype "XSD_NON_NEGATIVE_INTEGER")
  | Some Datatype.nonPositiveInteger =>
    mret (OWLDatatype "XSD_NON_POSITIVE_INTEGER")
  | Some Datatype.normalizedString =>
    mret (OWLDatatype "XSD_NORMALIZED_STRING")
  | Some Datatype.plainLiteral => mret (OWLDatatype "RDF_PLAIN_LITERAL")
  | Some Datatype.positiveInteger =>
    mret (OWLDatatype "XSD_POSITIVE_INTEGER")
  | Some Datatype.rational => mret (OWLDatatype "OWL_RATIONAL")
  | Some Datatype.real => mret (OWLDatatype "OWL_REAL")
  | Some Datatype.short => mret (OWLDatatype "XSD_SHORT")
  | Some Datatype.string => mret (OWLDatatype "XSD_STRING")
  | Some Datatype.token => mret (OWLDatatype "XSD_TOKEN")
  | Some Datatype.unsignedByte => mret (OWLDatatype "XSD_UNSIGNED_BYTE")
  | Some Datatype.unsignedInt => mret (OWLDatatype "XSD_UNSIGNED_INT")
  | Some Datatype.unsignedLong => mret (OWLDatatype "XSD_UNSIGNED_LONG")
  | Some Datatype.unsignedShort => mret (OWLDatatype "XSD_UNSIGNED_SHORT")
  | Some Datatype.xmlLiteral => mret (OWLDatatype "RDF_XML_LITERAL")
  | None => raise (ValueError "invalid datatype supplied")
  end.

(** [getOWLApiFacet]; [None] is a value that is no member of [Facet]. *)
Definition getOWLApiFacet (facet : option Facet.t) : M OWLObject :=
  match facet with
  | Some Facet.maxExclusive => mret (OWLFacet "MAX_EXCLUSIVE")
  | Some Facet.maxInclusive => mret (OWLFacet "MAX_INCLUSIVE")
  | Some Facet.minExclusive => mret (OWLFacet "MIN_EXCLUSIVE")
  | Some Facet.minInclusive => mret (OWLFacet "MIN_INCLUSIVE")
  | Some Facet.langRange => mret (OWLFacet "LANG_RANGE")
  | Some Facet.length => mret (OWLFacet "LENGTH")
  | Some Facet.maxLength => mret (OWLFacet "MIN_LENGTH")
  | Some Facet.minLength => mret (OWLFacet "MIN_LENGTH")
  | Some Facet.pattern => mret (OWLFacet "PATTERN")
  | None => raise (ValueError "invalid facet supplied")
  end.

Section Nodes.

(** The diagram the project holds, and [self.project.prefix]. *)
Variable d : Diagram.
Variable prefix : string.
(** Modelled from the spec: [OWLShortIRI] (eddy.core.functions.owl) is not
    among the sources; it builds the short IRI of a predicate from the
    prefix of the project and the text of the node, and is taken as
    given. *)
Variable OWLShortIRI : string → string → string.
(** The attributes of the node objects the worker reads: [node.text()],
    [node.special()], [node.datatype], [node.value], [node.facet],
    [node.inputs] (the identifiers of the input edges of the node, an edge
    being identified by its position in the diagram), [node.restriction()]
    and [node.cardinality(key)]. *)
Variable text : nat → string.
Variable special : nat → option Special.t.
Variable datatype : nat → option Datatype.t.
Variable value : nat → string.
Variable facet : nat → option Facet.t.
Variable inputs : nat → list nat.
Variable restriction : nat → Restriction.t.
Variable cardinality : nat → string → option nat.
(** [self.convert], the method the builders call on their operands. *)
Variable self_convert : nat → M OWLObject.

(** [node.type()]; a key that names no object has no class. *)
Definition type (node : nat) : option Item := node_type <$> nodes d !! node.

(** [node.diagram.edge(i)] *)
Definition edge (i : nat) : option Edge := edges d !! i.

(** [for i in operands: collection.add(self.convert(i))] *)
Fixpoint add_converted (operands : list nat) (collection : list OWLObject)
  : M (list OWLObject) :=
  match operands with
  | [] => mret collection
  | i :: operands' =>
    e ← self_convert i;
    add_converted operands' (HashSet_add collection e)
  end.

(** [[node.diagram.edge(i).other(node) for i in node.inputs]] *)
Fixpoint others (node : nat) (ids : list nat) : M (list nat) :=
  match ids with
  | [] => mret []
  | i :: ids' =>
    match edge i with
    | Some e => operands ← others node ids'; mret (other e node :: operands)
    | None => raise AttributeError
    end
  end.

(** *** Nodes processing *)

Definition getAttribute (node : nat) : M OWLObject :=
  if decide (special node = Some Special.Top) then
    mret OWLTopDataProperty
  else if decide (special node = Some Special.Bottom) then
    mret OWLBottomDataProperty
  else mret (OWLDataProperty (OWLShortIRI prefix (text node))).

Definition getComplement (node : nat) : M OWLObject :=
  if decide (identity d node = Unknown) then
    raise (DiagramMalformedError (inl node) "unsupported operand(s)")
  else
    let f1 := λ x, bool_decide (edge_type x = InputEdge) in
    let f2 := λ x,
      bool_decide (node_identity x ∈ [Attribute; Concept; ValueDomain; Role])
    in
    let incoming := incomingNodes d node f1 f2 in
    if decide (incoming = []) then
      raise (DiagramMalformedError (inl node) "missing operand(s)")
    else if decide (1 < length incoming) then
      raise (DiagramMalformedError (inl node) "too many operands")
    else
      match first incoming with
      | None => raise AttributeError
      | Some operand =>
        if decide (identity d operand = Concept) then
          e ← self_convert operand; mret (OWLObjectComplementOf e)
        else if decide (identity d operand = ValueDomain) then
          e ← self_convert operand; mret (OWLDataComplementOf e)
        else if decide (identity d operand = Role) then
          self_convert operand
        else if decide (identity d operand = Attribute) then
          self_convert operand
        else raise (DiagramMalformedError (inl node) "unsupported operand")
      end.

Definition getConcept (node : nat) : M OWLObject :=
  if decide (special node = Some Special.Top) then mret OWLThing
  else if decide (special node = Some Special.Bottom) then mret OWLNothing
  else mret (OWLClass (OWLShortIRI prefix (text node))).

Definition getDatatypeRestriction (node : nat) : M OWLObject :=
  let f1 := λ x, bool_decide (edge_type x = InputEdge) in
  let f2 := λ x, bool_decide (node_type x = ValueDomainNode) in
  let f3 := λ x, bool_decide (node_type x = FacetNode) in
  (* BUILD DATATYPE *)
  match first (incomingNodes d node f1 f2) with
  | None => raise (DiagramMalformedError (inl node) "missing value domain node")
  | Some operand =>
    de ← self_convert operand;
    (* BUILD FACETS *)
    let incoming := incomingNodes d node f1 f3 in
    if decide (incoming = []) then
      raise (DiagramMalformedError (inl node) "missing facet node(s)")
    else
      collection ← add_converted incoming [];
      (* BUILD DATATYPE RESTRICTION *)
      mret (OWLDatatypeRestriction de collection)
  end.

Definition getDomainRestriction (node : nat) : M OWLObject :=
  let f1 := λ x, bool_decide (edge_type x = InputEdge) in
  let f2 := λ x, bool_decide (node_identity x ∈ [Role; Attribute]) in
  let f3 := λ x, bool_decide (node_identity x = ValueDomain) in
  let f4 := λ x, bool_decide (node_identity x = Concept) in
  match first (incomingNodes d node f1 f2) with
  | None => raise (DiagramMalformedError (inl node) "missing operand(s)")
  | Some operand =>
    if decide (identity d operand = Attribute) then
      (* BUILD OPERAND *)
      dpe ← self_convert operand;
      (* BUILD FILLER *)
      dre ← match first (incomingNodes d node f1 f3) with
            | None => mret TopDatatype
            | Some filler => self_convert filler
            end;
      if decide (restriction node = Restriction.Exists) then
        mret (OWLDataSomeValuesFrom dpe dre)
      else if decide (restriction node = Restriction.Forall) then
        mret (OWLDataAllValuesFrom dpe dre)
      else if decide (restriction node = Restriction.Cardinality) then
        let cardinalities := [] in
        let min_cardinality := cardinality node "min" in
        let max_cardinality := cardinality node "max" in
        let cardinalities :=
          match min_cardinality with
          | Some n =>
            HashSet_add cardinalities (OWLDataMinCardinality n dpe dre)
          | None => cardinalities
          end in
        let cardinalities :=
          match max_cardinality with
          | Some n =>
            HashSet_add cardinalities (OWLDataMinCardinality n dpe dre)
          | None => cardinalities
          end in
        match cardinalities with
        | [] => raise (DiagramMalformedError (inl node) "missing cardinality")
        | e :: _ =>
          if decide (1 ≤ length cardinalities)
          then mret (OWLDataIntersectionOf cardinalities)
          else mret e
        end
      else raise (DiagramMalformedError (inl node) "unsupported restriction")
    else if decide (identity d operand = Role) then
      (* BUILD OPERAND *)
      ope ← self_convert operand;
      (* BUILD FILLER *)
      ce ← match first (incomingNodes d node f1 f4) with
           | None => mret OWLThing
           | Some filler => self_convert filler
           end;
      if decide (restriction node = Restriction.Self) then
        mret (OWLObjectHasSelf ope)
      else if decide (restriction node = Restriction.Exists) then
        mret (OWLObjectSomeValuesFrom ope ce)
      else if decide (restriction node = Restriction.Forall) then
        mret (OWLObjectAllValuesFrom ope ce)
      else if decide (restriction node = Restriction.Cardinality) then
        let cardinalities := [] in
        let min_cardinality := cardinality node "min" in
        let max_cardinality := cardinality node "max" in
        let cardinalities :=
          match min_cardinality with
          | Some n =>
            HashSet_add cardinalities (OWLObjectMinCardinality n ope ce)
          | None => cardinalities
          end in
        let cardinalities :=
          match max_cardinality with
          | Some n =>
            HashSet_add cardinalities (OWLObjectMaxCardinality n ope ce)
          | None => cardinalities
          end in
        match cardinalities with
        | [] => raise (DiagramMalformedError (inl node) "missing cardinality")
        | e :: _ =>
          if decide (1 ≤ length cardinalities)
          then mret (OWLObjectIntersectionOf cardinalities)
          else mret e
        end
      else raise (DiagramMalformedError (inl node) "unsupported restriction")
    else mret PyNone
  end.

Definition getEnumeration (node : nat) : M OWLObject :=
  if decide (identity d node = Unknown) then
    raise (DiagramMalformedError (inl node) "unsupported operand(s)")
  else
    let f1 := λ x, bool_decide (edge_type x = InputEdge) in
    let f2 := λ x, bool_decide (node_type x = IndividualNode) in
    individuals ← add_converted (incomingNodes d node f1 f2) [];
    if decide (individuals = []) then
      raise (DiagramMalformedError (inl node) "missing operand(s)")
    else mret (OWLObjectOneOf individuals).

Definition getFacet (node : nat) : M OWLObject :=
  match datatype node with
  | None => raise (DiagramMalformedError (inl node) "disconnected facet node")
  | Some _ =>
    dt ← getOWLApiDatatype (datatype node);
    let literal := OWLLiteral (value node) dt in
    facet ← getOWLApiFacet (facet node);
    mret (OWLFacetRestriction facet literal)
  end.

Definition getIndividual (node : nat) : M OWLObject :=
  if decide (identity d node = Individual) then
    mret (OWLNamedIndividual (OWLShortIRI prefix (text node)))
  else if decide (identity d node = Value) then
    dt ← getOWLApiDatatype (datatype node);
    mret (OWLLiteral (value node) dt)
  else raise (DiagramMalformedError (inl node) "unsupported identity").

Definition getIntersection (node : nat) : M OWLObject :=
  if decide (identity d node = Unknown) then
    raise (DiagramMalformedError (inl node) "unsupported operand(s)")
  else
    let f1 := λ x, bool_decide (edge_type x = InputEdge) in
    let f2 := λ x, bool_decide (node_identity x = identity d node) in
    collection ← add_converted (incomingNodes d node f1 f2) [];
    if decide (collection = []) then
      raise (DiagramMalformedError (inl node) "missing operand(s)")
    else if decide (identity d node = Concept) then
      mret (OWLObjectIntersectionOf collection)
    else mret (OWLDataIntersectionOf collection).

(** [for operand in ...] of [getPropertyAssertion] *)
Fixpoint append_individuals (node : nat) (operands : list nat)
    (collection : list OWLObject) : M (list OWLObject) :=
  match operands with
  | [] => mret collection
  | operand :: operands' =>
    if decide (type operand ≠ Some IndividualNode) then
      raise (DiagramMalformedError (inl node) "unsupported operand")
    else
      e ← self_convert operand;
      append_individuals node operands' (collection ++ [e])
  end.

Definition getPropertyAssertion (node : nat) : M OWLObject :=
  if decide (identity d node = Unknown) then
    raise (DiagramMalformedError (inl node) "unsupported operand(s)")
  else
    operands ← others node (inputs node);
    collection ← append_individuals node operands [];
    if decide (length collection < 2) then
      raise (DiagramMalformedError (inl node) "missing operand(s)")
    else if decide (2 < length collection) then
      raise (DiagramMalformedError (inl node) "too many operands")
    else mret (PyList collection).

Definition getRangeRestriction (node : nat) : M OWLObject :=
  let f1 := λ x, bool_decide (edge_type x = InputEdge) in
  let f2 := λ x, bool_decide (node_identity x ∈ [Role; Attribute]) in
  let f3 := λ x, bool_decide (node_identity x = Concept) in
  match first (incomingNodes d node f1 f2) with
  | None => raise (DiagramMalformedError (inl node) "missing operand(s)")
  | Some operand =>
    if decide (identity d operand = Role) then
      (* BUILD OPERAND *)
      e ← self_convert operand;
      let ope := InverseProperty e in
      (* BUILD FILLER *)
      ce ← match first (incomingNodes d node f1 f3) with
           | None => mret OWLThing
           | Some filler => self_convert filler
           end;
      if decide (restriction node = Restriction.Self) then
        mret (OWLObjectHasSelf ope)
      else if decide (restriction node = Restriction.Exists) then
        mret (OWLObjectSomeValuesFrom ope ce)
      else if decide (restriction node = Restriction.Forall) then
        mret (OWLObjectAllValuesFrom ope ce)
      else if decide (restriction node = Restriction.Cardinality) then
        let cardinalities := [] in
        let min_cardinality := cardinality node "min" in
        let max_cardinality := cardinality node "max" in
        let cardinalities :=
          match min_cardinality with
          | Some n =>
            HashSet_add cardinalities (OWLObjectMinCardinality n ope ce)
          | None => cardinalities
          end in
        let cardinalities :=
          match max_cardinality with
          | Some n =>
            HashSet_add cardinalities (OWLObjectMaxCardinality n ope ce)
          | None => cardinalities
          end in
        match cardinalities with
        | [] => raise (DiagramMalformedError (inl node) "missing cardinality")
        | e :: _ =>
          if decide (1 ≤ length cardinalities)
          then mret (OWLObjectIntersectionOf cardinalities)
          else mret e
        end
      else raise (DiagramMalformedError (inl node) "unsupported restriction")
    else mret PyNone
  end.

Definition getRole (node : nat) : M OWLObject :=
  if decide (special node = Some Special.Top) then
    mret OWLTopObjectProperty
  else if decide (special node = Some Special.Bottom) then
    mret OWLBottomObjectProperty
  else mret (OWLObjectProperty (OWLShortIRI prefix (text node))).

(** [for operand in ...] of [getRoleChain] *)
Fixpoint add_roles (node : nat) (operands : list nat)
    (collection : list OWLObject) : M (list OWLObject) :=
  match operands with
  | [] => mret collection
  | operand :: operands' =>
    if decide (type operand ≠ Some RoleNode
               ∧ type operand ≠ Some RoleInverseNode) then
      raise (DiagramMalformedError (inl node) "unsupported operand")
    else
      e ← self_convert operand;
      add_roles node operands' (collection ++ [e])
  end.

Definition getRoleChain (node : nat) : M OWLObject :=
  if decide (inputs node = []) then
    raise (DiagramMalformedError (inl node) "missing operand(s)")
  else
    operands ← others node (inputs node);
    collection ← add_roles node operands [];
    if decide (collection = []) then
      raise (DiagramMalformedError (inl node) "missing operand(s)")
    else mret (LinkedList collection).

Definition getRoleInverse (node : nat) : M OWLObject :=
  let f1 := λ x, bool_decide (edge_type x = InputEdge) in
  let f2 := λ x, bool_decide (node_type x = RoleNode) in
  match first (incomingNodes d node f1 f2) with
  | None => raise (DiagramMalformedError (inl node) "missing operand(s)")
  | Some operand => e ← self_convert operand; mret (InverseProperty e)
  end.

Definition getUnion (node : nat) : M OWLObject :=
  if decide (identity d node = Unknown) then
    raise (DiagramMalformedError (inl node) "unsupported operand(s)")
  else
    let f1 := λ x, bool_decide (edge_type x = InputEdge) in
    let f2 := λ x, bool_decide (node_identity x = identity d node) in
    collection ← add_converted (incomingNodes d node f1 f2) [];
    if decide (collection = []) then
      raise (DiagramMalformedError (inl node) "missing operand(s)")
    else if decide (identity d node = Concept) then
      mret (OWLObjectUnionOf collection)
    else mret (OWLDataUnionOf collection).

Definition getValueDomain (node : nat) : M OWLObject :=
  getOWLApiDatatype (datatype node).

End Nodes.

(** *** Interface *)

(** [self._converted[node] = e], and the value read back. *)
Definition store (node : nat) (e : OWLObject) : M OWLObject := λ self,
  Returns e (mkWorker (_axioms self) (<[node := e]> (_converted self))).

(** [addAxiom] *)
Definition addAxiom (axiom : OWLAxiom) : M unit := λ self,
  Returns () (mkWorker (axiom :: _axioms self) (_converted self)).

Section Convert.

Variable d : Diagram.
Variable prefix : string.
Variable OWLShortIRI : string → string → string.
Variable text : nat → string.
Variable special : nat → option Special.t.
Variable datatype : nat → option Datatype.t.
Variable value : nat → string.
Variable facet : nat → option Facet.t.
Variable inputs : nat → list nat.
Variable restriction : nat → Restriction.t.
Variable cardinality : nat → string → option nat.

(** One call of [convert] on a node that is not in the dictionary, with
    the method to use for the operands. *)
Definition build (self_convert : nat → M OWLObject) (node : nat)
  : M OWLObject :=
  match type d node with
  | Some ConceptNode => getConcept prefix OWLShortIRI text special node
  | Some AttributeNode => getAttribute prefix OWLShortIRI text special node
  | Some RoleNode => getRole prefix OWLShortIRI text special node
  | Some ValueDomainNode => getValueDomain datatype node
  | Some IndividualNode =>
    getIndividual d prefix OWLShortIRI text datatype value node
  | Some FacetNode => getFacet datatype value facet node
  | Some RoleInverseNode => getRoleInverse d self_convert node
  | Some RoleChainNode => getRoleChain d inputs self_convert node
  | Some ComplementNode => getComplement d self_convert node
  | Some EnumerationNode => getEnumeration d self_convert node
  | Some IntersectionNode => getIntersection d self_convert node
  | Some UnionNode | Some DisjointUnionNode => getUnion d self_convert node
  | Some DatatypeRestrictionNode =>
    getDatatypeRestriction d self_convert node
  | Some PropertyAssertionNode =>
    getPropertyAssertion d inputs self_convert node
  | Some DomainRestrictionNode =>
    getDomainRestriction d restriction cardinality self_convert node
  | Some RangeRestrictionNode =>
    getRangeRestriction d restriction cardinality self_convert node
  | _ => raise (ValueError "no conversion available for node")
  end.

(** [convert].  A node of the dictionary is returned as it is; any other
    node is built, stored and returned.  The builders call [convert] on
    the operands of the node; [fuel] bounds the depth of these calls. *)
Fixpoint convert (fuel : nat) (node : nat) : M OWLObject := λ self,
  match _converted self !! node with
  | Some e => Returns e self
  | None =>
    match fuel with
    | 0 => Unfinished
    | S fuel' => (e ← build (convert fuel') node; store node e) self
    end
  end.

End Convert.

(** *** Axioms generation *)

(** [collection[i]]: the subscript of the Python list
    [getPropertyAssertion] returns; any other converted value is taken not
    to have a subscript. *)
Definition subscript (collection : OWLObject) (i : nat) : M OWLObject :=
  match collection with
  | PyList items =>
    match items !! i with
    | Some e => mret e
    | None => raise IndexError
    end
  | _ => raise TypeError
  end.

Section Axioms.

Variable d : Diagram.
(** [self.convert] *)
Variable self_convert : nat → M OWLObject.

Definition createClassAssertionAxiom (edge : Edge) : M unit :=
  ce ← self_convert (target edge);
  individual ← self_convert (source edge);
  addAxiom (OWLClassAssertionAxiom ce individual).

Definition createDataPropertyAssertionAxiom (edge : Edge) : M unit :=
  collection ← self_convert (source edge);
  operand1 ← subscript collection 0;
  collection ← self_convert (source edge);
  operand2 ← subscript collection 1;
  dpe ← self_convert (target edge);
  addAxiom (OWLDataPropertyAssertionAxiom dpe operand1 operand2).

Definition createDeclarationAxiom (node : nat) : M unit :=
  entity ← self_convert node;
  addAxiom (OWLDeclarationAxiom entity).

Definition createDisjointClassesAxiom (node : nat) : M unit :=
  let f1 := λ x, bool_decide (edge_type x = InputEdge) in
  collection ← add_converted self_convert
                 (incomingNodes d node f1 (λ _, true)) [];
  addAxiom (OWLDisjointClassesAxiom collection).

Definition createDisjointDataPropertiesAxiom (edge : Edge) : M unit :=
  let collection := [] in
  e ← self_convert (source edge);
  let collection := HashSet_add collection e in
  e ← self_convert (target edge);
  let collection := HashSet_add collection e in
  addAxiom (OWLDisjointDataPropertiesAxiom collection).

Definition createDisjointObjectPropertiesAxiom (edge : Edge) : M unit :=
  let collection := [] in
  e ← self_convert (source edge);
  let collection := HashSet_add collection e in
  e ← self_convert (target edge);
  let collection := HashSet_add collection e in
  addAxiom (OWLDisjointObjectPropertiesAxiom collection).

Definition createEquivalentClassesAxiom (edge : Edge) : M unit :=
  let collection := [] in
  e ← self_convert (source edge);
  let collection := HashSet_add collection e in
  e ← self_convert (target edge);
  let collection := HashSet_add collection e in
  addAxiom (OWLEquivalentClassesAxiom collection).

Definition createEquivalentDataPropertiesAxiom (edge : Edge) : M unit :=
  let collection := [] in
  e ← self_convert (source edge);
  let collection := HashSet_add collection e in
  e ← self_convert (target edge);
  let collection := HashSet_add collection e in
  addAxiom (OWLEquivalentDataPropertiesAxiom collection).

Definition createEquivalentObjectPropertiesAxiom (edge : Edge) : M unit :=
  let collection := [] in
  e ← self_convert (source edge);
  let collection := HashSet_add collection e in
  e ← self_convert (target edge);
  let collection := HashSet_add collection e in
  addAxiom (OWLEquivalentObjectPropertiesAxiom collection).

Definition createObjectPropertyAssertionAxiom (edge : Edge) : M unit :=
  collection ← self_convert (source edge);
  operand1 ← subscript collection 0;
  collection ← self_convert (source edge);
  operand2 ← subscript collection 1;
  ope ← self_convert (target edge);
  addAxiom (OWLObjectPropertyAssertionAxiom ope operand1 operand2).

(** [for concept in ...: self.addAxiom(axiom(self.convert(property),
    self.convert(concept)))] *)
Fixpoint add_property_axioms (axiom : OWLObject → OWLObject → OWLAxiom)
    (property : nat) (concepts : list nat) : M unit :=
  match concepts with
  | [] => mret ()
  | concept :: concepts' =>
    pe ← self_convert property;
    ce ← self_convert concept;
    addAxiom (axiom pe ce);;
    add_property_axioms axiom property concepts'
  end.

Definition createPropertyDomainAxiom (node : nat) : M unit :=
  (* ObjectPropertyDomain *)
  let f1 := λ x, bool_decide (edge_type x = InputEdge) in
  let f2 := λ x, bool_decide (node_identity x = Role) in
  let role := first (incomingNodes d node f1 f2) in
  match role with
  | Some role =>
    let f3 := λ x,
      bool_decide (edge_type x ∈ [InclusionEdge; EquivalenceEdge]) in
    let f4 := λ x, bool_decide (node_identity x = Concept) in
    add_property_axioms OWLObjectPropertyDomainAxiom role
      (outgoingNodes d node f3 f4)
  | None => mret ()
  end;;
  (* DataPropertyDomain *)
  let f1 := λ x, bool_decide (edge_type x = InputEdge) in
  let f2 := λ x, bool_decide (node_identity x = Attribute) in
  let attribute := first (incomingNodes d node f1 f2) in
  match attribute with
  | Some attribute =>
    let f3 := λ x,
      bool_decide (edge_type x ∈ [InclusionEdge; EquivalenceEdge]) in
    let f4 := λ x, bool_decide (node_identity x = Concept) in
    add_property_axioms OWLDataPropertyDomainAxiom attribute
      (outgoingNodes d node f3 f4)
  | None => mret ()
  end.

Definition createPropertyRangeAxiom (node : nat) : M unit :=
  (* ObjectPropertyRange *)
  let f1 := λ x, bool_decide (edge_type x = InputEdge) in
  let f2 := λ x, bool_decide (node_identity x = Role) in
  let role := first (incomingNodes d node f1 f2) in
  match role with
  | Some role =>
    let f3 := λ x,
      bool_decide (edge_type x ∈ [InclusionEdge; EquivalenceEdge]) in
    let f4 := λ x, bool_decide (node_identity x = Concept) in
    add_property_axioms OWLObjectPropertyRangeAxiom role
      (outgoingNodes d node f3 f4)
  | None => mret ()
  end;;
  (* DataPropertyRange *)
  let f1 := λ x, bool_decide (edge_type x = InputEdge) in
  let f2 := λ x, bool_decide (node_identity x = Attribute) in
  let attribute := first (incomingNodes d node f1 f2) in
  match attribute with
  | Some attribute =>
    let f3 := λ x,
      bool_decide (edge_type x ∈ [InclusionEdge; EquivalenceEdge]) in
    let f4 := λ x, bool_decide (node_identity x = ValueDomain) in
    add_property_axioms OWLDataPropertyRangeAxiom attribute
      (outgoingNodes d node f3 f4)
  | None => mret ()
  end.

Definition createSubclassOfAxiom (edge : Edge) : M unit :=
  sub ← self_convert (source edge);
  sup ← self_convert (target edge);
  addAxiom (OWLSubClassOfAxiom sub sup).

Definition createSubDataPropertyOfAxiom (edge : Edge) : M unit :=
  sub ← self_convert (source edge);
  sup ← self_convert (target edge);
  addAxiom (OWLSubDataPropertyOfAxiom sub sup).

Definition createSubObjectPropertyOfAxiom (edge : Edge) : M unit :=
  sub ← self_convert (source edge);
  sup ← self_convert (target edge);
  addAxiom (OWLSubObjectPropertyOfAxiom sub sup).

Definition createSubPropertyChainOfAxiom (edge : Edge) : M unit :=
  chain ← self_convert (source edge);
  sup ← self_convert (target edge);
  addAxiom (OWLSubPropertyChainOfAxiom chain sup).

(** *** Main worker *)

(** [for node in self.project.nodes(): self.convert(node)] in [run], up
    to the progress step: the pre-processing of the nodes, which [run]
    does before it generates axioms.  [nodes] is what
    [self.project.nodes()] returns. *)
Fixpoint nodes_pre_processing (nodes : list nat) : M unit :=
  match nodes with
  | [] => mret ()
  | node :: nodes' => self_convert node;; nodes_pre_processing nodes'
  end.

(** The body of [for edge in self.project.edges()] in [run], up to the
    progress step: the axioms generated from one edge. *)
Definition axioms_from_edge (edge : Edge) : M unit :=
  let source_identity := identity d (source edge) in
  let target_identity := identity d (target edge) in
  let source_type := type d (source edge) in
  let target_type := type d (target edge) in
  if decide (edge_type edge = InclusionEdge) then
    (* CONCEPTS *)
    if decide (source_identity = Concept ∧ target_identity = Concept) then
      createSubclassOfAxiom edge
    (* ROLES *)
    else if decide (source_identity = Role ∧ target_identity = Role) then
      if decide (source_type = Some RoleChainNode) then
        createSubPropertyChainOfAxiom edge
      else if decide (source_type ∈ [Some RoleNode; Some RoleInverseNode])
      then
        if decide (target_type = Some ComplementNode) then
          createDisjointObjectPropertiesAxiom edge
        else if decide
                  (target_type ∈ [Some RoleNode; Some RoleInverseNode])
        then createSubObjectPropertyOfAxiom edge
        else mret ()
      else mret ()
    (* ATTRIBUTES *)
    else if decide (source_identity = Attribute
                    ∧ target_identity = Attribute) then
      if decide (source_type = Some AttributeNode) then
        if decide (target_type = Some ComplementNode) then
          createDisjointDataPropertiesAxiom edge
        else if decide (target_type = Some AttributeNode) then
          createSubDataPropertyOfAxiom edge
        else mret ()
      else mret ()
    (* VALUE DOMAIN (ONLY DATA PROPERTY RANGE) *)
    else if decide (source_type = Some RangeRestrictionNode
                    ∧ target_identity = ValueDomain) then
      mret ()
    else
      raise (DiagramMalformedError (inr edge) "invalid inclusion assertion")
  else if decide (edge_type edge = EquivalenceEdge) then
    (* CONCEPTS *)
    if decide (source_identity = Concept ∧ target_identity = Concept) then
      createEquivalentClassesAxiom edge
    (* ROLES *)
    else if decide (source_identity = Role ∧ target_identity = Role) then
      createEquivalentObjectPropertiesAxiom edge
    (* ATTRIBUTES *)
    else if decide (source_identity = Attribute
                    ∧ target_identity = Attribute) then
      createEquivalentDataPropertiesAxiom edge
    else
      raise (DiagramMalformedError (inr edge)
               "invalid equivalence assertion")
  else if decide (edge_type edge = MembershipEdge) then
    (* CONCEPTS *)
    if decide (source_identity = Individual ∧ target_identity = Concept)
    then createClassAssertionAxiom edge
    (* ROLES *)
    else if decide (source_identity = RoleInstance) then
      createObjectPropertyAssertionAxiom edge
    (* ATTRIBUTES *)
    else if decide (source_identity = AttributeInstance) then
      createDataPropertyAssertionAxiom edge
    else
      raise (DiagramMalformedError (inr edge)
               "invalid membership assertion")
  else mret ().

End Axioms.

End worker.

(** * Notions used by the verification *)

(** Two diagrams with the same node keys, node classes and edges: they
    differ in identities at most. *)
Definition same_shape (d d' : Diagram) : Prop :=
  edges d = edges d'
  ∧ ∀ k, node_type <$> nodes d !! k = node_type <$> nodes d' !! k.

(** A filter or converter on nodes that looks at the class only. *)
Definition by_type {B} (p : Node → B) : Prop :=
  ∀ x y, node_type x = node_type y → p x = p y.

(** The three node classes the loop has a case for. *)
Definition special (t : Item) : Prop :=
  t ∈ [EnumerationNode; RangeRestrictionNode; PropertyAssertionNode].

#[global] Instance special_dec t : Decision (special t).
Proof. unfold special. apply _. Defined.

(** The operands the case for class [t] collects and later discards from
    [strong]. *)
Definition rule_operands (Identities : Item → list Identity)
    (d : Diagram) (t : Item) (node : nat) : list nat :=
  match t with
  | EnumerationNode => incomingNodes d node f1 f2
  | RangeRestrictionNode => incomingNodes d node f1 (f4 Identities)
  | PropertyAssertionNode => incomingNodes d node f1 f6
  | _ => []
  end.

(** The identity the case for class [t] computes for the node. *)
Definition rule_identity (Identities : Item → list Identity)
    (d : Diagram) (t : Item) (node : nat) : Identity :=
  match t with
  | EnumerationNode =>
    computed_identity
      (remove_dups (node_map d c1 (incomingNodes d node f1 f2)))
  | RangeRestrictionNode =>
    computed_identity
      (remove_dups (node_map d c2 (incomingNodes d node f1 (f4 Identities))))
  | PropertyAssertionNode =>
    let computed :=
      computed_identity
        (remove_dups (node_map d c3 (outgoingNodes d node f3 f5))) in
    let incoming := incomingNodes d node f1 f6 in
    if decide (computed = Neutral ∧ 2 ≤ length incoming) then
      if decide (0 < sum_list (node_map d (λ x, Nat.b2n (a1 x)) incoming))
      then AttributeInstance else RoleInstance
    else computed
  | _ => Neutral
  end.

(** The node object left by an assignment of [v]. *)
Definition assigned (Identities : Item → list Identity) (v : Identity)
    (x : Node) : Node :=
  mkNode (node_type x) (stored Identities (node_type x) v).

(** A node whose identity is within its capability set, or [Unknown]. *)
Definition settled (Identities : Item → list Identity) (d : Diagram)
    (k : nat) : Prop :=
  ∃ x, nodes d !! k = Some x
       ∧ (node_identity x ∈ Identities (node_type x)
          ∨ node_identity x = Unknown).

(** The members of the working sets are settled. *)
Definition sets_settled (Identities : Item → list Identity) (p : Pass)
  : Prop :=
  ∀ k, k ∈ strong p ∨ k ∈ excluded p → settled Identities (diagram p) k.

(** Two diagrams of the same shape that hold the same node objects outside
    of [M]. *)
Definition agree (M : nat → Prop) (d d' : Diagram) : Prop :=
  same_shape d d' ∧ ∀ k, ¬ M k → nodes d !! k = nodes d' !! k.

(** The classes of the operands whose identity the special cases read
    through [c1], [c3] and [a1]. *)
Definition operand_classes : list Item :=
  [IndividualNode; RoleNode; RoleInverseNode; AttributeNode].

(** Nodes of [M] are neutral-capable and of none of the operand classes:
    no special case reads their identity. *)
Definition unread (Identities : Item → list Identity) (M : nat → Prop)
    (d : Diagram) : Prop :=
  ∀ k y, M k → nodes d !! k = Some y →
         Neutral ∈ Identities (node_type y)
         ∧ node_type y ∉ operand_classes.

(** Two runs of the loop that have built the same working sets over
    diagrams that hold the same node objects outside of [C] and at the
    members of the working sets. *)
Definition lockstep (C : list nat) (p p' : Pass) : Prop :=
  strong p = strong p'
  ∧ excluded p = excluded p'
  ∧ agree (λ k, k ∈ C) (diagram p) (diagram p')
  ∧ ∀ k, k ∈ strong p ∨ k ∈ excluded p →
         nodes (diagram p) !! k = nodes (diagram p') !! k.

(** An enumeration or range restriction node whose case computes an
    identity that the node stores as something other than [Neutral]: the
    node its case adds to [strong]. *)
Definition rule_target (Identities : Item → list Identity) (d : Diagram)
    (k : nat) : Prop :=
  ∃ x, nodes d !! k = Some x
       ∧ node_type x ∈ [EnumerationNode; RangeRestrictionNode]
       ∧ stored Identities (node_type x)
           (rule_identity Identities d (node_type x) k) ≠ Neutral.

(** An operand of the case of one of the nodes of [l]: a node the loop
    over [l] discards from [strong]. *)
Definition rule_operand (Identities : Item → list Identity) (d : Diagram)
    (l : list nat) (k : nat) : Prop :=
  ∃ m x, m ∈ l ∧ nodes d !! m = Some x
         ∧ k ∈ rule_operands Identities d (node_type x) m.

(** The identity the pass leaves in a node of the weak set: the one its
    own case computes for a property assertion and for an enumeration or
    a range restriction that enters [strong], the aggregate for every
    other node. *)
Definition pass_identity (Identities : Item → list Identity) (d : Diagram)
    (aggregate : Identity) (k : nat) (x : Node) : Identity :=
  if decide (node_type x = PropertyAssertionNode
             ∨ (node_type x ∈ [EnumerationNode; RangeRestrictionNode]
                ∧ stored Identities (node_type x)
                    (rule_identity Identities d (node_type x) k) ≠ Neutral))
  then rule_identity Identities d (node_type x) k
  else aggregate.

(** One move of the traversal: from a node to a neighbour the filter
    accepts. *)
Definition crossing (d : Diagram) (p : Node → bool) (a b : nat) : Prop :=
  b ∈ adjacentNodes d a ∧ holds d p b.

(** An assignment to one of the two properties of a squared node. *)
Inductive assignment :=
  | assign_restriction (restriction : Restriction.t)
  | assign_cardinality (cardinality : option SquaredNode.dict).

Definition assign (self : SquaredNode.t) (a : assignment) : SquaredNode.t :=
  match a with
  | assign_restriction r => SquaredNode.set_restriction self r
  | assign_cardinality c => SquaredNode.set_cardinality self c
  end.

(** A method call that, when it returns, leaves a state related by [R] to
    the one it started from. *)
Definition respects {A} (R : relation worker.Worker) (m : worker.M A)
  : Prop :=
  ∀ self a self', m self = worker.Returns a self' → R self self'.

(** The dictionary has grown and the axioms are the same. *)
Definition grown (self self' : worker.Worker) : Prop :=
  worker._converted self ⊆ worker._converted self'
  ∧ worker._axioms self' = worker._axioms self.

(** The calls [oracle] answers one after the other on the nodes of [l],
    from the state [self] to the state [self']. *)
Fixpoint run_all (oracle : nat → worker.M worker.OWLObject) (l : list nat)
    (self self' : worker.Worker) : Prop :=
  match l with
  | [] => self = self'
  | m :: l' =>
    ∃ e s, oracle m self = worker.Returns e s ∧ run_all oracle l' s self'
  end.

(** The operands whose conversion the builder of a node asks for before
    it returns, in the order in which it asks. *)
Definition needed (d : Diagram) (inputs : nat → list nat) (node : nat)
  : list nat :=
  let f1 := λ x, bool_decide (edge_type x = InputEdge) in
  let operands (fn : Node → bool) := incomingNodes d node f1 fn in
  let filler (fn : Node → bool) := option_list (first (operands fn)) in
  let f2 := λ x, bool_decide (node_identity x ∈ [Role; Attribute]) in
  match worker.type d node with
  | Some RoleInverseNode =>
    filler (λ x, bool_decide (node_type x = RoleNode))
  | Some RoleChainNode | Some PropertyAssertionNode =>
    omap (λ i, (λ e, other e node) <$> worker.edge d i) (inputs node)
  | Some ComplementNode =>
    filler (λ x, bool_decide
                   (node_identity x ∈ [Attribute; Concept; ValueDomain; Role]))
  | Some EnumerationNode =>
    operands (λ x, bool_decide (node_type x = IndividualNode))
  | Some IntersectionNode | Some UnionNode | Some DisjointUnionNode =>
    operands (λ x, bool_decide (node_identity x = identity d node))
  | Some DatatypeRestrictionNode =>
    filler (λ x, bool_decide (node_type x = ValueDomainNode))
    ++ operands (λ x, bool_decide (node_type x = FacetNode))
  | Some DomainRestrictionNode =>
    match first (operands f2) with
    | Some operand =>
      if decide (identity d operand = Attribute) then
        operand
        :: filler (λ x, bool_decide (node_identity x = ValueDomain))
      else if decide (identity d operand = Role) then
        operand :: filler (λ x, bool_decide (node_identity x = Concept))
      else []
    | None => []
    end
  | Some RangeRestrictionNode =>
    match first (operands f2) with
    | Some operand =>
      if decide (identity d operand = Role) then
        operand :: filler (λ x, bool_decide (node_identity x = Concept))
      else []
    | None => []
    end
  | _ => []
  end.

(** No key has left the dictionary. *)
Definition kept (self self' : worker.Worker) : Prop :=
  ∀ k, worker._converted self' !! k = None →
       worker._converted self !! k = None.

(** The nodes of [C] that were not in the dictionary are not in it. *)
Definition pending (C : nat → Prop) (self self' : worker.Worker) : Prop :=
  (∀ c, C c → worker._converted self !! c = None) →
  (∀ c, C c → worker._converted self' !! c = None).

(** [b] is an operand the builder of [a] needs, and [a] is not in the
    dictionary of [self], so that its builder would have to run. *)
Definition awaits (d : Diagram) (inputs : nat → list nat)
    (self : worker.Worker) (a b : nat) : Prop :=
  worker._converted self !! a = None ∧ b ∈ needed d inputs a.

Section Shapes.

Import worker.

(** The forms of the converted predicates, individuals and facets. *)
Definition is_class (e : OWLObject) : bool :=
  match e with
  | OWLThing | OWLNothing | OWLClass _ => true
  | _ => false
  end.

Definition is_data_property (e : OWLObject) : bool :=
  match e with
  | OWLTopDataProperty | OWLBottomDataProperty | OWLDataProperty _ => true
  | _ => false
  end.

Definition is_object_property (e : OWLObject) : bool :=
  match e with
  | OWLTopObjectProperty | OWLBottomObjectProperty | OWLObjectProperty _ =>
    true
  | _ => false
  end.

Definition is_datatype (e : OWLObject) : bool :=
  match e with
  | OWLDatatype _ => true
  | _ => false
  end.

Definition is_individual (e : OWLObject) : bool :=
  match e with
  | OWLNamedIndividual _ => true
  | OWLLiteral _ dt => is_datatype dt
  | _ => false
  end.

Definition is_facet_restriction (e : OWLObject) : bool :=
  match e with
  | OWLFacetRestriction (OWLFacet _) (OWLLiteral _ dt) => is_datatype dt
  | _ => false
  end.

Definition is_inverse (e : OWLObject) : bool :=
  match e with
  | InverseProperty p => is_object_property p
  | _ => false
  end.

Definition is_data_cardinality (e : OWLObject) : bool :=
  match e with
  | OWLDataMinCardinality _ _ _ => true
  | _ => false
  end.

Definition is_object_cardinality (e : OWLObject) : bool :=
  match e with
  | OWLObjectMinCardinality _ _ _ | OWLObjectMaxCardinality _ _ _ => true
  | _ => false
  end.

(** One or two members. *)
Definition one_or_two {A} (l : list A) : bool :=
  match l with
  | [_] | [_; _] => true
  | _ => false
  end.

Definition nonempty {A} (l : list A) : bool :=
  match l with
  | [] => false
  | _ => true
  end.

(** The form of the value [convert] gives for a node of class [t]. *)
Definition shape (t : Item) (e : OWLObject) : bool :=
  match t with
  | ConceptNode => is_class e
  | AttributeNode => is_data_property e
  | RoleNode => is_object_property e
  | ValueDomainNode => is_datatype e
  | IndividualNode => is_individual e
  | FacetNode => is_facet_restriction e
  | RoleInverseNode => is_inverse e
  | RoleChainNode =>
    match e with
    | LinkedList l =>
      nonempty l && forallb (λ x, is_object_property x || is_inverse x) l
    | _ => false
    end
  | ComplementNode => true
  | EnumerationNode =>
    match e with
    | OWLObjectOneOf l => nonempty l && forallb is_individual l
    | _ => false
    end
  | IntersectionNode =>
    match e with
    | OWLObjectIntersectionOf l | OWLDataIntersectionOf l => nonempty l
    | _ => false
    end
  | UnionNode | DisjointUnionNode =>
    match e with
    | OWLObjectUnionOf l | OWLDataUnionOf l => nonempty l
    | _ => false
    end
  | DatatypeRestrictionNode =>
    match e with
    | OWLDatatypeRestriction de l =>
      is_datatype de && nonempty l && forallb is_facet_restriction l
    | _ => false
    end
  | PropertyAssertionNode =>
    match e with
    | PyList [a; b] => is_individual a && is_individual b
    | _ => false
    end
  | DomainRestrictionNode =>
    match e with
    | OWLDataSomeValuesFrom _ _ | OWLDataAllValuesFrom _ _
    | OWLObjectHasSelf _ | OWLObjectSomeValuesFrom _ _
    | OWLObjectAllValuesFrom _ _ => true
    | OWLDataIntersectionOf l => one_or_two l && forallb is_data_cardinality l
    | OWLObjectIntersectionOf l =>
      one_or_two l && forallb is_object_cardinality l
    | _ => false
    end
  | RangeRestrictionNode =>
    match e with
    | PyNone => true
    | OWLObjectHasSelf (InverseProperty _)
    | OWLObjectSomeValuesFrom (InverseProperty _) _
    | OWLObjectAllValuesFrom (InverseProperty _) _ => true
    | OWLObjectIntersectionOf l =>
      one_or_two l && forallb is_object_cardinality l
    | _ => false
    end
  | _ => false
  end.

(** A value of the form the class of the node [k] asks for. *)
Definition shaped (d : Diagram) (k : nat) (e : OWLObject) : Prop :=
  ∃ t, type d k = Some t ∧ shape t e.

(** Every entry of the dictionary has the form the class of its node asks
    for. *)
Definition well_shaped (d : Diagram) (self : Worker) : Prop :=
  ∀ k e, _converted self !! k = Some e → shaped d k e.

End Shapes.

(** A complement node of the dictionary whose operand is a role or an
    attribute: its entry is the entry of the operand. *)
Definition complements_follow (d : Diagram) (self : worker.Worker) : Prop :=
  ∀ k operand e,
    worker.type d k = Some ComplementNode →
    incomingNodes d k
      (λ x, bool_decide (edge_type x = InputEdge))
      (λ x, bool_decide
              (node_identity x ∈ [Attribute; Concept; ValueDomain; Role]))
    = [operand] →
    identity d operand ∈ [Role; Attribute] →
    worker._converted self !! k = Some e →
    worker._converted self !! operand = Some e.

(** ** Sample diagrams *)

(** Modelled from the spec: the [Identities] attributes of the node classes
    other than [ConceptNode] are not among the sources.  A capability table
    in the style the spec describes, for the examples: predicate and
    individual nodes hold their own identities only, operator nodes hold
    [Neutral] next to the identities they can resolve to. *)
Definition graphol_Identities (t : Item) : list Identity :=
  match t with
  | ConceptNode | DomainRestrictionNode => [Concept]
  | RoleNode | RoleInverseNode | RoleChainNode => [Role]
  | AttributeNode => [Attribute]
  | ValueDomainNode | DatatypeRestrictionNode | ValueRestrictionNode =>
    [ValueDomain]
  | IndividualNode => [Individual; Value]
  | EnumerationNode | RangeRestrictionNode | IntersectionNode | UnionNode
  | DisjointUnionNode => [Neutral; Concept; ValueDomain]
  | ComplementNode => [Neutral; Concept; ValueDomain; Role; Attribute]
  | PropertyAssertionNode => [Neutral; RoleInstance; AttributeInstance]
  | _ => []
  end.

(** An enumeration of one individual, fed into a union next to a concept. *)
Definition enumeration_diagram : Diagram :=
  mkDiagram
    (list_to_map [(0, mkNode EnumerationNode Neutral);
                  (1, mkNode IndividualNode Individual);
                  (2, mkNode UnionNode Neutral);
                  (3, mkNode ConceptNode Concept)])
    [mkEdge 1 0 InputEdge; mkEdge 0 2 InputEdge; mkEdge 3 2 InputEdge].

(** A lone enumeration node that an earlier pass resolved to [Concept]. *)
Definition resolved_enumeration : Diagram :=
  mkDiagram (list_to_map [(0, mkNode EnumerationNode Concept)]) [].

(** An enumeration of two individuals and a value. *)
Definition mixed_enumeration : Diagram :=
  mkDiagram
    (list_to_map [(0, mkNode EnumerationNode Neutral);
                  (1, mkNode IndividualNode Individual);
                  (2, mkNode IndividualNode Individual);
                  (3, mkNode IndividualNode Value)])
    [mkEdge 1 0 InputEdge; mkEdge 2 0 InputEdge; mkEdge 3 0 InputEdge].

(** A property assertion over two individuals. *)
Definition role_assertion : Diagram :=
  mkDiagram
    (list_to_map [(0, mkNode PropertyAssertionNode Neutral);
                  (1, mkNode IndividualNode Individual);
                  (2, mkNode IndividualNode Individual)])
    [mkEdge 1 0 InputEdge; mkEdge 2 0 InputEdge].

(** A range restriction fed by a union that holds [Concept]. *)
Definition range_of_union : Diagram :=
  mkDiagram
    (list_to_map [(0, mkNode RangeRestrictionNode Neutral);
                  (1, mkNode UnionNode Concept)])
    [mkEdge 1 0 InputEdge].


(** The domain restriction of a role and of an attribute, with a maximum
    cardinality of 2 and no minimum. *)
Definition domain_of_role : Diagram :=
  mkDiagram
    (list_to_map [(0, mkNode DomainRestrictionNode Concept);
                  (1, mkNode RoleNode Role)])
    [mkEdge 1 0 InputEdge].

Definition domain_of_attribute : Diagram :=
  mkDiagram
    (list_to_map [(0, mkNode DomainRestrictionNode Concept);
                  (1, mkNode AttributeNode Attribute)])
    [mkEdge 1 0 InputEdge].

Definition at_most_two (node : nat) (key : string) : option nat :=
  if decide (key = "max") then Some 2 else None.

Definition always_cardinality (node : nat) : Restriction.t :=
  Restriction.Cardinality.

(** The range restriction of a role, fed into a union. *)
Definition range_in_union : Diagram :=
  mkDiagram
    (list_to_map [(0, mkNode UnionNode Neutral);
                  (1, mkNode RangeRestrictionNode Neutral);
                  (2, mkNode RoleNode Role)])
    [mkEdge 2 1 InputEdge; mkEdge 1 0 InputEdge].

(** ** Sample diagrams of the export *)

(** Modelled from the spec: [OWLShortIRI] is not among the sources; for
    the examples, the prefix and the text of the node joined by a colon. *)
Definition short_iri (prefix resource : string) : string :=
  prefix +:+ ":" +:+ resource.

(** The attributes of the nodes of the examples. *)
Definition sample_text (node : nat) : string :=
  match node with
  | 0 => "hasChild"
  | 1 => "hasParent"
  | _ => "age"
  end.

Definition no_special (node : nat) : option Special.t := None.

Definition xsd_integer (node : nat) : option Datatype.t :=
  Some Datatype.integer.

Definition no_value (node : nat) : string := "".

Definition no_facet (node : nat) : option Facet.t := None.

Definition no_inputs (node : nat) : list nat := [].

(** A role included in the complement of another role. *)
Definition disjoint_roles : Diagram :=
  mkDiagram
    (list_to_map [(0, mkNode RoleNode Role);
                  (1, mkNode RoleNode Role);
                  (2, mkNode ComplementNode Role)])
    [mkEdge 1 2 InputEdge; mkEdge 0 2 InclusionEdge].

(** The range restriction of an attribute, included in a value domain. *)
Definition range_of_attribute : Diagram :=
  mkDiagram
    (list_to_map [(0, mkNode RangeRestrictionNode ValueDomain);
                  (1, mkNode AttributeNode Attribute);
                  (2, mkNode ValueDomainNode ValueDomain)])
    [mkEdge 1 0 InputEdge; mkEdge 0 2 InclusionEdge].

(** An intersection and a union, each an operand of the other. *)
Definition mutual_operands : Diagram :=
  mkDiagram
    (list_to_map [(0, mkNode IntersectionNode Concept);
                  (1, mkNode UnionNode Concept)])
    [mkEdge 1 0 InputEdge; mkEdge 0 1 InputEdge].

(** A union the resolver left with the identity [Unknown]. *)
Definition unknown_union : Diagram :=
  mkDiagram (list_to_map [(0, mkNode UnionNode Unknown)]) [].

(** A role asserted of two individuals: the property assertion node
    reads its operands over its first and its second edge. *)
Definition asserted_role : Diagram :=
  mkDiagram
    (list_to_map [(0, mkNode PropertyAssertionNode RoleInstance);
                  (1, mkNode IndividualNode Individual);
                  (2, mkNode IndividualNode Individual);
                  (3, mkNode RoleNode Role)])
    [mkEdge 1 0 InputEdge; mkEdge 2 0 InputEdge; mkEdge 0 3 MembershipEdge].

Definition assertion_text (node : nat) : string :=
  match node with
  | 1 => "alice"
  | 2 => "bob"
  | _ => "knows"
  end.

Definition assertion_inputs (node : nat) : list nat :=
  match node with
  | 0 => [0; 1]
  | _ => []
  end.

(** * Verification *)

(** ** Sets of identities and of node references *)

Lemma computed_identity_nil : computed_identity (remove_dups []) = Neutral.
Proof. reflexivity. Qed.

Lemma computed_identity_single (l : list Identity) (X : Identity) :
  l ≠ [] → (∀ v, v ∈ l → v = X) → computed_identity (remove_dups l) = X.
Proof.
  intros Hne Hall.
  assert (Hall' : ∀ v, v ∈ remove_dups l → v = X)
    by (intros v Hv; apply Hall; by apply elem_of_remove_dups).
  pose proof (NoDup_remove_dups l) as Hnd.
  destruct (remove_dups l) as [|y [|z r]] eqn:E.
  - destruct l as [|x l']; [done|].
    assert (x ∈ remove_dups (x :: l')) as Hx
      by (apply elem_of_remove_dups; left).
    rewrite E in Hx. by apply elem_of_nil in Hx.
  - unfold computed_identity, first. cbn [head length].
    case_decide; [lia|]. apply Hall'. left.
  - exfalso. apply NoDup_cons in Hnd as [Hy _]. apply Hy.
    rewrite (Hall' y) by left.
    rewrite <- (Hall' z) by (right; left). left.
Qed.

Lemma computed_identity_many (l : list Identity) (a b : Identity) :
  a ∈ l → b ∈ l → a ≠ b → computed_identity (remove_dups l) = Unknown.
Proof.
  intros Ha Hb Hab.
  apply elem_of_remove_dups in Ha. apply elem_of_remove_dups in Hb.
  destruct (remove_dups l) as [|y [|z r]].
  - by apply elem_of_nil in Ha.
  - apply list_elem_of_singleton in Ha. apply list_elem_of_singleton in Hb.
    congruence.
  - unfold computed_identity, first. cbn [head length].
    case_decide; [done|lia].
Qed.

Lemma elem_of_add (s : list nat) (n x : nat) :
  x ∈ add s n ↔ x ∈ s ∨ x = n.
Proof.
  unfold add. case_decide as H.
  - split; [by left|]. intros [?| ->]; done.
  - rewrite elem_of_app, list_elem_of_singleton. done.
Qed.

Lemma elem_of_discard (s : list nat) (k x : nat) :
  x ∈ discard s k ↔ x ∈ s ∧ x ≠ k.
Proof. unfold discard. rewrite list_elem_of_filter. tauto. Qed.

Lemma elem_of_foldl_discard (l s : list nat) (x : nat) :
  x ∈ foldl discard s l ↔ x ∈ s ∧ x ∉ l.
Proof.
  revert s. induction l as [|k l IH]; intros s; simpl.
  - split; [intros ?; split; [done|apply not_elem_of_nil]|tauto].
  - rewrite IH, elem_of_discard, not_elem_of_cons. tauto.
Qed.

Lemma partition_fst_all {A} (p : A → bool) (l : list A) :
  (∀ x, x ∈ l → p x) → (partition p l).1 = l ∧ (partition p l).2 = [].
Proof.
  intros Hall. unfold partition; simpl. induction l as [|x l IH].
  - done.
  - assert (Hx : p x) by (apply Hall; left).
    destruct IH as [IH1 IH2]; [intros y Hy; apply Hall; by right|].
    rewrite filter_cons_True by done.
    rewrite filter_cons_False by (intros Hn; by apply Hn).
    by rewrite IH1, IH2.
Qed.

(** ** The node interface *)

Section Interface.

Variable Identities : Item → list Identity.

Lemma same_shape_refl d : same_shape d d.
Proof. by split. Qed.

Lemma same_shape_sym d d' : same_shape d d' → same_shape d' d.
Proof. intros [? ?]; split; [done|]. intros k. by symmetry. Qed.

Lemma same_shape_trans d1 d2 d3 :
  same_shape d1 d2 → same_shape d2 d3 → same_shape d1 d3.
Proof.
  intros [He1 Ht1] [He2 Ht2]. split; [congruence|].
  intros k. by rewrite Ht1.
Qed.

Lemma same_shape_dom d d' :
  same_shape d d' → dom (nodes d) = dom (nodes d').
Proof.
  intros [_ Ht]. apply set_eq. intros k. rewrite !elem_of_dom.
  specialize (Ht k).
  destruct (nodes d !! k), (nodes d' !! k); simpl in Ht; try done;
    split; intros [? ?]; done.
Qed.

Lemma same_shape_size d d' :
  same_shape d d' → size (nodes d) = size (nodes d').
Proof.
  intros H. rewrite <- !size_dom. by rewrite (same_shape_dom d d').
Qed.

Lemma holds_Some d p k :
  holds d p k ↔ ∃ x, nodes d !! k = Some x ∧ p x.
Proof.
  unfold holds. destruct (nodes d !! k) as [x|].
  - split; [eauto|]. by intros (? & [= <-] & ?).
  - split; [done|]. by intros (? & ? & ?).
Qed.

Lemma holds_by_type d d' p k :
  same_shape d d' → by_type p → holds d p k = holds d' p k.
Proof.
  intros [_ Ht] Hp. unfold holds. specialize (Ht k).
  destruct (nodes d !! k) as [x|], (nodes d' !! k) as [y|];
    simpl in Ht; try done.
  apply Hp. congruence.
Qed.

Lemma predicate_by_type : by_type (predicate Identities).
Proof. intros x y H. unfold predicate. by rewrite H. Qed.

Lemma f2_by_type : by_type f2.
Proof. intros x y H. unfold f2. by rewrite H. Qed.

Lemma f5_by_type : by_type f5.
Proof. intros x y H. unfold f5. by rewrite H. Qed.


(** *** setIdentity *)

Lemma setIdentity_edges d n v : edges (setIdentity Identities d n v) = edges d.
Proof. reflexivity. Qed.

Lemma setIdentity_lookup d n v :
  nodes (setIdentity Identities d n v) !! n
  = (λ x, mkNode (node_type x) (stored Identities (node_type x) v))
      <$> nodes d !! n.
Proof. unfold setIdentity; simpl. apply lookup_alter_eq. Qed.

Lemma setIdentity_lookup_ne d n m v :
  n ≠ m → nodes (setIdentity Identities d n v) !! m = nodes d !! m.
Proof. intros H. unfold setIdentity; simpl. by apply lookup_alter_ne. Qed.

Lemma setIdentity_type d n m v :
  node_type <$> nodes (setIdentity Identities d n v) !! m
  = node_type <$> nodes d !! m.
Proof.
  destruct (decide (n = m)) as [->|Hne].
  - rewrite setIdentity_lookup. by destruct (nodes d !! m).
  - by rewrite setIdentity_lookup_ne.
Qed.

Lemma setIdentity_same_shape d n v :
  same_shape d (setIdentity Identities d n v).
Proof. split; [done|]. intros k. by rewrite setIdentity_type. Qed.

Lemma setIdentity_identity d n v x :
  nodes d !! n = Some x →
  identity (setIdentity Identities d n v) n
  = stored Identities (node_type x) v.
Proof.
  intros H. unfold identity. by rewrite setIdentity_lookup, H.
Qed.

Lemma stored_in t v : v ∈ Identities t → stored Identities t v = v.
Proof. intros H. unfold stored. by rewrite decide_True. Qed.

Lemma stored_Unknown t : stored Identities t Unknown = Unknown.
Proof. unfold stored. by case_decide. Qed.

Lemma stored_ok t v :
  stored Identities t v ∈ Identities t
  ∨ stored Identities t v = Unknown.
Proof. unfold stored. case_decide; [by left|by right]. Qed.

(** *** incomingNodes, outgoingNodes *)

Lemma elem_of_incomingNodes d self fe fn k :
  k ∈ incomingNodes d self fe fn
  ↔ holds d fn k
    ∧ ∃ e, e ∈ edges d ∧ source e = k ∧ target e = self ∧ fe e.
Proof.
  unfold incomingNodes.
  rewrite elem_of_remove_dups, list_elem_of_filter, list_elem_of_fmap.
  split.
  - intros [Hk (e & -> & He)]. apply list_elem_of_filter in He.
    split; [done|]. exists e. tauto.
  - intros [Hk (e & He & <- & Ht & Hf)]. split; [done|].
    exists e. split; [done|]. apply list_elem_of_filter. tauto.
Qed.

Lemma elem_of_outgoingNodes d self fe fn k :
  k ∈ outgoingNodes d self fe fn
  ↔ holds d fn k
    ∧ ∃ e, e ∈ edges d ∧ target e = k ∧ source e = self ∧ fe e.
Proof.
  unfold outgoingNodes.
  rewrite elem_of_remove_dups, list_elem_of_filter, list_elem_of_fmap.
  split.
  - intros [Hk (e & -> & He)]. apply list_elem_of_filter in He.
    split; [done|]. exists e. tauto.
  - intros [Hk (e & He & <- & Ht & Hf)]. split; [done|].
    exists e. split; [done|]. apply list_elem_of_filter. tauto.
Qed.

Lemma NoDup_incomingNodes d self fe fn :
  NoDup (incomingNodes d self fe fn).
Proof. apply NoDup_remove_dups. Qed.

(** The operands collected depend on the diagram through the node filter
    only. *)
Lemma incomingNodes_ext d d' self fe fn :
  edges d = edges d' →
  (∀ k, holds d fn k = holds d' fn k) →
  incomingNodes d self fe fn = incomingNodes d' self fe fn.
Proof.
  intros He Hh. unfold incomingNodes. rewrite He. f_equal.
  apply list_filter_iff. intros k. by rewrite Hh.
Qed.

Lemma outgoingNodes_ext d d' self fe fn :
  edges d = edges d' →
  (∀ k, holds d fn k = holds d' fn k) →
  outgoingNodes d self fe fn = outgoingNodes d' self fe fn.
Proof.
  intros He Hh. unfold outgoingNodes. rewrite He. f_equal.
  apply list_filter_iff. intros k. by rewrite Hh.
Qed.

Lemma node_map_ext {B} d d' (c : Node → B) l :
  (∀ k, k ∈ l → c <$> nodes d !! k = c <$> nodes d' !! k) →
  node_map d c l = node_map d' c l.
Proof.
  intros H. unfold node_map. induction l as [|k l IH]; [done|].
  assert (IH' := IH (λ k' Hk', H k' (list_elem_of_further _ _ _ Hk'))).
  simpl. rewrite (H k) by left.
  destruct (c <$> nodes d' !! k); [f_equal|]; exact IH'.
Qed.

Lemma elem_of_node_map {B} d (c : Node → B) l v :
  v ∈ node_map d c l ↔ ∃ k x, k ∈ l ∧ nodes d !! k = Some x ∧ v = c x.
Proof.
  unfold node_map. rewrite list_elem_of_omap. split.
  - intros (k & Hk & Hc). destruct (nodes d !! k) as [x|] eqn:E; [|done].
    simpl in Hc. exists k, x. naive_solver.
  - intros (k & x & Hk & E & ->). exists k. by rewrite E.
Qed.

End Interface.

(** ** The traversal *)

Section Traversal.

Variable Identities : Item → list Identity.

(** The nodes a step of the traversal discovers. *)
Lemma bfs_fresh d p (ordered : list nat) n m :
  m ∈ remove_dups
        (filter (λ m, holds d p m ∧ m ∉ ordered) (adjacentNodes d n))
  → holds d p m ∧ m ∉ ordered.
Proof.
  rewrite elem_of_remove_dups, list_elem_of_filter. tauto.
Qed.

(** Nothing but nodes accepted by the filter is ever collected. *)
Lemma bfs_loop_accepted d p fuel queue ordered C :
  (∀ n, n ∈ ordered → holds d p n) →
  bfs_loop d p fuel queue ordered = Some C →
  ∀ n, n ∈ C → holds d p n.
Proof.
  revert queue ordered.
  induction fuel as [|fuel IH]; intros queue ordered Hord Hrun;
    destruct queue as [|q queue]; simpl in Hrun; try done.
  - injection Hrun as <-. done.
  - injection Hrun as <-. done.
  - eapply IH; [|exact Hrun].
    intros n Hn. apply elem_of_app in Hn as [Hn|Hn]; [by apply Hord|].
    by apply bfs_fresh in Hn as [? _].
Qed.

(** The nodes collected so far stay collected, in the same order. *)
Lemma bfs_loop_prefix d p fuel queue ordered C :
  bfs_loop d p fuel queue ordered = Some C → ordered `prefix_of` C.
Proof.
  revert queue ordered.
  induction fuel as [|fuel IH]; intros queue ordered Hrun;
    destruct queue as [|q queue]; simpl in Hrun; try done.
  - by injection Hrun as <-.
  - by injection Hrun as <-.
  - apply IH in Hrun. etrans; [|exact Hrun]. by apply prefix_app_r.
Qed.

(** What the traversal returns is closed under adjacency: an accepted
    neighbour of a collected node is collected. *)
Lemma bfs_loop_closed d p fuel (queue ordered C : list nat) :
  (∀ n m, n ∈ ordered → n ∉ queue → m ∈ adjacentNodes d n →
          holds d p m → m ∈ ordered) →
  bfs_loop d p fuel queue ordered = Some C →
  ∀ n m, n ∈ C → m ∈ adjacentNodes d n → holds d p m → m ∈ C.
Proof.
  revert queue ordered.
  induction fuel as [|fuel IH]; intros queue ordered Hinv Hrun;
    destruct queue as [|q queue]; simpl in Hrun; try done.
  - injection Hrun as <-. intros n m Hn. apply Hinv; [done|].
    apply not_elem_of_nil.
  - injection Hrun as <-. intros n m Hn. apply Hinv; [done|].
    apply not_elem_of_nil.
  - eapply IH; [|exact Hrun].
    intros n m Hn Hnq Hm Hh. apply elem_of_app.
    rewrite elem_of_app in Hnq.
    apply elem_of_app in Hn as [Hn|Hn]; [|tauto].
    destruct (decide (n = q)) as [->|Hne].
    + destruct (decide (m ∈ ordered)) as [Hmo|Hmo]; [by left|].
      right. rewrite elem_of_remove_dups, list_elem_of_filter. tauto.
    + left. apply (Hinv n m); try done.
      rewrite not_elem_of_cons. tauto.
Qed.

(** Every node leaves the queue at most once: a fuel as large as the
    number of nodes not collected yet plus the length of the queue lets
    the traversal run to its end. *)
Lemma bfs_loop_terminates d p fuel queue ordered :
  length queue + size (dom (nodes d) ∖ list_to_set ordered : gset nat)
    ≤ fuel →
  is_Some (bfs_loop d p fuel queue ordered).
Proof.
  revert queue ordered.
  induction fuel as [|fuel IH]; intros queue ordered Hle;
    destruct queue as [|q queue]; simpl in *; try done; [lia|].
  apply IH.
  set (fresh := remove_dups
    (filter (λ m, holds d p m ∧ m ∉ ordered) (adjacentNodes d q))).
  assert (Hsub : (list_to_set fresh : gset nat)
                 ⊆ dom (nodes d) ∖ list_to_set ordered).
  { intros m Hm. apply elem_of_list_to_set in Hm.
    apply bfs_fresh in Hm as [Hh Hno]. apply elem_of_difference. split.
    - apply holds_Some in Hh as (x & Hx & _). apply elem_of_dom. eauto.
    - by rewrite elem_of_list_to_set. }
  assert (Hsize : size (list_to_set fresh : gset nat) = length fresh).
  { apply size_list_to_set. apply NoDup_remove_dups. }
  assert (Hrest : dom (nodes d) ∖ list_to_set (ordered ++ fresh)
                  = (dom (nodes d) ∖ list_to_set ordered)
                      ∖ (list_to_set fresh : gset nat)).
  { rewrite list_to_set_app_L. apply set_eq. intros x.
    rewrite !elem_of_difference, elem_of_union. tauto. }
  rewrite Hrest, size_difference by done.
  pose proof (subseteq_size _ _ Hsub) as Hle'.
  rewrite length_app. lia.
Qed.

(** The traversal depends on the shape of the diagram only when its
    filter looks at node classes only. *)
Lemma bfs_loop_same_shape d d' p fuel queue ordered :
  same_shape d d' → by_type p →
  bfs_loop d p fuel queue ordered = bfs_loop d' p fuel queue ordered.
Proof.
  intros Hs Hp. revert queue ordered.
  induction fuel as [|fuel IH]; intros queue ordered;
    destruct queue as [|q queue]; simpl; try done.
  rewrite <- IH. unfold adjacentNodes. rewrite <- (proj1 Hs).
  assert (E : ∀ l : list nat,
    filter (λ m, holds d p m ∧ m ∉ ordered) l
    = filter (λ m, holds d' p m ∧ m ∉ ordered) l).
  { intros l. apply list_filter_iff. intros m.
    by rewrite (holds_by_type d d' p m Hs Hp). }
  by rewrite E.
Qed.

Lemma bfs_same_shape d d' p source :
  same_shape d d' → by_type p → bfs d source p = bfs d' source p.
Proof.
  intros Hs Hp. unfold bfs.
  by rewrite (same_shape_size d d' Hs),
             (bfs_loop_same_shape d d' p _ _ _ Hs Hp).
Qed.

(** From a source the filter accepts, the traversal ends, and what it
    returns holds the source, holds accepted nodes only and is closed
    under adjacency. *)
Lemma bfs_returns d p source :
  holds d p source →
  ∃ C, bfs_loop d p (size (nodes d)) [source] [source] = Some C
       ∧ bfs d source p = C
       ∧ source ∈ C
       ∧ (∀ n, n ∈ C → holds d p n)
       ∧ ∀ n m, n ∈ C → m ∈ adjacentNodes d n → holds d p m → m ∈ C.
Proof.
  intros Hsrc.
  destruct (bfs_loop_terminates d p (size (nodes d)) [source] [source])
    as [C HC].
  { assert (Hin : ({[source]} : gset nat) ⊆ dom (nodes d)).
    { apply singleton_subseteq_l, elem_of_dom.
      apply holds_Some in Hsrc as (x & Hx & _). eauto. }
    assert (E : (list_to_set [source] : gset nat) = {[source]}).
    { apply set_eq. intros x.
      by rewrite elem_of_list_to_set, list_elem_of_singleton,
                 elem_of_singleton. }
    rewrite E, size_difference, size_singleton, size_dom by done.
    pose proof (subseteq_size _ _ Hin) as Hle.
    rewrite size_singleton, size_dom in Hle. simpl. lia. }
  exists C. split; [done|]. unfold bfs. rewrite HC. split; [done|].
  split; [|split].
  - apply bfs_loop_prefix in HC as [k ->]. left.
  - eapply bfs_loop_accepted; [|exact HC].
    intros n Hn. apply list_elem_of_singleton in Hn as ->. done.
  - eapply bfs_loop_closed; [|exact HC].
    intros n m Hn Hnq. apply list_elem_of_singleton in Hn as ->.
    destruct Hnq. left.
Qed.

Lemma collection_returns d node :
  holds d (predicate Identities) node →
  node ∈ collection Identities d node
  ∧ ∀ n, n ∈ collection Identities d node →
         holds d (predicate Identities) n.
Proof.
  intros H.
  destruct (bfs_returns d _ node H) as (C & _ & E & Hs & Hall & _).
  unfold collection. by rewrite E.
Qed.

End Traversal.

(** ** One iteration of the special-case loop *)

Lemma special_iff t :
  special t
  ↔ t = EnumerationNode ∨ t = RangeRestrictionNode
    ∨ t = PropertyAssertionNode.
Proof. unfold special. rewrite !elem_of_cons, elem_of_nil. tauto. Qed.

Section Step.

Variable Identities : Item → list Identity.

Lemma special_case_eq p node :
  special_case Identities p node =
  match node_type <$> nodes (diagram p) !! node with
  | Some t =>
    if decide (special t) then
      let d' := setIdentity Identities (diagram p) node
                  (rule_identity Identities (diagram p) t node) in
      mkPass d'
        (foldl discard
           (if decide (t ≠ PropertyAssertionNode
                       ∧ identity d' node ≠ Neutral)
            then add (strong p) node else strong p)
           (rule_operands Identities (diagram p) t node))
        (if decide (t = PropertyAssertionNode)
         then add (excluded p) node else excluded p)
    else p
  | None => p
  end.
Proof.
  unfold special_case.
  destruct (node_type <$> nodes (diagram p) !! node) as [t|]; [|done].
  assert (He : special EnumerationNode) by (apply special_iff; tauto).
  assert (Hr : special RangeRestrictionNode)
    by (apply special_iff; tauto).
  assert (Hp : special PropertyAssertionNode)
    by (apply special_iff; tauto).
  destruct t;
    try (rewrite decide_False; [done|]; rewrite special_iff;
         intros [?|[?|?]]; discriminate).
  - unfold enumeration_case. cbv zeta. rewrite (decide_True _ _ He).
    rewrite (decide_False (P := EnumerationNode = PropertyAssertionNode))
      by done.
    f_equal. f_equal. simpl.
    repeat case_decide; try done; exfalso; intuition congruence.
  - unfold range_restriction_case. cbv zeta. rewrite (decide_True _ _ Hr).
    rewrite (decide_False
               (P := RangeRestrictionNode = PropertyAssertionNode))
      by done.
    f_equal. f_equal. simpl.
    repeat case_decide; try done; exfalso; intuition congruence.
  - unfold property_assertion_case. cbv zeta.
    rewrite (decide_True _ _ Hp).
    rewrite (decide_True
               (P := PropertyAssertionNode = PropertyAssertionNode))
      by done.
    done.
Qed.

End Step.

Section StepFacts.

Variable Identities : Item → list Identity.

Lemma special_case_same_shape p node :
  same_shape (diagram p) (diagram (special_case Identities p node)).
Proof.
  rewrite special_case_eq.
  destruct (node_type <$> nodes (diagram p) !! node) as [t|];
    [|apply same_shape_refl].
  case_decide; [|apply same_shape_refl]. apply setIdentity_same_shape.
Qed.

Lemma special_case_edges p node :
  edges (diagram (special_case Identities p node)) = edges (diagram p).
Proof. symmetry. apply special_case_same_shape. Qed.

Lemma special_case_lookup_ne p node k :
  k ≠ node →
  nodes (diagram (special_case Identities p node)) !! k
  = nodes (diagram p) !! k.
Proof.
  intros Hne. rewrite special_case_eq.
  destruct (node_type <$> nodes (diagram p) !! node) as [t|]; [|done].
  case_decide; [|done]. simpl. by apply setIdentity_lookup_ne.
Qed.

Lemma special_case_lookup p node x :
  nodes (diagram p) !! node = Some x → special (node_type x) →
  nodes (diagram (special_case Identities p node)) !! node
  = Some (assigned Identities
            (rule_identity Identities (diagram p) (node_type x) node) x).
Proof.
  intros Hx Hs. rewrite special_case_eq, Hx.
  cbn [fmap option_fmap option_map].
  rewrite decide_True by done. cbn [diagram].
  by rewrite setIdentity_lookup, Hx.
Qed.

Lemma special_case_plain p node x :
  nodes (diagram p) !! node = Some x → ¬ special (node_type x) →
  special_case Identities p node = p.
Proof.
  intros Hx Hs. rewrite special_case_eq, Hx. simpl.
  by rewrite decide_False.
Qed.

Lemma special_case_missing p node :
  nodes (diagram p) !! node = None → special_case Identities p node = p.
Proof. intros Hx. by rewrite special_case_eq, Hx. Qed.

(** A node whose class has no case is never written by the loop. *)
Lemma special_case_lookup_plain p node k y :
  nodes (diagram p) !! k = Some y → ¬ special (node_type y) →
  nodes (diagram (special_case Identities p node)) !! k = Some y.
Proof.
  intros Hy Hs. destruct (decide (k = node)) as [->|Hne].
  - by rewrite (special_case_plain p node y).
  - by rewrite special_case_lookup_ne.
Qed.

(** What one iteration may add to the working sets. *)
Lemma special_case_strong p node k :
  k ∈ strong (special_case Identities p node) →
  k ∈ strong p
  ∨ k = node
    ∧ ∃ x, nodes (diagram p) !! node = Some x
           ∧ node_type x ∈ [EnumerationNode; RangeRestrictionNode]
           ∧ node ∉ rule_operands Identities (diagram p) (node_type x) node.
Proof.
  rewrite special_case_eq.
  destruct (nodes (diagram p) !! node) as [x|] eqn:Hx; simpl; [|by left].
  case_decide as Hs; [|by left]. simpl.
  rewrite elem_of_foldl_discard. intros [Hk Hno].
  case_decide as Ht.
  - apply elem_of_add in Hk as [Hk| ->]; [by left|]. right.
    split; [done|]. exists x. split; [done|]. split; [|done].
    unfold special in Hs. destruct Ht as [Ht _].
    rewrite !elem_of_cons in *. tauto.
  - by left.
Qed.

Lemma special_case_strong_keep p node k x :
  nodes (diagram p) !! node = Some x →
  k ∈ strong p →
  k ∉ rule_operands Identities (diagram p) (node_type x) node →
  k ∈ strong (special_case Identities p node).
Proof.
  intros Hx Hk Hno. rewrite special_case_eq, Hx. simpl.
  case_decide as Hs; [|done]. simpl.
  rewrite elem_of_foldl_discard. split; [|done].
  case_decide; [|done]. apply elem_of_add. by left.
Qed.

Lemma special_case_excluded p node k :
  k ∈ excluded (special_case Identities p node)
  ↔ k ∈ excluded p
    ∨ k = node
      ∧ node_type <$> nodes (diagram p) !! node
        = Some PropertyAssertionNode.
Proof.
  rewrite special_case_eq.
  destruct (node_type <$> nodes (diagram p) !! node) as [t|] eqn:Ht.
  - assert (Hp : special PropertyAssertionNode)
      by (apply special_iff; tauto).
    case_decide as Hs.
    + simpl. case_decide as Hpa.
      * rewrite elem_of_add, Hpa. intuition.
      * split; [by left|]. intros [?|[_ [= ?]]]; done.
    + split; [by left|]. intros [?|[_ [= E]]]; [done|].
      rewrite E in Hs. done.
  - split; [by left|]. intros [?|[_ ?]]; done.
Qed.

(** *** Settled nodes *)

Lemma setIdentity_settled d n v k :
  settled Identities d k → settled Identities (setIdentity Identities d n v) k.
Proof.
  intros (x & Hx & Hok). destruct (decide (n = k)) as [->|Hne].
  - eexists. rewrite setIdentity_lookup, Hx. split; [done|]. simpl.
    apply stored_ok.
  - exists x. by rewrite setIdentity_lookup_ne.
Qed.

Lemma setIdentity_settles d n v :
  is_Some (nodes d !! n) →
  settled Identities (setIdentity Identities d n v) n.
Proof.
  intros [x Hx]. eexists. rewrite setIdentity_lookup, Hx.
  split; [done|]. simpl. apply stored_ok.
Qed.

Lemma special_case_settled p node k :
  settled Identities (diagram p) k →
  settled Identities (diagram (special_case Identities p node)) k.
Proof.
  intros H. rewrite special_case_eq.
  destruct (node_type <$> nodes (diagram p) !! node) as [t|]; [|done].
  case_decide; [|done]. simpl. by apply setIdentity_settled.
Qed.

Lemma special_case_settles p node x :
  nodes (diagram p) !! node = Some x → special (node_type x) →
  settled Identities (diagram (special_case Identities p node)) node.
Proof.
  intros Hx Hs. eexists. rewrite (special_case_lookup p node x) by done.
  split; [done|]. simpl. apply stored_ok.
Qed.

Lemma special_case_sets_settled p node :
  sets_settled Identities p →
  sets_settled Identities (special_case Identities p node).
Proof.
  intros Hinv k Hk.
  assert (Hspecial : ∀ x, nodes (diagram p) !! node = Some x →
            node_type x ∈ [EnumerationNode; RangeRestrictionNode;
                           PropertyAssertionNode] →
            settled Identities
              (diagram (special_case Identities p node)) node)
    by (intros x Hx Hs; by apply (special_case_settles p node x)).
  destruct Hk as [Hk|Hk].
  - apply special_case_strong in Hk as [Hk|(-> & x & Hx & Ht & _)].
    + apply special_case_settled, Hinv. by left.
    + apply (Hspecial x Hx). rewrite !elem_of_cons in *. tauto.
  - apply special_case_excluded in Hk as [Hk|[-> Ht]].
    + apply special_case_settled, Hinv. by right.
    + destruct (nodes (diagram p) !! node) as [x|] eqn:Hx; [|done].
      apply (Hspecial x eq_refl). simpl in Ht. injection Ht as ->.
      rewrite !elem_of_cons. tauto.
Qed.

Lemma special_cases_sets_settled l p :
  sets_settled Identities p →
  sets_settled Identities (foldl (special_case Identities) p l).
Proof.
  revert p. induction l as [|n l IH]; intros p Hp; simpl; [done|].
  by apply IH, special_case_sets_settled.
Qed.

Lemma special_cases_settled l p k :
  settled Identities (diagram p) k →
  settled Identities (diagram (foldl (special_case Identities) p l)) k.
Proof.
  revert p. induction l as [|n l IH]; intros p Hp; simpl; [done|].
  by apply IH, special_case_settled.
Qed.

(** *** The loop as a whole *)

Lemma special_cases_same_shape l p :
  same_shape (diagram p) (diagram (foldl (special_case Identities) p l)).
Proof.
  revert p. induction l as [|n l IH]; intros p; simpl.
  - apply same_shape_refl.
  - eapply same_shape_trans; [apply special_case_same_shape|apply IH].
Qed.

(** Only nodes of the list are written. *)
Lemma special_cases_lookup_notin l p k :
  k ∉ l →
  nodes (diagram (foldl (special_case Identities) p l)) !! k
  = nodes (diagram p) !! k.
Proof.
  revert p. induction l as [|n l IH]; intros p Hk; simpl; [done|].
  apply not_elem_of_cons in Hk as [Hne Hk].
  by rewrite IH, special_case_lookup_ne.
Qed.

Lemma special_cases_lookup_plain l p k y :
  nodes (diagram p) !! k = Some y → ¬ special (node_type y) →
  nodes (diagram (foldl (special_case Identities) p l)) !! k = Some y.
Proof.
  revert p. induction l as [|n l IH]; intros p Hy Hs; simpl; [done|].
  apply IH; [|done]. by apply special_case_lookup_plain.
Qed.

(** *** The final assignment *)

Lemma assigned_idemp v x :
  assigned Identities v (assigned Identities v x) = assigned Identities v x.
Proof. done. Qed.

Lemma assign_all_lookup targets d v k :
  nodes (assign_all Identities d targets v) !! k
  = if decide (k ∈ targets)
    then assigned Identities v <$> nodes d !! k
    else nodes d !! k.
Proof.
  unfold assign_all. revert d.
  induction targets as [|n l IH]; intros d; cbn [foldl].
  - rewrite decide_False; [done|]. apply not_elem_of_nil.
  - rewrite IH. destruct (decide (k = n)) as [->|Hne].
    + rewrite setIdentity_lookup. fold (assigned Identities v).
      rewrite (decide_True (P := n ∈ n :: l)) by left.
      case_decide; [|done].
      destruct (nodes d !! n); done.
    + rewrite setIdentity_lookup_ne by done.
      destruct (decide (k ∈ l)) as [Hk|Hk].
      * rewrite decide_True; [done|]. by right.
      * rewrite decide_False; [done|]. rewrite not_elem_of_cons. done.
Qed.

Lemma assign_all_edges targets d v :
  edges (assign_all Identities d targets v) = edges d.
Proof.
  unfold assign_all. revert d.
  induction targets as [|n l IH]; intros d; simpl; [done|]. by rewrite IH.
Qed.

Lemma assign_all_same_shape targets d v :
  same_shape d (assign_all Identities d targets v).
Proof.
  split; [by rewrite assign_all_edges|]. intros k.
  rewrite assign_all_lookup. case_decide; [|done].
  by destruct (nodes d !! k).
Qed.

Lemma assign_all_settled targets d v k :
  settled Identities d k →
  settled Identities (assign_all Identities d targets v) k.
Proof.
  intros (x & Hx & Hok). unfold settled.
  rewrite assign_all_lookup, Hx. case_decide.
  - eexists. split; [done|]. simpl. apply stored_ok.
  - eauto.
Qed.

Lemma assign_all_settles targets d v k :
  k ∈ targets → is_Some (nodes d !! k) →
  settled Identities (assign_all Identities d targets v) k.
Proof.
  intros Hk [x Hx]. unfold settled.
  rewrite assign_all_lookup, Hx, decide_True by done.
  eexists. split; [done|]. simpl. apply stored_ok.
Qed.

End StepFacts.

(** ** The pass as a whole *)

Section Pass.

Variable Identities : Item → list Identity.

Lemma weak_strong0 d node :
  holds d (predicate Identities) node →
  weak Identities d node = remove_dups (collection Identities d node)
  ∧ strong0 Identities d node = [].
Proof.
  intros Hg. destruct (collection_returns Identities d node Hg) as [_ Hall].
  unfold weak, strong0.
  destruct (partition_fst_all (holds d (predicate Identities))
              (collection Identities d node) Hall) as [-> ->].
  done.
Qed.

Lemma elem_of_weak d node n :
  holds d (predicate Identities) node →
  n ∈ weak Identities d node ↔ n ∈ collection Identities d node.
Proof.
  intros Hg. destruct (weak_strong0 d node Hg) as [-> _].
  apply elem_of_remove_dups.
Qed.

Lemma NoDup_weak d node : NoDup (weak Identities d node).
Proof. apply NoDup_remove_dups. Qed.

Lemma weak_accepted d node n :
  holds d (predicate Identities) node →
  n ∈ weak Identities d node → holds d (predicate Identities) n.
Proof.
  intros Hg Hn. apply elem_of_weak in Hn; [|done].
  by apply (collection_returns Identities d node Hg).
Qed.

Lemma elem_of_remaining l p n :
  n ∈ remaining l p ↔ n ∈ l ∧ (n ∉ strong p) ∧ (n ∉ excluded p).
Proof.
  unfold remaining. rewrite !list_elem_of_difference. tauto.
Qed.

Lemma doNodeIdentification_guarded d node :
  holds d (predicate Identities) node →
  doNodeIdentification Identities d node
  = assign_all Identities
      (diagram (special_cases Identities d node))
      (remaining (weak Identities d node)
                 (special_cases Identities d node))
      (aggregate (special_cases Identities d node)).
Proof.
  intros Hg. unfold doNodeIdentification.
  destruct (holds d (predicate Identities) node); done.
Qed.

Lemma doNodeIdentification_unguarded d node :
  ¬ holds d (predicate Identities) node →
  doNodeIdentification Identities d node = d.
Proof.
  intros Hg. unfold doNodeIdentification.
  destruct (holds d (predicate Identities) node); [|done].
  by destruct Hg.
Qed.

Lemma doNodeIdentification_same_shape d node :
  same_shape d (doNodeIdentification Identities d node).
Proof.
  destruct (decide (holds d (predicate Identities) node)) as [Hg|Hg].
  - rewrite doNodeIdentification_guarded by done.
    eapply same_shape_trans; [|apply assign_all_same_shape].
    apply (special_cases_same_shape Identities _
             (mkPass d (strong0 Identities d node) [])).
  - rewrite doNodeIdentification_unguarded by done. apply same_shape_refl.
Qed.

(** Nothing outside the weak set is written. *)
Lemma doNodeIdentification_lookup_notin d node k :
  k ∉ weak Identities d node →
  nodes (doNodeIdentification Identities d node) !! k = nodes d !! k.
Proof.
  intros Hk.
  destruct (decide (holds d (predicate Identities) node)) as [Hg|Hg].
  - rewrite doNodeIdentification_guarded by done.
    rewrite assign_all_lookup, decide_False.
    + unfold special_cases. by rewrite special_cases_lookup_notin.
    + rewrite elem_of_remaining. tauto.
  - by rewrite doNodeIdentification_unguarded.
Qed.

Lemma not_accepted d k x :
  nodes d !! k = Some x → Neutral ∉ Identities (node_type x) →
  ¬ holds d (predicate Identities) k.
Proof.
  intros Hx Hn Hh. apply holds_Some in Hh as (y & Hy & Hp).
  rewrite Hx in Hy. injection Hy as <-.
  unfold predicate in Hp. by apply bool_decide_unpack in Hp.
Qed.

End Pass.

(** ** Results *)

(** C1 (as amended).  The collected set is split by the capability
    predicate [Neutral in identities()], the one handed to [partition], and
    not by the current identity: [weak] receives the collected nodes whose
    capability set contains [Neutral], [strong] those whose capability set
    lacks it, and a collected node lies in exactly one of the two. *)
Theorem partition_by_capability (Identities : Item → list Identity)
    (d : Diagram) (node n : nat) :
  n ∈ collection Identities d node →
  (n ∈ weak Identities d node ↔ holds d (predicate Identities) n)
  ∧ (n ∈ strong0 Identities d node ↔ ¬ holds d (predicate Identities) n)
  ∧ (n ∈ weak Identities d node ↔ n ∉ strong0 Identities d node).
Proof.
  intros Hn.
  assert (Hw : n ∈ weak Identities d node
               ↔ holds d (predicate Identities) n).
  { unfold weak, partition. cbn [fst].
    rewrite elem_of_remove_dups, list_elem_of_filter. tauto. }
  assert (Hs : n ∈ strong0 Identities d node
               ↔ ¬ holds d (predicate Identities) n).
  { unfold strong0, partition. cbn [snd].
    rewrite elem_of_remove_dups, list_elem_of_filter. tauto. }
  split; [done|]. split; [done|].
  rewrite Hw, Hs.
  destruct (holds d (predicate Identities) n); simpl; tauto.
Qed.

(** C6.  After the pass every node it visited holds an identity that
    belongs to the capability set of its class, or [Unknown]. *)
Theorem visited_nodes_settled (Identities : Item → list Identity)
    (d : Diagram) (node n : nat) :
  holds d (predicate Identities) node →
  n ∈ collection Identities d node →
  ∃ x, nodes (doNodeIdentification Identities d node) !! n = Some x
       ∧ (node_identity x ∈ Identities (node_type x)
          ∨ node_identity x = Unknown).
Proof.
  intros Hg Hn. change (settled Identities
                          (doNodeIdentification Identities d node) n).
  rewrite doNodeIdentification_guarded by done.
  set (p := special_cases Identities d node).
  assert (Hinv : sets_settled Identities p).
  { apply special_cases_sets_settled. intros k [Hk|Hk]; simpl in Hk.
    - destruct (weak_strong0 Identities d node Hg) as [_ E].
      rewrite E in Hk. by apply elem_of_nil in Hk.
    - by apply elem_of_nil in Hk. }
  apply (elem_of_weak Identities d node n Hg) in Hn.
  destruct (decide (n ∈ remaining (weak Identities d node) p)) as [Hr|Hr].
  - apply assign_all_settles; [done|].
    assert (Hn' := weak_accepted Identities d node n Hg Hn).
    apply holds_Some in Hn' as (x & Hx & _).
    pose proof (special_cases_same_shape Identities
                  (weak Identities d node)
                  (mkPass d (strong0 Identities d node) [])) as [_ Ht].
    specialize (Ht n). simpl in Ht. rewrite Hx in Ht.
    fold (special_cases Identities d node) in Ht. fold p in Ht.
    destruct (nodes (diagram p) !! n); [eauto|done].
  - apply assign_all_settled, Hinv.
    rewrite elem_of_remaining in Hr.
    destruct (decide (n ∈ strong p)); [by left|].
    destruct (decide (n ∈ excluded p)); [by right|]. tauto.
Qed.

(** C7.  The pass writes identities only: edges, node keys and node
    classes are those of the diagram it started from; a node whose
    capability set lacks [Neutral] is not collected and keeps its identity;
    and the pass does nothing at all from a start node whose capability set
    lacks [Neutral]. *)
Theorem writes_identities_only (Identities : Item → list Identity)
    (d : Diagram) (node : nat) :
  edges (doNodeIdentification Identities d node) = edges d
  ∧ dom (nodes (doNodeIdentification Identities d node)) = dom (nodes d)
  ∧ (∀ k, node_type <$> nodes (doNodeIdentification Identities d node) !! k
          = node_type <$> nodes d !! k)
  ∧ (∀ k x, nodes d !! k = Some x →
            Neutral ∉ Identities (node_type x) →
            (holds d (predicate Identities) node →
             k ∉ collection Identities d node)
            ∧ nodes (doNodeIdentification Identities d node) !! k = Some x)
  ∧ (¬ holds d (predicate Identities) node →
     doNodeIdentification Identities d node = d).
Proof.
  pose proof (doNodeIdentification_same_shape Identities d node) as Hs.
  split; [symmetry; apply Hs|].
  split; [symmetry; by apply same_shape_dom|].
  split; [intros k; symmetry; apply Hs|].
  split; [|apply doNodeIdentification_unguarded].
  intros k x Hx Hcap.
  pose proof (not_accepted Identities d k x Hx Hcap) as Hno.
  split.
  - intros Hg Hk. apply Hno.
    by apply (collection_returns Identities d node Hg).
  - rewrite doNodeIdentification_lookup_notin; [done|].
    intros Hk. apply Hno. unfold weak, partition in Hk. cbn [fst] in Hk.
    rewrite elem_of_remove_dups, list_elem_of_filter in Hk. tauto.
Qed.

(** C2.  The aggregate is [Neutral] when [strong], as the special cases
    left it, is empty, the common identity when its members all hold the
    same one, and [Unknown] when two of them differ; it is assigned to the
    nodes of [weak - strong - excluded] and to no other node. *)
Theorem final_computation (Identities : Item → list Identity)
    (d : Diagram) (node : nat) :
  holds d (predicate Identities) node →
  let p := special_cases Identities d node in
  let targets := remaining (weak Identities d node) p in
  let d' := doNodeIdentification Identities d node in
  (strong p = [] → aggregate p = Neutral)
  ∧ (∀ X, strong p ≠ [] →
          (∀ n, n ∈ strong p → identity (diagram p) n = X) →
          aggregate p = X)
  ∧ (∀ n m, n ∈ strong p → m ∈ strong p →
            identity (diagram p) n ≠ identity (diagram p) m →
            aggregate p = Unknown)
  ∧ (∀ n, n ∈ targets
          ↔ n ∈ weak Identities d node
            ∧ (n ∉ strong p) ∧ (n ∉ excluded p))
  ∧ (∀ n, n ∈ targets →
          nodes d' !! n
          = assigned Identities (aggregate p) <$> nodes (diagram p) !! n)
  ∧ (∀ n x, n ∈ targets → nodes (diagram p) !! n = Some x →
            aggregate p ∈ Identities (node_type x) →
            identity d' n = aggregate p)
  ∧ (∀ n, n ∉ targets → nodes d' !! n = nodes (diagram p) !! n).
Proof.
  intros Hg p targets d'.
  split; [|split; [|split; [|split; [|split; [|split]]]]].
  - intros E. unfold aggregate. by rewrite E.
  - intros X Hne Hall. unfold aggregate. apply computed_identity_single.
    + destruct (strong p); [done|]. done.
    + intros v Hv. apply list_elem_of_fmap in Hv as (n & -> & Hn).
      by apply Hall.
  - intros n m Hn Hm Hnm. unfold aggregate.
    apply (computed_identity_many _ (identity (diagram p) n)
             (identity (diagram p) m)); [| |done];
      by apply list_elem_of_fmap_2.
  - intros n. apply elem_of_remaining.
  - intros n Hn. unfold d'. rewrite doNodeIdentification_guarded by done.
    rewrite assign_all_lookup. by rewrite decide_True.
  - intros n x Hn Hx Hin. unfold d', identity.
    rewrite doNodeIdentification_guarded by done.
    rewrite assign_all_lookup, decide_True by done.
    fold p. rewrite Hx. simpl. by apply stored_in.
  - intros n Hn. unfold d'. rewrite doNodeIdentification_guarded by done.
    rewrite assign_all_lookup. by rewrite decide_False.
Qed.

(** ** What the special cases read *)

Section Reads.

Variable Identities : Item → list Identity.
Variable M : nat → Prop.
Variables d d' : Diagram.
Hypothesis Hagree : agree M d d'.
Hypothesis Hunread : unread Identities M d.

Lemma agree_operand k y :
  nodes d !! k = Some y →
  node_type y ∈ operand_classes ∨ Neutral ∉ Identities (node_type y) →
  nodes d' !! k = Some y.
Proof using Hagree Hunread.
  intros Hy Hcls. rewrite <- (proj2 Hagree k); [done|].
  intros HM. destruct (Hunread k y HM Hy) as [Hcap Hno]. tauto.
Qed.

Lemma agree_holds_f4 k :
  holds d (f4 Identities) k = holds d' (f4 Identities) k.
Proof using Hagree Hunread.
  unfold holds. destruct (nodes d !! k) as [y|] eqn:Hy.
  - destruct (decide (Neutral ∈ Identities (node_type y))) as [Hc|Hc].
    + pose proof (proj2 (proj1 Hagree) k) as Ht. rewrite Hy in Ht.
      destruct (nodes d' !! k) as [y'|]; [|done].
      simpl in Ht. injection Ht as Ht. unfold f4.
      rewrite (bool_decide_eq_false_2 (Neutral ∉ Identities (node_type y)))
        by tauto.
      rewrite (bool_decide_eq_false_2
                 (Neutral ∉ Identities (node_type y')))
        by (rewrite <- Ht; tauto).
      by rewrite !andb_false_r.
    + rewrite (agree_operand k y Hy); [done|by right].
  - pose proof (proj2 (proj1 Hagree) k) as Ht. rewrite Hy in Ht.
    by destruct (nodes d' !! k).
Qed.

Lemma agree_holds_by_type p k :
  by_type p → holds d p k = holds d' p k.
Proof using Hagree. apply holds_by_type, Hagree. Qed.

Lemma agree_node_map {B} (c : Node → B) (l : list nat) :
  (∀ k y, k ∈ l → nodes d !! k = Some y →
          node_type y ∈ operand_classes
          ∨ Neutral ∉ Identities (node_type y)) →
  (∀ k, k ∈ l → is_Some (nodes d !! k)) →
  node_map d c l = node_map d' c l.
Proof using Hagree Hunread.
  intros Hcls Hex. apply node_map_ext. intros k Hk.
  destruct (Hex k Hk) as [y Hy].
  by rewrite Hy, (agree_operand k y Hy (Hcls k y Hk Hy)).
Qed.

Lemma holds_f2_class k y :
  holds d f2 k → nodes d !! k = Some y → node_type y ∈ operand_classes.
Proof.
  intros Hh Hy. unfold holds in Hh. rewrite Hy in Hh.
  apply bool_decide_unpack in Hh. rewrite Hh.
  unfold operand_classes. rewrite !elem_of_cons. tauto.
Qed.

Lemma holds_f5_class k y :
  holds d f5 k → nodes d !! k = Some y → node_type y ∈ operand_classes.
Proof.
  intros Hh Hy. unfold holds in Hh. rewrite Hy in Hh.
  apply bool_decide_unpack in Hh.
  unfold operand_classes. rewrite !elem_of_cons in *. tauto.
Qed.

Lemma holds_f4_incapable k y :
  holds d (f4 Identities) k → nodes d !! k = Some y →
  Neutral ∉ Identities (node_type y).
Proof.
  intros Hh Hy. unfold holds in Hh. rewrite Hy in Hh.
  apply andb_True in Hh as [_ Hh]. by apply bool_decide_unpack in Hh.
Qed.

Lemma agree_incoming_f2 node :
  incomingNodes d node f1 f2 = incomingNodes d' node f1 f2.
Proof using Hagree.
  apply incomingNodes_ext; [apply Hagree|].
  intros k. apply agree_holds_by_type, f2_by_type.
Qed.

Lemma agree_incoming_f4 node :
  incomingNodes d node f1 (f4 Identities)
  = incomingNodes d' node f1 (f4 Identities).
Proof using Hagree Hunread.
  apply incomingNodes_ext; [apply Hagree|]. apply agree_holds_f4.
Qed.

Lemma agree_outgoing_f5 node :
  outgoingNodes d node f3 f5 = outgoingNodes d' node f3 f5.
Proof using Hagree.
  apply outgoingNodes_ext; [apply Hagree|].
  intros k. apply agree_holds_by_type, f5_by_type.
Qed.

Lemma agree_map_incoming_f2 {B} (c : Node → B) node :
  node_map d c (incomingNodes d node f1 f2)
  = node_map d' c (incomingNodes d node f1 f2).
Proof using Hagree Hunread.
  apply agree_node_map.
  - intros k y Hk Hy. left.
    apply elem_of_incomingNodes in Hk as [Hk _].
    by apply (holds_f2_class k y).
  - intros k Hk. apply elem_of_incomingNodes in Hk as [Hk _].
    apply holds_Some in Hk as (y & Hy & _). eauto.
Qed.

Lemma agree_map_incoming_f4 {B} (c : Node → B) node :
  node_map d c (incomingNodes d node f1 (f4 Identities))
  = node_map d' c (incomingNodes d node f1 (f4 Identities)).
Proof using Hagree Hunread.
  apply agree_node_map.
  - intros k y Hk Hy. right.
    apply elem_of_incomingNodes in Hk as [Hk _].
    by apply (holds_f4_incapable k y).
  - intros k Hk. apply elem_of_incomingNodes in Hk as [Hk _].
    apply holds_Some in Hk as (y & Hy & _). eauto.
Qed.

Lemma agree_map_outgoing_f5 {B} (c : Node → B) node :
  node_map d c (outgoingNodes d node f3 f5)
  = node_map d' c (outgoingNodes d node f3 f5).
Proof using Hagree Hunread.
  apply agree_node_map.
  - intros k y Hk Hy. left.
    apply elem_of_outgoingNodes in Hk as [Hk _].
    by apply (holds_f5_class k y).
  - intros k Hk. apply elem_of_outgoingNodes in Hk as [Hk _].
    apply holds_Some in Hk as (y & Hy & _). eauto.
Qed.

(** The special cases compute the same on both diagrams. *)
Lemma rule_agree t node :
  rule_operands Identities d t node = rule_operands Identities d' t node
  ∧ rule_identity Identities d t node = rule_identity Identities d' t node.
Proof using Hagree Hunread.
  destruct t; try done; unfold rule_operands, rule_identity.
  - rewrite <- agree_incoming_f2, <- agree_map_incoming_f2. done.
  - rewrite <- agree_incoming_f4, <- agree_map_incoming_f4. done.
  - change f6 with f2.
    rewrite <- agree_incoming_f2, <- agree_outgoing_f5.
    rewrite <- agree_map_outgoing_f5, <- agree_map_incoming_f2. done.
Qed.

End Reads.

(** ** Two passes side by side *)

Section Lockstep.

Variable Identities : Item → list Identity.

Lemma Diagram_eq (d d' : Diagram) :
  nodes d = nodes d' → edges d = edges d' → d = d'.
Proof. destruct d, d'; simpl; congruence. Qed.

Lemma unread_same_shape M d d' :
  same_shape d d' → unread Identities M d → unread Identities M d'.
Proof.
  intros [_ Ht] Hu k y' HM Hy'. specialize (Ht k). rewrite Hy' in Ht.
  destruct (nodes d !! k) as [y|] eqn:Hy; [|done].
  simpl in Ht. injection Ht as Ht. rewrite <- Ht. by apply (Hu k y).
Qed.

Lemma assigned_by_type v (o o' : option Node) :
  node_type <$> o = node_type <$> o' →
  assigned Identities v <$> o = assigned Identities v <$> o'.
Proof.
  destruct o as [x|], o' as [x'|]; simpl; try done.
  intros [= Ht]. unfold assigned. by rewrite Ht.
Qed.

Lemma special_case_lockstep C p p' node :
  unread Identities (λ k, k ∈ C) (diagram p) →
  node ∈ C →
  lockstep C p p' →
  lockstep C (special_case Identities p node)
             (special_case Identities p' node).
Proof.
  intros Hu HC (Hst & Hex & Hag & Hmem).
  pose proof (proj1 Hag) as Hshape.
  pose proof (proj2 Hshape node) as Ht.
  rewrite !special_case_eq, <- Ht, <- Hst, <- Hex.
  destruct (node_type <$> nodes (diagram p) !! node) as [t|] eqn:Etype;
    [|done].
  case_decide as Hs; [|done].
  destruct (rule_agree Identities _ _ _ Hag Hu t node) as [<- <-].
  set (v := rule_identity Identities (diagram p) t node).
  assert (Hnode : nodes (setIdentity Identities (diagram p) node v) !! node
                = nodes (setIdentity Identities (diagram p') node v)
                    !! node).
  { rewrite !setIdentity_lookup.
    apply (assigned_by_type v). by rewrite <- Ht, Etype. }
  assert (Hid : identity (setIdentity Identities (diagram p) node v) node
              = identity (setIdentity Identities (diagram p') node v) node)
    by (unfold identity; by rewrite Hnode).
  cbv zeta. rewrite <- Hid.
  split; [done|]. split; [done|]. cbn [diagram strong excluded]. split.
  - split.
    + eapply same_shape_trans;
        [apply same_shape_sym, setIdentity_same_shape|].
      eapply same_shape_trans; [exact Hshape|].
      apply setIdentity_same_shape.
    + intros k Hk. assert (node ≠ k) by congruence.
      rewrite !setIdentity_lookup_ne by done. by apply Hag.
  - intros k Hk. destruct (decide (k = node)) as [->|Hne]; [done|].
    rewrite !setIdentity_lookup_ne by done. apply Hmem.
    destruct Hk as [Hk|Hk].
    + left. apply elem_of_foldl_discard in Hk as [Hk _].
      case_decide; [|done]. apply elem_of_add in Hk. tauto.
    + case_decide; [|by right]. apply elem_of_add in Hk. tauto.
Qed.

Lemma special_cases_lockstep C l p p' :
  unread Identities (λ k, k ∈ C) (diagram p) →
  (∀ n, n ∈ l → n ∈ C) →
  lockstep C p p' →
  lockstep C (foldl (special_case Identities) p l)
             (foldl (special_case Identities) p' l).
Proof.
  revert p p'. induction l as [|n l IH]; intros p p' Hu Hl Hlock;
    simpl; [done|].
  apply IH.
  - eapply unread_same_shape; [|exact Hu]. apply special_case_same_shape.
  - intros m Hm. apply Hl. by right.
  - apply special_case_lockstep; [done| |done]. apply Hl. left.
Qed.

Lemma elem_of_weak_accepted d node k :
  k ∈ weak Identities d node → holds d (predicate Identities) k.
Proof.
  unfold weak, partition. cbn [fst].
  rewrite elem_of_remove_dups, list_elem_of_filter. tauto.
Qed.

Lemma elem_of_strong0_rejected d node k :
  k ∈ strong0 Identities d node → ¬ holds d (predicate Identities) k.
Proof.
  unfold strong0, partition. cbn [snd].
  rewrite elem_of_remove_dups, list_elem_of_filter. tauto.
Qed.

(** The pass does not depend on the identities held by the nodes of its
    weak set, as long as the capability table keeps the operand classes
    out of it. *)
Lemma doNodeIdentification_agree d d' node :
  (∀ t, t ∈ operand_classes → Neutral ∉ Identities t) →
  holds d (predicate Identities) node →
  agree (λ k, k ∈ weak Identities d node) d d' →
  doNodeIdentification Identities d node
  = doNodeIdentification Identities d' node.
Proof.
  intros Hwf Hg Hag. pose proof (proj1 Hag) as Hshape.
  assert (Hh : ∀ k, holds d (predicate Identities) k
                    = holds d' (predicate Identities) k).
  { intros k. apply holds_by_type; [done|apply predicate_by_type]. }
  assert (Hg' : holds d' (predicate Identities) node)
    by (by rewrite <- Hh).
  assert (HC : collection Identities d' node = collection Identities d node).
  { unfold collection. symmetry.
    apply bfs_same_shape; [done|apply predicate_by_type]. }
  assert (Hw : weak Identities d' node = weak Identities d node).
  { unfold weak, partition. cbn [fst]. rewrite HC. f_equal.
    apply list_filter_iff. intros k. by rewrite Hh. }
  assert (Hs0 : strong0 Identities d' node = strong0 Identities d node).
  { unfold strong0, partition. cbn [snd]. rewrite HC. f_equal.
    apply list_filter_iff. intros k. by rewrite Hh. }
  assert (Hu : unread Identities (λ k, k ∈ weak Identities d node) d).
  { intros k y Hk Hy. apply elem_of_weak_accepted in Hk.
    apply holds_Some in Hk as (y' & Hy' & Hp).
    rewrite Hy in Hy'. injection Hy' as <-.
    apply bool_decide_unpack in Hp. split; [done|].
    intros Hcls. by apply (Hwf _ Hcls). }
  rewrite !doNodeIdentification_guarded by done.
  unfold special_cases. rewrite Hw, Hs0.
  set (l := weak Identities d node) in *.
  set (s0 := strong0 Identities d node) in *.
  assert (Hlock : lockstep l
            (foldl (special_case Identities) (mkPass d s0 []) l)
            (foldl (special_case Identities) (mkPass d' s0 []) l)).
  { apply special_cases_lockstep; [done|done|].
    split; [done|]. split; [done|]. split; [done|].
    intros k [Hk|Hk]; [|by apply elem_of_nil in Hk]. simpl in Hk.
    apply Hag. intros Hkl. apply elem_of_weak_accepted in Hkl.
    by apply elem_of_strong0_rejected in Hk. }
  set (p := foldl (special_case Identities) (mkPass d s0 []) l) in *.
  set (p' := foldl (special_case Identities) (mkPass d' s0 []) l) in *.
  destruct Hlock as (Hst & Hex & Hag' & Hmem).
  assert (Hrem : remaining l p' = remaining l p)
    by (unfold remaining; by rewrite Hst, Hex).
  assert (Hagg : aggregate p' = aggregate p).
  { unfold aggregate. rewrite <- Hst. do 2 f_equal.
    apply list_fmap_ext. intros i k Hk. unfold identity.
    rewrite Hmem; [done|]. left. by apply list_elem_of_lookup_2 in Hk. }
  rewrite Hrem, Hagg. apply Diagram_eq.
  - apply map_eq. intros k. rewrite !assign_all_lookup.
    case_decide as Hk.
    + apply assigned_by_type, Hag'.
    + destruct (decide (k ∈ l)) as [Hkl|Hkl]; [|by apply Hag'].
      apply Hmem. rewrite elem_of_remaining in Hk.
      destruct (decide (k ∈ strong p)); [by left|].
      destruct (decide (k ∈ excluded p)); [by right|]. tauto.
  - rewrite !assign_all_edges. apply Hag'.
Qed.

End Lockstep.

(** C8.  Running the pass a second time from the same start node changes
    nothing: the second pass returns the diagram the first one produced.
    The capability table is one in which the classes whose identity the
    special cases read (individuals, roles, inverse roles and attributes)
    are not neutral-capable, so that no pass rewrites what the next one
    reads. *)
Theorem doNodeIdentification_idempotent (Identities : Item → list Identity)
    (d : Diagram) (node : nat) :
  Forall (λ t, Neutral ∉ Identities t) operand_classes →
  doNodeIdentification Identities
    (doNodeIdentification Identities d node) node
  = doNodeIdentification Identities d node.
Proof.
  intros Hwf. rewrite Forall_forall in Hwf.
  destruct (decide (holds d (predicate Identities) node)) as [Hg|Hg].
  - symmetry. apply doNodeIdentification_agree; [done|done|].
    split; [apply doNodeIdentification_same_shape|].
    intros k Hk. symmetry. by apply doNodeIdentification_lookup_notin.
  - by rewrite !(doNodeIdentification_unguarded Identities d node Hg).
Qed.

(** ** The loop seen from one of its nodes *)

Section Loop.

Variable Identities : Item → list Identity.

Lemma special_not_operand t : special t → t ∉ operand_classes.
Proof.
  rewrite special_iff. unfold operand_classes.
  rewrite !elem_of_cons, elem_of_nil.
  intros [-> | [-> | ->]] [?|[?|[?|[?|[]]]]]; discriminate.
Qed.

(** The operands a case discards are individuals or nodes that are not
    neutral-capable. *)
Lemma rule_operands_class d t m k :
  k ∈ rule_operands Identities d t m →
  ∃ y, nodes d !! k = Some y
       ∧ (node_type y = IndividualNode
          ∨ Neutral ∉ Identities (node_type y)).
Proof.
  destruct t; simpl; try (intros H; by apply elem_of_nil in H).
  - intros [Hk _]%elem_of_incomingNodes.
    apply holds_Some in Hk as (y & Hy & Hp). exists y. split; [done|].
    left. by apply bool_decide_unpack in Hp.
  - intros [Hk _]%elem_of_incomingNodes.
    apply holds_Some in Hk as (y & Hy & Hp). exists y. split; [done|].
    right. apply andb_True in Hp as [_ Hp].
    by apply bool_decide_unpack in Hp.
  - intros [Hk _]%elem_of_incomingNodes.
    apply holds_Some in Hk as (y & Hy & Hp). exists y. split; [done|].
    left. by apply bool_decide_unpack in Hp.
Qed.

(** An iteration at a neutral-capable node [m] leaves what the cases
    compute for the other nodes as it was. *)
Lemma special_case_rule p m t node :
  holds (diagram p) (predicate Identities) m →
  rule_operands Identities (diagram (special_case Identities p m)) t node
  = rule_operands Identities (diagram p) t node
  ∧ rule_identity Identities (diagram (special_case Identities p m)) t node
    = rule_identity Identities (diagram p) t node.
Proof.
  intros Hm. apply holds_Some in Hm as (y & Hy & Hp).
  apply bool_decide_unpack in Hp.
  destruct (decide (special (node_type y))) as [Hs|Hs].
  - destruct (rule_agree Identities (λ k, k = m) (diagram p)
                (diagram (special_case Identities p m))) with t node
      as [-> ->]; [| |done].
    + split; [apply special_case_same_shape|].
      intros k Hk. by rewrite special_case_lookup_ne.
    + intros k y' -> Hy'. rewrite Hy in Hy'. injection Hy' as <-.
      split; [done|]. by apply special_not_operand.
  - by rewrite (special_case_plain Identities p m y).
Qed.

Lemma holds_special_case p m q k :
  by_type q →
  holds (diagram (special_case Identities p m)) q k
  = holds (diagram p) q k.
Proof.
  intros Hq. symmetry. apply holds_by_type; [|done].
  apply special_case_same_shape.
Qed.

(** A neutral-capable node that is no individual is never discarded from
    [strong]. *)
Lemma special_cases_strong_keep l p k t :
  node_type <$> nodes (diagram p) !! k = Some t →
  Neutral ∈ Identities t → t ≠ IndividualNode →
  k ∈ strong p →
  k ∈ strong (foldl (special_case Identities) p l).
Proof.
  revert p. induction l as [|m l IH]; intros p Ht Hcap Hind Hk; simpl;
    [done|].
  apply IH; try done.
  - rewrite <- Ht. symmetry. apply special_case_same_shape.
  - destruct (nodes (diagram p) !! m) as [x|] eqn:Hx.
    + apply (special_case_strong_keep Identities p m k x); [done|done|].
      intros Hop. apply rule_operands_class in Hop as (y & Hy & Hcls).
      rewrite Hy in Ht. simpl in Ht. injection Ht as Ht.
      rewrite Ht in Hcls. tauto.
    + by rewrite special_case_missing.
Qed.

(** What the loop leaves at a node that has a case: the identity its
    case computes on the diagram the loop started from. *)
Lemma special_cases_lookup l p node x :
  NoDup l →
  (∀ k, k ∈ l → holds (diagram p) (predicate Identities) k) →
  node ∈ l →
  nodes (diagram p) !! node = Some x → special (node_type x) →
  nodes (diagram (foldl (special_case Identities) p l)) !! node
  = Some (assigned Identities
            (rule_identity Identities (diagram p) (node_type x) node) x).
Proof.
  intros Hnd. revert p.
  induction Hnd as [|m l Hm Hnd IH]; intros p Hcap Hin Hx Hs.
  - by apply elem_of_nil in Hin.
  - simpl. destruct (decide (node = m)) as [->|Hne].
    + rewrite special_cases_lookup_notin by done.
      by apply special_case_lookup.
    + apply elem_of_cons in Hin as [?|Hin]; [done|].
      rewrite (IH (special_case Identities p m)); try done.
      * destruct (special_case_rule p m (node_type x) node) as [_ ->];
          [|done].
        apply Hcap. left.
      * intros k Hk.
        rewrite holds_special_case by apply predicate_by_type.
        apply Hcap. by right.
      * by rewrite special_case_lookup_ne.
Qed.

(** An enumeration or range restriction node whose case computes an
    identity other than [Neutral] is in [strong] when the loop ends. *)
Lemma special_cases_strong l p node x :
  NoDup l →
  (∀ k, k ∈ l → holds (diagram p) (predicate Identities) k) →
  node ∈ l →
  nodes (diagram p) !! node = Some x →
  node_type x ∈ [EnumerationNode; RangeRestrictionNode] →
  stored Identities (node_type x)
    (rule_identity Identities (diagram p) (node_type x) node) ≠ Neutral →
  node ∈ strong (foldl (special_case Identities) p l).
Proof.
  intros Hnd. revert p.
  induction Hnd as [|m l Hm Hnd IH]; intros p Hcap Hin Hx Ht Hv.
  - by apply elem_of_nil in Hin.
  - assert (Hs : special (node_type x)).
    { apply special_iff. rewrite !elem_of_cons, elem_of_nil in Ht. tauto. }
    simpl. destruct (decide (node = m)) as [->|Hne].
    + assert (Hcapm : Neutral ∈ Identities (node_type x)).
      { assert (Hh : holds (diagram p) (predicate Identities) m)
          by (apply Hcap; left).
        unfold holds in Hh. rewrite Hx in Hh.
        by apply bool_decide_unpack in Hh. }
      apply (special_cases_strong_keep l _ m (node_type x)).
      * rewrite (special_case_lookup Identities p m x) by done. done.
      * done.
      * intros E. rewrite E in Ht. rewrite !elem_of_cons in Ht.
        rewrite elem_of_nil in Ht. intuition discriminate.
      * rewrite special_case_eq, Hx. cbn [fmap option_fmap option_map].
        rewrite decide_True by done. cbn [strong diagram].
        apply elem_of_foldl_discard. split.
        -- rewrite decide_True; [apply elem_of_add; by right|].
           split.
           ++ intros E. rewrite E in Ht. rewrite !elem_of_cons in Ht.
              rewrite elem_of_nil in Ht. intuition discriminate.
           ++ by rewrite (setIdentity_identity Identities _ m _ x).
        -- intros Hop. apply rule_operands_class in Hop as (y & Hy & Hc).
           rewrite Hx in Hy. injection Hy as <-.
           destruct Hc as [Hc|Hc]; [|done].
           rewrite Hc in Ht. rewrite !elem_of_cons in Ht.
           rewrite elem_of_nil in Ht. intuition discriminate.
    + apply elem_of_cons in Hin as [?|Hin]; [done|].
      apply (IH (special_case Identities p m)); try done.
      * intros k Hk.
        rewrite holds_special_case by apply predicate_by_type.
        apply Hcap. by right.
      * by rewrite special_case_lookup_ne.
      * destruct (special_case_rule p m (node_type x) node) as [_ ->];
          [|done].
        apply Hcap. left.
Qed.

(** A node that [strong] holds when the loop ends is left alone by the
    final assignment. *)
Lemma doNodeIdentification_lookup_strong d start node :
  holds d (predicate Identities) start →
  node ∈ strong (special_cases Identities d start) →
  nodes (doNodeIdentification Identities d start) !! node
  = nodes (diagram (special_cases Identities d start)) !! node.
Proof.
  intros Hg Hs. rewrite doNodeIdentification_guarded by done.
  rewrite assign_all_lookup, decide_False; [done|].
  rewrite elem_of_remaining. tauto.
Qed.

(** Identities computed from operand sets. *)
Lemma computed_identity_cases d (c : Node → Identity) (l : list nat) :
  (∀ k, k ∈ l → is_Some (nodes d !! k)) →
  let computed := computed_identity (remove_dups (node_map d c l)) in
  (l = [] → computed = Neutral)
  ∧ (∀ X, l ≠ [] →
          (∀ k y, k ∈ l → nodes d !! k = Some y → c y = X) →
          computed = X)
  ∧ (∀ k1 k2 y1 y2, k1 ∈ l → k2 ∈ l →
          nodes d !! k1 = Some y1 → nodes d !! k2 = Some y2 →
          c y1 ≠ c y2 → computed = Unknown).
Proof.
  intros Hex computed. split; [|split].
  - intros ->. done.
  - intros X Hne Hall. apply computed_identity_single.
    + destruct l as [|k l']; [done|].
      destruct (Hex k) as [y Hy]; [left|].
      intros E. assert (c y ∈ node_map d c (k :: l')) as Hin.
      { apply elem_of_node_map. exists k, y. split; [left|done]. }
      rewrite E in Hin. by apply elem_of_nil in Hin.
    + intros v (k & y & Hk & Hy & ->)%elem_of_node_map. by eapply Hall.
  - intros k1 k2 y1 y2 Hk1 Hk2 Hy1 Hy2 Hne.
    apply (computed_identity_many _ (c y1) (c y2)); [| |done];
      apply elem_of_node_map; eauto.
Qed.

End Loop.

(** ** The special cases *)

Section Cases.

Variable Identities : Item → list Identity.

Lemma input_operands d node fn k :
  k ∈ incomingNodes d node f1 fn
  ↔ (∃ y, nodes d !! k = Some y ∧ fn y)
    ∧ ∃ e, e ∈ edges d ∧ source e = k ∧ target e = node
           ∧ edge_type e = InputEdge.
Proof.
  rewrite elem_of_incomingNodes, holds_Some.
  unfold f1. setoid_rewrite bool_decide_spec. done.
Qed.

Lemma operands_exist d node fe fn k :
  k ∈ incomingNodes d node fe fn → is_Some (nodes d !! k).
Proof.
  intros [Hk _]%elem_of_incomingNodes.
  apply holds_Some in Hk as (y & Hy & _). eauto.
Qed.



Lemma special_case_enumeration p node x :
  nodes (diagram p) !! node = Some x →
  node_type x = EnumerationNode →
  special_case Identities p node = enumeration_case Identities p node.
Proof. intros Hx Ht. unfold special_case. by rewrite Hx; simpl; rewrite Ht. Qed.

Lemma special_case_range_restriction p node x :
  nodes (diagram p) !! node = Some x →
  node_type x = RangeRestrictionNode →
  special_case Identities p node
  = range_restriction_case Identities p node.
Proof. intros Hx Ht. unfold special_case. by rewrite Hx; simpl; rewrite Ht. Qed.


(** The working set [strong] after the body shared by the enumeration
    and range restriction cases. *)
Lemma strong_after d st node operands k :
  k ∈ foldl discard
        (if decide (identity d node ≠ Neutral) then add st node else st)
        operands
  ↔ (k ∈ st ∨ k = node ∧ identity d node ≠ Neutral) ∧ k ∉ operands.
Proof.
  rewrite elem_of_foldl_discard. case_decide.
  - rewrite elem_of_add. tauto.
  - tauto.
Qed.

End Cases.

(** C3.  An enumeration node of the weak set: its operands are the
    individual nodes that reach it over an input edge, each mapped to
    [Concept] when its identity is [Individual] and to [ValueDomain]
    otherwise; the node is assigned [Neutral] when there is no operand, the
    common mapped identity when all operands map to the same one, and
    [Unknown] when two of them map differently; it enters [strong] when the
    identity it then holds is not [Neutral], and its operands leave
    [strong].  With a single operand of identity [Individual] the node holds
    [Concept] and is in [strong], after the iteration and when a pass that
    has the node in its weak set ends. *)
Theorem enumeration_rule (Identities : Item → list Identity)
    (d : Diagram) (st ex : list nat) (node : nat) (x : Node) :
  nodes d !! node = Some x →
  node_type x = EnumerationNode →
  Neutral ∈ Identities EnumerationNode →
  let operands := incomingNodes d node f1 f2 in
  let p' := special_case Identities (mkPass d st ex) node in
  (∀ k, k ∈ operands
        ↔ (∃ y, nodes d !! k = Some y ∧ node_type y = IndividualNode)
          ∧ ∃ e, e ∈ edges d ∧ source e = k ∧ target e = node
                 ∧ edge_type e = InputEdge)
  ∧ (∀ y, c1 y = if decide (node_identity y = Individual)
                 then Concept else ValueDomain)
  ∧ (operands = [] → identity (diagram p') node = Neutral)
  ∧ (∀ X, operands ≠ [] →
          (∀ k y, k ∈ operands → nodes d !! k = Some y → c1 y = X) →
          identity (diagram p') node
          = stored Identities EnumerationNode X)
  ∧ (∀ X, X ∈ Identities EnumerationNode →
          stored Identities EnumerationNode X = X)
  ∧ (∀ k1 k2 y1 y2, k1 ∈ operands → k2 ∈ operands →
          nodes d !! k1 = Some y1 → nodes d !! k2 = Some y2 →
          c1 y1 ≠ c1 y2 → identity (diagram p') node = Unknown)
  ∧ (∀ k, k ∈ strong p'
          ↔ (k ∈ st ∨ k = node ∧ identity (diagram p') node ≠ Neutral)
            ∧ k ∉ operands)
  ∧ (identity (diagram p') node ≠ Neutral → node ∈ strong p')
  ∧ (∀ k, k ∈ operands → k ∉ strong p')
  ∧ excluded p' = ex
  ∧ (∀ k y, operands = [k] → nodes d !! k = Some y →
            node_identity y = Individual →
            Concept ∈ Identities EnumerationNode →
            identity (diagram p') node = Concept
            ∧ node ∈ strong p'
            ∧ ∀ start,
                holds d (predicate Identities) start →
                node ∈ weak Identities d start →
                identity (doNodeIdentification Identities d start) node
                = Concept
                ∧ node ∈ strong (special_cases Identities d start)).
Proof.
  intros Hx Ht Hcap operands p'.
  assert (Hp' : p' = enumeration_case Identities (mkPass d st ex) node)
    by (by apply (special_case_enumeration Identities _ node x)).
  set (computed := computed_identity (remove_dups (node_map d c1 operands))).
  assert (Hid : identity (diagram p') node
                = stored Identities EnumerationNode computed).
  { rewrite Hp'. unfold enumeration_case. cbn [diagram].
    by rewrite (setIdentity_identity Identities d node _ x), Ht. }
  destruct (computed_identity_cases d c1 operands) as (Hnil & Hone & Hmany).
  { intros k Hk. by apply operands_exist in Hk. }
  assert (Hself : node ∉ operands).
  { intros Hin. apply input_operands in Hin as [(y & Hy & Hf) _].
    rewrite Hx in Hy. injection Hy as <-.
    apply bool_decide_unpack in Hf. congruence. }
  assert (Hstrong : ∀ k, k ∈ strong p'
            ↔ (k ∈ st ∨ k = node ∧ identity (diagram p') node ≠ Neutral)
              ∧ k ∉ operands).
  { intros k. rewrite Hp' at 1. unfold enumeration_case.
    cbn [diagram strong]. rewrite strong_after.
    rewrite Hp'. unfold enumeration_case. cbn [diagram]. done. }
  split; [|split; [|split; [|split; [|split; [|split; [|split;
    [|split; [|split; [|split]]]]]]]]].
  - intros k. unfold operands. rewrite input_operands.
    unfold f2. setoid_rewrite bool_decide_spec. done.
  - done.
  - intros E. rewrite Hid. fold computed in Hnil. rewrite (Hnil E).
    by apply stored_in.
  - intros X Hne Hall. rewrite Hid. fold computed in Hone.
    by rewrite (Hone X Hne Hall).
  - intros X. apply stored_in.
  - intros k1 k2 y1 y2 Hk1 Hk2 Hy1 Hy2 Hdiff. rewrite Hid.
    fold computed in Hmany.
    rewrite (Hmany k1 k2 y1 y2 Hk1 Hk2 Hy1 Hy2 Hdiff).
    apply stored_Unknown.
  - done.
  - intros Hne. apply Hstrong. split; [right; done|done].
  - intros k Hk Hin. apply Hstrong in Hin. tauto.
  - rewrite Hp'. done.
  - intros k y Hops Hy Hind Hconcept.
    assert (Hcomputed : computed = Concept).
    { apply Hone; [by rewrite Hops|].
      intros k' y' Hk'. rewrite Hops in Hk'.
      apply list_elem_of_singleton in Hk' as ->. rewrite Hy.
      intros [= <-]. unfold c1. by rewrite decide_True. }
    assert (Hadm : stored Identities EnumerationNode computed = Concept)
      by (rewrite Hcomputed; by apply stored_in).
    split; [by rewrite Hid|]. split.
    { apply Hstrong. split; [|done]. right. split; [done|].
      rewrite Hid, Hadm. done. }
    intros start Hg Hin.
    assert (Hsx : special (node_type x)).
    { unfold special. rewrite Ht. left. }
    assert (Hcapw : ∀ k0, k0 ∈ weak Identities d start →
              holds d (predicate Identities) k0)
      by apply elem_of_weak_accepted.
    assert (Hs : node ∈ strong (special_cases Identities d start)).
    { unfold special_cases.
      apply (special_cases_strong Identities _ _ node x);
        [apply NoDup_weak|done|done|done| |].
      - rewrite Ht. left.
      - cbn [diagram]. rewrite Ht. unfold rule_identity.
        fold operands. fold computed. by rewrite Hadm. }
    split; [|done].
    unfold identity.
    rewrite doNodeIdentification_lookup_strong by done.
    unfold special_cases.
    rewrite (special_cases_lookup Identities _ _ node x);
      [|apply NoDup_weak|done|done|done|done].
    cbn [diagram]. unfold assigned. cbn [node_identity]. rewrite Ht.
    unfold rule_identity. fold operands. fold computed. done.
Qed.

(** One iteration of the loop at a range restriction node, from any
    diagram and working sets: its operands are the nodes that reach it
    over an input edge, hold one of the identities [Role], [Attribute],
    [Concept] and are not neutral-capable; each is mapped to [Concept] when
    its identity is [Role] or [Concept] and to [ValueDomain] otherwise; the
    node is assigned [Neutral], the common mapped identity or [Unknown] as
    the operands map to nothing, to one identity or to several. *)
Lemma range_restriction_iteration (Identities : Item → list Identity)
    (d : Diagram) (st ex : list nat) (node : nat) (x : Node) :
  nodes d !! node = Some x →
  node_type x = RangeRestrictionNode →
  Neutral ∈ Identities RangeRestrictionNode →
  let operands := incomingNodes d node f1 (f4 Identities) in
  let p' := special_case Identities (mkPass d st ex) node in
  (∀ k, k ∈ operands
        ↔ (∃ y, nodes d !! k = Some y
                ∧ node_identity y ∈ [Role; Attribute; Concept]
                ∧ Neutral ∉ Identities (node_type y))
          ∧ ∃ e, e ∈ edges d ∧ source e = k ∧ target e = node
                 ∧ edge_type e = InputEdge)
  ∧ (∀ y, c2 y = if decide (node_identity y ∈ [Role; Concept])
                 then Concept else ValueDomain)
  ∧ (∀ y, node_identity y = Attribute → c2 y = ValueDomain)
  ∧ (operands = [] → identity (diagram p') node = Neutral)
  ∧ (∀ X, operands ≠ [] →
          (∀ k y, k ∈ operands → nodes d !! k = Some y → c2 y = X) →
          identity (diagram p') node
          = stored Identities RangeRestrictionNode X)
  ∧ (∀ X, X ∈ Identities RangeRestrictionNode →
          stored Identities RangeRestrictionNode X = X)
  ∧ (∀ k1 k2 y1 y2, k1 ∈ operands → k2 ∈ operands →
          nodes d !! k1 = Some y1 → nodes d !! k2 = Some y2 →
          c2 y1 ≠ c2 y2 → identity (diagram p') node = Unknown)
  ∧ (∀ k, k ∈ strong p'
          ↔ (k ∈ st ∨ k = node ∧ identity (diagram p') node ≠ Neutral)
            ∧ k ∉ operands)
  ∧ excluded p' = ex.
Proof.
  intros Hx Ht Hcap operands p'.
  assert (Hp' : p' = range_restriction_case Identities (mkPass d st ex) node)
    by (by apply (special_case_range_restriction Identities _ node x)).
  set (computed := computed_identity (remove_dups (node_map d c2 operands))).
  assert (Hid : identity (diagram p') node
                = stored Identities RangeRestrictionNode computed).
  { rewrite Hp'. unfold range_restriction_case. cbn [diagram].
    by rewrite (setIdentity_identity Identities d node _ x), Ht. }
  destruct (computed_identity_cases d c2 operands) as (Hnil & Hone & Hmany).
  { intros k Hk. by apply operands_exist in Hk. }
  split; [|split; [|split; [|split; [|split; [|split; [|split;
    [|split]]]]]]].
  - intros k. unfold operands. rewrite input_operands.
    unfold f4. setoid_rewrite andb_True.
    setoid_rewrite bool_decide_spec. done.
  - done.
  - intros y Hy. unfold c2. rewrite Hy. rewrite decide_False; [done|].
    rewrite !elem_of_cons, elem_of_nil. intuition discriminate.
  - intros E. rewrite Hid. fold computed in Hnil. rewrite (Hnil E).
    by apply stored_in.
  - intros X Hne Hall. rewrite Hid. fold computed in Hone.
    by rewrite (Hone X Hne Hall).
  - intros X. apply stored_in.
  - intros k1 k2 y1 y2 Hk1 Hk2 Hy1 Hy2 Hdiff. rewrite Hid.
    fold computed in Hmany.
    rewrite (Hmany k1 k2 y1 y2 Hk1 Hk2 Hy1 Hy2 Hdiff).
    apply stored_Unknown.
  - intros k. rewrite Hp' at 1. unfold range_restriction_case.
    cbn [diagram strong]. rewrite strong_after.
    rewrite Hp'. unfold range_restriction_case. cbn [diagram]. done.
  - rewrite Hp'. done.
Qed.


(** ** OWL 2 export: the cardinality branches *)

Section Cardinalities.

Import owl2.

Variable convert : nat → OWLObject.
Variable restriction : nat → Restriction.t.
Variable cardinality : nat → string → option nat.

Lemma HashSet_add_nil e : HashSet_add [] e = [e].
Proof.
  unfold HashSet_add. rewrite decide_False by apply not_elem_of_nil. done.
Qed.

Lemma HashSet_add_singleton a e :
  HashSet_add [a] e = if decide (e = a) then [a] else [a; e].
Proof.
  unfold HashSet_add. destruct (decide (e = a)) as [->|Hne].
  - rewrite decide_True by left. done.
  - rewrite decide_False; [done|]. by rewrite list_elem_of_singleton.
Qed.

Lemma data_cardinalities_eq node dpe dre :
  data_cardinalities cardinality node dpe dre
  = match cardinality node "min", cardinality node "max" with
    | None, None => DiagramMalformedError "missing cardinality"
    | Some n, None =>
      Return (OWLDataIntersectionOf [OWLDataMinCardinality n dpe dre])
    | None, Some m =>
      Return (OWLDataIntersectionOf [OWLDataMinCardinality m dpe dre])
    | Some n, Some m =>
      Return (OWLDataIntersectionOf
                (if decide (n = m)
                 then [OWLDataMinCardinality n dpe dre]
                 else [OWLDataMinCardinality n dpe dre;
                       OWLDataMinCardinality m dpe dre]))
    end.
Proof.
  unfold data_cardinalities.
  destruct (cardinality node "min") as [n|],
           (cardinality node "max") as [m|]; try done.
  rewrite HashSet_add_nil, HashSet_add_singleton.
  destruct (decide (n = m)) as [->|Hne].
  - rewrite decide_True by done. done.
  - rewrite decide_False by congruence. done.
Qed.

Lemma object_cardinalities_eq node ope ce :
  object_cardinalities cardinality node ope ce
  = match cardinality node "min", cardinality node "max" with
    | None, None => DiagramMalformedError "missing cardinality"
    | Some n, None =>
      Return (OWLObjectIntersectionOf [OWLObjectMinCardinality n ope ce])
    | None, Some m =>
      Return (OWLObjectIntersectionOf [OWLObjectMaxCardinality m ope ce])
    | Some n, Some m =>
      Return (OWLObjectIntersectionOf
                [OWLObjectMinCardinality n ope ce;
                 OWLObjectMaxCardinality m ope ce])
    end.
Proof.
  unfold object_cardinalities.
  destruct (cardinality node "min") as [n|],
           (cardinality node "max") as [m|]; done.
Qed.

End Cardinalities.

(** C9 (as amended).  For a restriction node with a [Cardinality]
    restriction: with an attribute operand, [getDomainRestriction] builds
    both the expression for the minimum and the one for the maximum with
    [getOWLDataMinCardinality]; with a role operand, [getDomainRestriction]
    and [getRangeRestriction] build the expression for the minimum with
    [getOWLObjectMinCardinality] and the one for the maximum with
    [getOWLObjectMaxCardinality]. *)
Theorem cardinality_factories
    (convert : nat → owl2.OWLObject) (restriction : nat → Restriction.t)
    (cardinality : nat → string → option nat)
    (d : Diagram) (node operand : nat) :
  restriction node = Restriction.Cardinality →
  first (incomingNodes d node
           (λ x, bool_decide (edge_type x = InputEdge))
           (λ x, bool_decide (node_identity x ∈ [Role; Attribute])))
  = Some operand →
  let filler (f : Node → bool) (top : owl2.OWLObject) :=
    match first (incomingNodes d node
                   (λ x, bool_decide (edge_type x = InputEdge)) f) with
    | None => top
    | Some n => convert n
    end in
  let dpe := convert operand in
  let dre := filler (λ x, bool_decide (node_identity x = ValueDomain))
                    owl2.OWLTopDatatype in
  let ce := filler (λ x, bool_decide (node_identity x = Concept))
                   owl2.OWLThing in
  let object_result (ope : owl2.OWLObject) :=
    match cardinality node "min", cardinality node "max" with
    | None, None => owl2.DiagramMalformedError "missing cardinality"
    | Some n, None =>
      owl2.Return (owl2.OWLObjectIntersectionOf
                     [owl2.OWLObjectMinCardinality n ope ce])
    | None, Some m =>
      owl2.Return (owl2.OWLObjectIntersectionOf
                     [owl2.OWLObjectMaxCardinality m ope ce])
    | Some n, Some m =>
      owl2.Return (owl2.OWLObjectIntersectionOf
                     [owl2.OWLObjectMinCardinality n ope ce;
                      owl2.OWLObjectMaxCardinality m ope ce])
    end in
  (identity d operand = Attribute →
   owl2.getDomainRestriction convert restriction cardinality d node
   = match cardinality node "min", cardinality node "max" with
     | None, None => owl2.DiagramMalformedError "missing cardinality"
     | Some n, None =>
       owl2.Return (owl2.OWLDataIntersectionOf
                      [owl2.OWLDataMinCardinality n dpe dre])
     | None, Some m =>
       owl2.Return (owl2.OWLDataIntersectionOf
                      [owl2.OWLDataMinCardinality m dpe dre])
     | Some n, Some m =>
       owl2.Return (owl2.OWLDataIntersectionOf
                      (if decide (n = m)
                       then [owl2.OWLDataMinCardinality n dpe dre]
                       else [owl2.OWLDataMinCardinality n dpe dre;
                             owl2.OWLDataMinCardinality m dpe dre]))
     end)
  ∧ (identity d operand = Role →
     owl2.getDomainRestriction convert restriction cardinality d node
     = object_result (convert operand))
  ∧ (identity d operand = Role →
     owl2.getRangeRestriction convert restriction cardinality d node
     = object_result (owl2.OWLInverseProperty (convert operand))).
Proof.
  intros Hr Hop filler dpe dre ce object_result.
  split; [|split]; intros Hid.
  - unfold owl2.getDomainRestriction. cbv zeta. rewrite Hop.
    rewrite (decide_True (P := identity d operand = Attribute)) by done.
    rewrite Hr.
    apply data_cardinalities_eq.
  - unfold owl2.getDomainRestriction. cbv zeta. rewrite Hop.
    rewrite (decide_False (P := identity d operand = Attribute))
      by (rewrite Hid; done).
    rewrite (decide_True (P := identity d operand = Role)) by done.
    rewrite Hr.
    apply object_cardinalities_eq.
  - unfold owl2.getRangeRestriction. cbv zeta. rewrite Hop.
    rewrite (decide_True (P := identity d operand = Role)) by done.
    rewrite Hr.
    apply object_cardinalities_eq.
Qed.

(** ** The [identity] property of concept and squared nodes *)

(** C10.  Reading [identity] on a [ConceptNode] or a [SquaredNode] yields
    [Identity.Concept], and assigning to it does nothing: after any
    sequence of assignments the node is the object it was and its identity
    still reads [Identity.Concept]. *)
Theorem identity_property_is_Concept :
  (∀ (self : concept.ConceptNode) (values : list Identity),
     concept.identity self = Concept
     ∧ foldl concept.set_identity self values = self
     ∧ concept.identity (foldl concept.set_identity self values) = Concept)
  ∧ (∀ (self : square.SquaredNode) (values : list Identity),
       square.identity self = Concept
       ∧ foldl square.set_identity self values = self
       ∧ square.identity (foldl square.set_identity self values) = Concept).
Proof.
  split; intros self values; (split; [done|]); (split; [|done]);
    induction values as [|v values IH]; done.
Qed.

(** ** Examples and counterexamples *)

Example enumeration_diagram_collection :
  collection graphol_Identities enumeration_diagram 2 = [2; 0].
Proof. vm_compute. reflexivity. Qed.

Example enumeration_diagram_resolved :
  nodes (doNodeIdentification graphol_Identities enumeration_diagram 2)
  = list_to_map [(0, mkNode EnumerationNode Concept);
                 (1, mkNode IndividualNode Individual);
                 (2, mkNode UnionNode Concept);
                 (3, mkNode ConceptNode Concept)].
Proof. vm_compute. reflexivity. Qed.

Example mixed_enumeration_resolved :
  identity (doNodeIdentification graphol_Identities mixed_enumeration 0) 0
  = Unknown.
Proof. vm_compute. reflexivity. Qed.

Example role_assertion_resolved :
  identity (doNodeIdentification graphol_Identities role_assertion 0) 0
  = RoleInstance
  ∧ excluded (special_cases graphol_Identities role_assertion 0) = [0].
Proof. split; vm_compute; reflexivity. Qed.

(** C1, counterexample.  The lone enumeration node holds [Concept], not
    [Neutral], and yet lands in [weak] and not in [strong]. *)
Lemma partition_by_identity_fails :
  ¬ (∀ n, n ∈ collection graphol_Identities resolved_enumeration 0 →
          (identity resolved_enumeration n ≠ Neutral →
           n ∈ strong0 graphol_Identities resolved_enumeration 0)
          ∧ (identity resolved_enumeration n = Neutral →
             n ∈ weak graphol_Identities resolved_enumeration 0)).
Proof.
  intros H. destruct (H 0) as [Hs _].
  - assert (E : collection graphol_Identities resolved_enumeration 0 = [0])
      by (vm_compute; reflexivity).
    rewrite E. left.
  - assert (E : strong0 graphol_Identities resolved_enumeration 0 = [])
      by (vm_compute; reflexivity).
    rewrite E in Hs. eapply elem_of_nil, Hs. vm_compute. discriminate.
Qed.

(** C1, witness: the lone enumeration node. *)
Lemma partition_by_capability_witness :
  0 ∈ collection graphol_Identities resolved_enumeration 0
  ∧ 0 ∈ weak graphol_Identities resolved_enumeration 0
  ∧ 0 ∉ strong0 graphol_Identities resolved_enumeration 0.
Proof.
  assert (H : 0 ∈ collection graphol_Identities resolved_enumeration 0)
    by compute_done.
  split; [exact H|].
  destruct (partition_by_capability graphol_Identities
              resolved_enumeration 0 0 H) as (Hweak & _ & Hone).
  assert (Hw : 0 ∈ weak graphol_Identities resolved_enumeration 0)
    by (apply Hweak; vm_compute; exact I).
  split; [exact Hw|]. by apply Hone.
Defined.

(** C4, counterexample.  The union feeding the range restriction holds
    [Concept], which is one of the three identities and is not [Neutral],
    but the union is neutral-capable and is not collected; the restriction
    is left [Neutral]. *)
Lemma range_restriction_operands_by_identity_fails :
  ¬ (∀ k, k ∈ incomingNodes range_of_union 0 f1 (f4 graphol_Identities)
          ↔ (∃ y, nodes range_of_union !! k = Some y
                  ∧ node_identity y ∈ [Role; Attribute; Concept]
                  ∧ node_identity y ≠ Neutral)
            ∧ ∃ e, e ∈ edges range_of_union ∧ source e = k ∧ target e = 0
                   ∧ edge_type e = InputEdge)
  ∧ identity (diagram (special_case graphol_Identities
                         (mkPass range_of_union [] []) 0)) 0 = Neutral.
Proof.
  split; [|vm_compute; reflexivity].
  intros H. destruct (H 1) as [_ Hin].
  assert (E : incomingNodes range_of_union 0 f1 (f4 graphol_Identities) = [])
    by (vm_compute; reflexivity).
  rewrite E in Hin. eapply elem_of_nil, Hin. split.
  - exists (mkNode UnionNode Concept). split; [vm_compute; reflexivity|].
    split; [|discriminate]. simpl. rewrite !elem_of_cons. tauto.
  - exists (mkEdge 1 0 InputEdge). split; [left|done].
Qed.

(** C9, counterexample.  With a role operand the expression for the
    maximum is built with [getOWLObjectMaxCardinality]. *)
Lemma object_max_cardinality_not_min :
  owl2.getDomainRestriction owl2.OWLEntity always_cardinality at_most_two
    domain_of_role 0
  = owl2.Return
      (owl2.OWLObjectIntersectionOf
         [owl2.OWLObjectMaxCardinality 2 (owl2.OWLEntity 1) owl2.OWLThing])
  ∧ owl2.getRangeRestriction owl2.OWLEntity always_cardinality at_most_two
      domain_of_role 0
    = owl2.Return
        (owl2.OWLObjectIntersectionOf
           [owl2.OWLObjectMaxCardinality 2
              (owl2.OWLInverseProperty (owl2.OWLEntity 1)) owl2.OWLThing])
  ∧ ¬ (∃ s n ope ce,
         owl2.getDomainRestriction owl2.OWLEntity always_cardinality
           at_most_two domain_of_role 0
         = owl2.Return (owl2.OWLObjectIntersectionOf s)
         ∧ owl2.OWLObjectMinCardinality n ope ce ∈ s).
Proof.
  assert (E : owl2.getDomainRestriction owl2.OWLEntity always_cardinality
                at_most_two domain_of_role 0
              = owl2.Return
                  (owl2.OWLObjectIntersectionOf
                     [owl2.OWLObjectMaxCardinality 2 (owl2.OWLEntity 1)
                        owl2.OWLThing]))
    by (vm_compute; reflexivity).
  split; [exact E|]. split; [vm_compute; reflexivity|].
  intros (s & n & ope & ce & Hs & Hin). rewrite E in Hs.
  injection Hs as <-. apply list_elem_of_singleton in Hin. discriminate.
Qed.

(** ** The results at the sample diagrams *)

(** C2, witness: the union takes the identity of the enumeration. *)
Lemma final_computation_witness :
  holds enumeration_diagram (predicate graphol_Identities) 2
  ∧ aggregate (special_cases graphol_Identities enumeration_diagram 2)
    = Concept
  ∧ identity (doNodeIdentification graphol_Identities enumeration_diagram 2)
      2 = Concept.
Proof.
  assert (Hg : holds enumeration_diagram (predicate graphol_Identities) 2)
    by (vm_compute; exact I).
  split; [exact Hg|].
  destruct (final_computation graphol_Identities enumeration_diagram 2 Hg)
    as (_ & Hone & _ & _ & _ & Hset & _).
  assert (Hagg : aggregate
                   (special_cases graphol_Identities enumeration_diagram 2)
                 = Concept).
  { apply Hone.
    - vm_compute. discriminate.
    - intros n Hn.
      assert (E : strong (special_cases graphol_Identities
                            enumeration_diagram 2) = [0])
        by (vm_compute; reflexivity).
      rewrite E in Hn. apply list_elem_of_singleton in Hn as ->.
      vm_compute. reflexivity. }
  split; [exact Hagg|]. rewrite <- Hagg.
  apply (Hset 2 (mkNode UnionNode Neutral)).
  - compute_done.
  - vm_compute. reflexivity.
  - rewrite Hagg. compute_done.
Defined.

(** C3, witness: the enumeration of one individual. *)
Lemma enumeration_rule_witness :
  nodes enumeration_diagram !! 0 = Some (mkNode EnumerationNode Neutral)
  ∧ Neutral ∈ graphol_Identities EnumerationNode
  ∧ identity (diagram (special_case graphol_Identities
                         (mkPass enumeration_diagram [] []) 0)) 0 = Concept
  ∧ identity (doNodeIdentification graphol_Identities enumeration_diagram 2)
      0 = Concept
  ∧ 0 ∈ strong (special_cases graphol_Identities enumeration_diagram 2).
Proof.
  assert (Hx : nodes enumeration_diagram !! 0
               = Some (mkNode EnumerationNode Neutral))
    by (vm_compute; reflexivity).
  assert (Hcap : Neutral ∈ graphol_Identities EnumerationNode)
    by compute_done.
  split; [exact Hx|]. split; [exact Hcap|].
  destruct (enumeration_rule graphol_Identities enumeration_diagram [] [] 0
              (mkNode EnumerationNode Neutral) Hx eq_refl Hcap)
    as (_ & _ & _ & _ & _ & _ & _ & _ & _ & _ & Hlone).
  destruct (Hlone 1 (mkNode IndividualNode Individual))
    as (Hid & _ & Hend).
  - vm_compute. reflexivity.
  - vm_compute. reflexivity.
  - reflexivity.
  - compute_done.
  - split; [exact Hid|]. apply Hend.
    + vm_compute. exact I.
    + compute_done.
Defined.

(** C6, witness: the enumeration node, visited from the union. *)
Lemma visited_nodes_settled_witness :
  holds enumeration_diagram (predicate graphol_Identities) 2
  ∧ 0 ∈ collection graphol_Identities enumeration_diagram 2
  ∧ ∃ x, nodes (doNodeIdentification graphol_Identities
                  enumeration_diagram 2) !! 0 = Some x
         ∧ (node_identity x ∈ graphol_Identities (node_type x)
            ∨ node_identity x = Unknown).
Proof.
  assert (Hg : holds enumeration_diagram (predicate graphol_Identities) 2)
    by (vm_compute; exact I).
  assert (Hin : 0 ∈ collection graphol_Identities enumeration_diagram 2)
    by compute_done.
  split; [exact Hg|]. split; [exact Hin|].
  exact (visited_nodes_settled graphol_Identities enumeration_diagram 2 0
           Hg Hin).
Defined.

(** C7, witness: the concept node next to the union. *)
Lemma writes_identities_only_witness :
  nodes enumeration_diagram !! 3 = Some (mkNode ConceptNode Concept)
  ∧ (Neutral ∉ graphol_Identities ConceptNode)
  ∧ nodes (doNodeIdentification graphol_Identities enumeration_diagram 2)
      !! 3 = Some (mkNode ConceptNode Concept)
  ∧ ¬ holds enumeration_diagram (predicate graphol_Identities) 3
  ∧ doNodeIdentification graphol_Identities enumeration_diagram 3
    = enumeration_diagram.
Proof.
  assert (Hx : nodes enumeration_diagram !! 3
               = Some (mkNode ConceptNode Concept))
    by (vm_compute; reflexivity).
  assert (Hcap : Neutral ∉ graphol_Identities ConceptNode)
    by compute_done.
  assert (Hg : ¬ holds enumeration_diagram (predicate graphol_Identities) 3)
    by (vm_compute; exact (λ H, H)).
  split; [exact Hx|]. split; [exact Hcap|]. split; [|split; [exact Hg|]].
  - destruct (writes_identities_only graphol_Identities
                enumeration_diagram 2) as (_ & _ & _ & Hframe & _).
    apply (Hframe 3 (mkNode ConceptNode Concept) Hx Hcap).
  - destruct (writes_identities_only graphol_Identities
                enumeration_diagram 3) as (_ & _ & _ & _ & Hnoop).
    exact (Hnoop Hg).
Defined.

(** C8, witness: two passes from the union. *)
Lemma doNodeIdentification_idempotent_witness :
  Forall (λ t, Neutral ∉ graphol_Identities t) operand_classes
  ∧ doNodeIdentification graphol_Identities
      (doNodeIdentification graphol_Identities enumeration_diagram 2) 2
    = doNodeIdentification graphol_Identities enumeration_diagram 2.
Proof.
  assert (Hwf : Forall (λ t, Neutral ∉ graphol_Identities t)
                  operand_classes) by compute_done.
  split; [exact Hwf|].
  exact (doNodeIdentification_idempotent graphol_Identities
           enumeration_diagram 2 Hwf).
Defined.

(** C9, witness: the domain restriction of an attribute. *)
Lemma cardinality_factories_witness :
  always_cardinality 0 = Restriction.Cardinality
  ∧ identity domain_of_attribute 1 = Attribute
  ∧ owl2.getDomainRestriction owl2.OWLEntity always_cardinality at_most_two
      domain_of_attribute 0
    = owl2.Return
        (owl2.OWLDataIntersectionOf
           [owl2.OWLDataMinCardinality 2 (owl2.OWLEntity 1)
              owl2.OWLTopDatatype]).
Proof.
  split; [reflexivity|]. split; [vm_compute; reflexivity|].
  destruct (cardinality_factories owl2.OWLEntity always_cardinality
              at_most_two domain_of_attribute 0 1 eq_refl)
    as (Hdata & _ & _).
  - vm_compute. reflexivity.
  - rewrite Hdata; [|vm_compute; reflexivity].
    vm_compute. reflexivity.
Defined.

(** * The pass as a whole, and further properties of the code *)

(** ** The loop does not depend on the order of the weak set *)

Section Order.

Variable Identities : Item → list Identity.

Lemma computed_identity_set (l1 l2 : list Identity) :
  (∀ v, v ∈ l1 ↔ v ∈ l2) →
  computed_identity (remove_dups l1) = computed_identity (remove_dups l2).
Proof.
  intros Heq. destruct l1 as [|a l1].
  - destruct l2 as [|b l2]; [done|].
    exfalso. eapply not_elem_of_nil. apply Heq. left.
  - destruct (decide (Forall (λ v, v = a) (a :: l1))) as [Hall|Hsome].
    + rewrite Forall_forall in Hall.
      rewrite (computed_identity_single (a :: l1) a); [|done|done].
      symmetry. apply computed_identity_single.
      * intros ->. eapply not_elem_of_nil. apply Heq. left.
      * intros v Hv. apply Hall. by apply Heq.
    + apply not_Forall_Exists in Hsome; [|apply _].
      apply Exists_exists in Hsome as (b & Hb & Hne).
      rewrite (computed_identity_many (a :: l1) a b); [|left|done|done].
      symmetry. apply (computed_identity_many l2 a b); [| |done].
      * apply Heq. left.
      * by apply Heq.
Qed.

(** A node the loop adds to [strong] is never an operand of a case. *)
Lemma rule_target_not_operand d t m k :
  holds d (predicate Identities) k →
  rule_target Identities d k →
  k ∉ rule_operands Identities d t m.
Proof.
  intros Hk (x & Hx & Ht & _) Hop.
  apply rule_operands_class in Hop as (y & Hy & Hcls).
  rewrite Hx in Hy. injection Hy as <-.
  unfold holds in Hk. rewrite Hx in Hk. apply bool_decide_unpack in Hk.
  destruct Hcls as [Hc|Hc]; [|done].
  rewrite Hc in Ht. rewrite !elem_of_cons, elem_of_nil in Ht.
  intuition discriminate.
Qed.

(** One iteration, seen from [strong]. *)
Lemma elem_of_special_case_strong p m k :
  k ∈ strong (special_case Identities p m)
  ↔ (k ∈ strong p ∨ k = m ∧ rule_target Identities (diagram p) m)
    ∧ ¬ rule_operand Identities (diagram p) [m] k.
Proof.
  unfold rule_operand, rule_target. rewrite special_case_eq.
  destruct (nodes (diagram p) !! m) as [x|] eqn:Hx;
    cbn [fmap option_fmap option_map].
  - case_decide as Hs.
    + cbn [strong]. rewrite elem_of_foldl_discard.
      rewrite (setIdentity_identity Identities _ m _ x) by done.
      assert (Hops : k ∈ rule_operands Identities (diagram p) (node_type x) m
                     ↔ ∃ m0 x0, m0 ∈ [m] ∧ nodes (diagram p) !! m0 = Some x0
                          ∧ k ∈ rule_operands Identities (diagram p)
                                  (node_type x0) m0).
      { split.
        - intros Hop. exists m, x. split; [left|done].
        - intros (m0 & x0 & Hm0 & Hx0 & Hop).
          apply list_elem_of_singleton in Hm0 as ->.
          rewrite Hx in Hx0. by injection Hx0 as <-. }
      rewrite <- Hops. clear Hops.
      apply special_iff in Hs.
      case_decide as Hadd.
      * rewrite elem_of_add. split.
        -- intros [[Hk| ->] Hno]; (split; [|done]); [by left|right].
           split; [done|]. exists x. split; [done|].
           rewrite !elem_of_cons. split; [|tauto].
           destruct Hadd as [Hne _]. destruct Hs as [?|[?|?]]; tauto.
        -- intros [[Hk|[-> _]] Hno]; (split; [|done]); [by left|by right].
      * split.
        -- intros [Hk Hno]. split; [by left|done].
        -- intros [[Hk|[-> (x0 & Hx0 & Ht & Hv)]] Hno]; (split; [|done]);
             [done|].
           injection Hx0 as <-.
           exfalso. apply Hadd. split; [|done].
           intros E. rewrite E in Ht.
           rewrite !elem_of_cons, elem_of_nil in Ht. intuition discriminate.
    + split.
      * intros Hk. split; [by left|].
        intros (m0 & x0 & Hm0 & Hx0 & Hop).
        apply list_elem_of_singleton in Hm0 as ->.
        rewrite Hx in Hx0. injection Hx0 as <-.
        destruct (node_type x); simpl in Hop;
          try (by apply elem_of_nil in Hop);
          apply Hs, special_iff; tauto.
      * intros [[Hk|[-> (x0 & Hx0 & Ht & _)]] _]; [done|].
        injection Hx0 as <-.
        exfalso. apply Hs, special_iff.
        rewrite !elem_of_cons, elem_of_nil in Ht. tauto.
  - split.
    + intros Hk. split; [by left|].
      intros (m0 & x0 & Hm0 & Hx0 & _).
      apply list_elem_of_singleton in Hm0 as ->. congruence.
    + intros [[Hk|[-> (x0 & Hx0 & _)]] _]; [done|congruence].
Qed.

(** An iteration at a neutral-capable node other than [k] changes neither
    whether [k] is added to [strong] nor the operands of the other
    nodes. *)
Lemma special_case_rule_target p m k :
  holds (diagram p) (predicate Identities) m → k ≠ m →
  rule_target Identities (diagram (special_case Identities p m)) k
  ↔ rule_target Identities (diagram p) k.
Proof.
  intros Hm Hne. unfold rule_target.
  rewrite special_case_lookup_ne by done.
  split; intros (x & Hx & Ht & Hv); exists x; (split; [done|]);
    (split; [done|]);
    destruct (special_case_rule Identities p m (node_type x) k Hm)
      as [_ E]; [by rewrite <- E|by rewrite E].
Qed.

Lemma special_case_rule_operand p m l k :
  holds (diagram p) (predicate Identities) m → m ∉ l →
  rule_operand Identities (diagram (special_case Identities p m)) l k
  ↔ rule_operand Identities (diagram p) l k.
Proof.
  intros Hm Hnotin. unfold rule_operand.
  split; intros (m0 & x & Hm0 & Hx & Hop); exists m0, x;
    (split; [done|]);
    (assert (m0 ≠ m) as Hne by (intros ->; done));
    rewrite special_case_lookup_ne in * by done; (split; [done|]);
    destruct (special_case_rule Identities p m (node_type x) m0 Hm)
      as [E _]; [by rewrite <- E|by rewrite E].
Qed.

Lemma rule_operand_cons d m l k :
  rule_operand Identities d (m :: l) k
  ↔ rule_operand Identities d [m] k ∨ rule_operand Identities d l k.
Proof.
  unfold rule_operand. split.
  - intros (m0 & x & Hm0 & Hx & Hop).
    apply elem_of_cons in Hm0 as [->|Hm0].
    + left. exists m, x. split; [left|done].
    + right. exists m0, x. done.
  - intros [(m0 & x & Hm0 & Hx & Hop)|(m0 & x & Hm0 & Hx & Hop)];
      exists m0, x; (split; [|done]).
    + apply list_elem_of_singleton in Hm0 as ->. left.
    + by right.
Qed.

(** The working set [strong] when the loop over [l] ends: what it held
    before, less the operands of the cases, and the enumeration and range
    restriction nodes of [l] that received an identity. *)
Lemma elem_of_special_cases_strong l p k :
  NoDup l →
  (∀ n, n ∈ l → holds (diagram p) (predicate Identities) n) →
  k ∈ strong (foldl (special_case Identities) p l)
  ↔ (k ∈ strong p ∧ ¬ rule_operand Identities (diagram p) l k)
    ∨ (k ∈ l ∧ rule_target Identities (diagram p) k).
Proof.
  intros Hnd. revert p.
  induction Hnd as [|m l Hm Hnd IH]; intros p Hcap.
  - simpl. split.
    + intros Hk. left. split; [done|].
      intros (m0 & x & Hm0 & _). by apply elem_of_nil in Hm0.
    + intros [[Hk _]|[Hk _]]; [done|]. by apply elem_of_nil in Hk.
  - assert (Hcm : holds (diagram p) (predicate Identities) m)
      by (apply Hcap; left).
    simpl. rewrite IH; cycle 1.
    { intros n Hn. rewrite holds_special_case by apply predicate_by_type.
      apply Hcap. by right. }
    rewrite elem_of_special_case_strong.
    rewrite (special_case_rule_operand p m l k Hcm Hm).
    rewrite (rule_operand_cons (diagram p) m l k).
    split.
    + intros [[[[Hk|[-> Ht]] Hno1] Hno2]|[Hk Ht]].
      * left. split; [done|tauto].
      * right. split; [left|done].
      * right. split; [by right|].
        apply (special_case_rule_target p m k) in Ht; [done|done|].
        intros ->. done.
    + intros [[Hk Hno]|[Hk Ht]].
      * left. split; [|tauto]. split; [by left|tauto].
      * assert (Hck : holds (diagram p) (predicate Identities) k)
          by (by apply Hcap).
        apply elem_of_cons in Hk as [->|Hk].
        -- left. split.
           ++ split; [by right|].
              intros (m0 & x & _ & _ & Hop).
              by eapply rule_target_not_operand.
           ++ intros (m0 & x & _ & _ & Hop).
              by eapply rule_target_not_operand.
        -- right. split; [done|].
           apply special_case_rule_target; [done| |done].
           intros ->. done.
Qed.

(** The working set [excluded] when the loop over [l] ends. *)
Lemma elem_of_special_cases_excluded l p k :
  k ∈ excluded (foldl (special_case Identities) p l)
  ↔ k ∈ excluded p
    ∨ (k ∈ l
       ∧ node_type <$> nodes (diagram p) !! k = Some PropertyAssertionNode).
Proof.
  revert p. induction l as [|m l IH]; intros p; simpl.
  - split; [by left|]. intros [?|[Hk _]]; [done|].
    by apply elem_of_nil in Hk.
  - rewrite IH, special_case_excluded.
    assert (Hty : node_type <$> nodes (diagram (special_case Identities p m)) !! k
                  = node_type <$> nodes (diagram p) !! k).
    { symmetry. apply special_case_same_shape. }
    rewrite Hty, elem_of_cons. split.
    + intros [[?|[-> ?]]|[? ?]]; tauto.
    + intros [?|[[->|?] ?]]; tauto.
Qed.

(** The node objects when the loop over [l] ends. *)
Lemma special_cases_nodes l p k :
  NoDup l →
  (∀ n, n ∈ l → holds (diagram p) (predicate Identities) n) →
  nodes (diagram (foldl (special_case Identities) p l)) !! k
  = match nodes (diagram p) !! k with
    | Some x =>
      if decide (k ∈ l ∧ special (node_type x))
      then Some (assigned Identities
                   (rule_identity Identities (diagram p) (node_type x) k) x)
      else Some x
    | None => None
    end.
Proof.
  intros Hnd Hcap.
  destruct (nodes (diagram p) !! k) as [x|] eqn:Hx.
  - case_decide as Hc.
    + destruct Hc as [Hk Hs]. by apply special_cases_lookup.
    + destruct (decide (k ∈ l)) as [Hk|Hk].
      * apply special_cases_lookup_plain; [done|]. tauto.
      * by rewrite special_cases_lookup_notin.
  - destruct (nodes (diagram (foldl (special_case Identities) p l)) !! k)
      as [y|] eqn:Hy; [|done].
    assert (Hsh := special_cases_same_shape Identities l p).
    destruct Hsh as [_ Hsh]. specialize (Hsh k).
    rewrite Hx, Hy in Hsh. done.
Qed.

End Order.

Section PassOrder.

Variable Identities : Item → list Identity.

Lemma rule_operand_perm d (l l' : list nat) k :
  (∀ n, n ∈ l ↔ n ∈ l') →
  rule_operand Identities d l k ↔ rule_operand Identities d l' k.
Proof.
  intros Heq. unfold rule_operand.
  split; intros (m & x & Hm & Hx & Hop); exists m, x;
    (split; [by apply Heq|done]).
Qed.

Lemma aggregate_ext (p p' : Pass) :
  diagram p = diagram p' →
  (∀ k, k ∈ strong p ↔ k ∈ strong p') →
  aggregate p = aggregate p'.
Proof.
  intros Hd Hs. unfold aggregate. apply computed_identity_set.
  intros v. rewrite !list_elem_of_fmap, Hd.
  split; intros (k & -> & Hk); exists k; (split; [done|by apply Hs]).
Qed.

Lemma assign_all_ext (d : Diagram) (l l' : list nat) (v : Identity) :
  (∀ k, k ∈ l ↔ k ∈ l') →
  assign_all Identities d l v = assign_all Identities d l' v.
Proof.
  intros Heq. apply Diagram_eq.
  - apply map_eq. intros k. rewrite !assign_all_lookup.
    destruct (decide (k ∈ l)) as [Hk|Hk].
    + rewrite decide_True; [done|by apply Heq].
    + rewrite decide_False; [done|]. intros Hk'. by apply Hk, Heq.
  - by rewrite !assign_all_edges.
Qed.

(** The loop and the final computation over two orderings of the same
    set of neutral-capable nodes. *)
Lemma special_cases_perm (d : Diagram) (st ex : list nat)
    (l l' : list nat) :
  l ≡ₚ l' →
  NoDup l →
  (∀ n, n ∈ l → holds d (predicate Identities) n) →
  let p := foldl (special_case Identities) (mkPass d st ex) l in
  let p' := foldl (special_case Identities) (mkPass d st ex) l' in
  diagram p = diagram p'
  ∧ (∀ k, k ∈ strong p ↔ k ∈ strong p')
  ∧ (∀ k, k ∈ excluded p ↔ k ∈ excluded p')
  ∧ aggregate p = aggregate p'
  ∧ assign_all Identities (diagram p) (remaining l p) (aggregate p)
    = assign_all Identities (diagram p') (remaining l' p') (aggregate p').
Proof.
  intros Hperm Hnd Hcap p p'.
  assert (Hmem : ∀ n, n ∈ l ↔ n ∈ l') by (intros n; by rewrite Hperm).
  assert (Hnd' : NoDup l') by (by rewrite <- Hperm).
  assert (Hcap' : ∀ n, n ∈ l' → holds d (predicate Identities) n)
    by (intros n Hn; by apply Hcap, Hmem).
  assert (Hd : diagram p = diagram p').
  { apply Diagram_eq.
    - apply map_eq. intros k. unfold p, p'.
      rewrite !special_cases_nodes by done. cbn [diagram].
      destruct (nodes d !! k) as [x|]; [|done].
      destruct (decide (k ∈ l ∧ special (node_type x))) as [Hc|Hc].
      + rewrite decide_True; [done|]. destruct Hc. split; [by apply Hmem|done].
      + rewrite decide_False; [done|]. intros [Hk Hs]. apply Hc.
        split; [by apply Hmem|done].
    - unfold p, p'.
      destruct (special_cases_same_shape Identities l (mkPass d st ex))
        as [<- _].
      destruct (special_cases_same_shape Identities l' (mkPass d st ex))
        as [<- _].
      done. }
  assert (Hs : ∀ k, k ∈ strong p ↔ k ∈ strong p').
  { intros k. unfold p, p'.
    rewrite !elem_of_special_cases_strong by done. cbn [diagram strong].
    rewrite (rule_operand_perm d l l' k Hmem), (Hmem k). done. }
  assert (He : ∀ k, k ∈ excluded p ↔ k ∈ excluded p').
  { intros k. unfold p, p'.
    rewrite !elem_of_special_cases_excluded. cbn [diagram excluded].
    by rewrite (Hmem k). }
  assert (Ha : aggregate p = aggregate p') by (by apply aggregate_ext).
  split; [done|]. split; [done|]. split; [done|]. split; [done|].
  rewrite <- Hd, <- Ha. apply assign_all_ext.
  intros k. rewrite !elem_of_remaining, (Hmem k), (Hs k), (He k). done.
Qed.

End PassOrder.

(** X1: the special-case loop and the final computation give the same
    result whatever the order in which the members of the weak set are
    taken: the same diagram and the same members of [strong] and
    [excluded] when the loop ends, the same aggregate, and the same diagram
    after the final assignment. *)
Theorem special_cases_order_independent
    (Identities : Item → list Identity) (d : Diagram) (st ex : list nat)
    (l l' : list nat) :
  l ≡ₚ l' →
  NoDup l →
  (∀ n, n ∈ l → holds d (predicate Identities) n) →
  let p := foldl (special_case Identities) (mkPass d st ex) l in
  let p' := foldl (special_case Identities) (mkPass d st ex) l' in
  diagram p = diagram p'
  ∧ (∀ k, k ∈ strong p ↔ k ∈ strong p')
  ∧ (∀ k, k ∈ excluded p ↔ k ∈ excluded p')
  ∧ aggregate p = aggregate p'
  ∧ assign_all Identities (diagram p) (remaining l p) (aggregate p)
    = assign_all Identities (diagram p') (remaining l' p') (aggregate p').
Proof. apply special_cases_perm. Qed.

(** X2: what the pass leaves in the nodes of the weak set.  A property
    assertion node holds the identity its own case computes; so does an
    enumeration or range restriction node for which that identity is
    stored as something other than [Neutral]; every other node holds the
    aggregate.  The members of [strong] the aggregate is computed from
    are the members of the strong set of the partition that are no operand
    of a case, and the enumeration and range restriction nodes just
    described. *)
Theorem pass_closed_form
    (Identities : Item → list Identity) (d : Diagram) (start : nat) :
  holds d (predicate Identities) start →
  let p := special_cases Identities d start in
  (∀ k x, k ∈ weak Identities d start → nodes d !! k = Some x →
          nodes (doNodeIdentification Identities d start) !! k
          = Some (assigned Identities
                    (pass_identity Identities d (aggregate p) k x) x))
  ∧ (∀ n, n ∈ strong p
          ↔ (n ∈ strong0 Identities d start
             ∧ ¬ rule_operand Identities d (weak Identities d start) n)
            ∨ (n ∈ weak Identities d start ∧ rule_target Identities d n))
  ∧ (∀ n x, n ∈ strong p → nodes d !! n = Some x →
            identity (diagram p) n
            = if decide (n ∈ weak Identities d start)
              then stored Identities (node_type x)
                     (rule_identity Identities d (node_type x) n)
              else node_identity x).
Proof.
  intros Hg p.
  assert (Hnd := NoDup_weak Identities d start).
  assert (Hcap : ∀ n, n ∈ weak Identities d start →
                      holds (diagram (mkPass d (strong0 Identities d start) []))
                            (predicate Identities) n).
  { intros n Hn. by eapply elem_of_weak_accepted. }
  assert (Hstrong : ∀ n, n ∈ strong p
          ↔ (n ∈ strong0 Identities d start
             ∧ ¬ rule_operand Identities d (weak Identities d start) n)
            ∨ (n ∈ weak Identities d start ∧ rule_target Identities d n)).
  { intros n. unfold p, special_cases.
    by rewrite elem_of_special_cases_strong. }
  assert (Hnodes : ∀ k, nodes (diagram p) !! k
    = match nodes d !! k with
      | Some x =>
        if decide (k ∈ weak Identities d start ∧ special (node_type x))
        then Some (assigned Identities
                     (rule_identity Identities d (node_type x) k) x)
        else Some x
      | None => None
      end).
  { intros k. unfold p, special_cases.
    by rewrite special_cases_nodes. }
  split; [|split; [done|]].
  - intros k x Hk Hx.
    rewrite doNodeIdentification_guarded by done. fold p.
    rewrite assign_all_lookup, Hnodes, Hx.
    assert (Hns : k ∉ strong0 Identities d start).
    { intros Hin. eapply elem_of_strong0_rejected; [done|].
      by eapply elem_of_weak_accepted. }
    assert (Hex : k ∈ excluded p
                  ↔ node_type x = PropertyAssertionNode).
    { unfold p, special_cases. rewrite elem_of_special_cases_excluded.
      cbn [diagram excluded]. rewrite Hx. simpl. split.
      - intros [Hin|[_ [= E]]]; [by apply elem_of_nil in Hin|done].
      - intros E. right. split; [done|]. by rewrite E. }
    assert (Htg : k ∈ strong p ↔ rule_target Identities d k).
    { rewrite Hstrong. tauto. }
    assert (Htg' : rule_target Identities d k
                   ↔ node_type x ∈ [EnumerationNode; RangeRestrictionNode]
                     ∧ stored Identities (node_type x)
                         (rule_identity Identities d (node_type x) k)
                       ≠ Neutral).
    { unfold rule_target. split.
      - intros (x0 & Hx0 & H1 & H2). rewrite Hx in Hx0.
        by injection Hx0 as <-.
      - intros [H1 H2]. by exists x. }
    unfold pass_identity.
    destruct (decide (node_type x = PropertyAssertionNode
             ∨ (node_type x ∈ [EnumerationNode; RangeRestrictionNode]
                ∧ stored Identities (node_type x)
                    (rule_identity Identities d (node_type x) k) ≠ Neutral)))
      as [Hown|Hagg].
    + assert (Hsp : special (node_type x)).
      { apply special_iff. destruct Hown as [?|[Ht _]]; [tauto|].
        rewrite !elem_of_cons, elem_of_nil in Ht. tauto. }
      rewrite (decide_True (P := k ∈ weak Identities d start ∧ _)) by done.
      rewrite decide_False; [done|].
      rewrite elem_of_remaining.
      intros (_ & Hno1 & Hno2). destruct Hown as [Hpa|Ht].
      * by apply Hno2, Hex.
      * by apply Hno1, Htg, Htg'.
    + rewrite decide_True; cycle 1.
      { rewrite elem_of_remaining. split; [done|]. split.
        - rewrite Htg, Htg'. tauto.
        - rewrite Hex. tauto. }
      by case_decide.
  - intros n x Hn Hx. unfold identity. rewrite Hnodes, Hx.
    apply Hstrong in Hn as [[Hn _]|[Hn (x0 & Hx0 & Ht & _)]].
    + assert (Hnw : n ∉ weak Identities d start).
      { intros Hin. eapply elem_of_strong0_rejected; [done|].
        by eapply elem_of_weak_accepted. }
      rewrite decide_False by tauto. by rewrite decide_False.
    + rewrite Hx in Hx0. injection Hx0 as <-.
      assert (Hsp : special (node_type x)).
      { apply special_iff. rewrite !elem_of_cons, elem_of_nil in Ht. tauto. }
      rewrite decide_True by done. by rewrite decide_True.
Qed.

(** ** The special cases within a pass *)

Section InPass.

Variable Identities : Item → list Identity.

(** The iterations of the loop leave what the cases compute as it was
    when the loop started. *)
Lemma special_cases_rule l p t node :
  (∀ k, k ∈ l → holds (diagram p) (predicate Identities) k) →
  rule_operands Identities (diagram (foldl (special_case Identities) p l))
    t node
  = rule_operands Identities (diagram p) t node
  ∧ rule_identity Identities (diagram (foldl (special_case Identities) p l))
      t node
    = rule_identity Identities (diagram p) t node.
Proof.
  revert p. induction l as [|m l IH]; intros p Hcap; simpl; [done|].
  destruct (IH (special_case Identities p m)) as [-> ->].
  - intros k Hk. rewrite holds_special_case by apply predicate_by_type.
    apply Hcap. by right.
  - apply special_case_rule. apply Hcap. left.
Qed.

(** The node of an iteration of the pass: it is none of the nodes taken
    before it, and the loop has not written it. *)
Lemma node_in_pass d start node x l1 l2 :
  weak Identities d start = l1 ++ node :: l2 →
  nodes d !! node = Some x →
  let p0 := mkPass d (strong0 Identities d start) [] in
  (∀ k, k ∈ l1 → holds (diagram p0) (predicate Identities) k)
  ∧ NoDup l1 ∧ (node ∉ l1)
  ∧ node ∈ weak Identities d start
  ∧ nodes (diagram (foldl (special_case Identities) p0 l1)) !! node
    = Some x.
Proof.
  intros Hweak Hx p0.
  pose proof (NoDup_weak Identities d start) as Hnd.
  rewrite Hweak in Hnd. apply NoDup_app in Hnd as (Hnd1 & Hdisj & Hnd2).
  assert (Hnot : node ∉ l1).
  { intros Hin. apply (Hdisj node Hin). left. }
  split; [|split; [done|split; [done|split]]].
  - intros k Hk. apply (elem_of_weak_accepted Identities d start).
    rewrite Hweak. apply elem_of_app. by left.
  - rewrite Hweak. apply elem_of_app. right. left.
  - by rewrite special_cases_lookup_notin.
Qed.

(** The iteration of the pass at a node that has a case does what the
    case does on the diagram the pass started from, with the working sets
    the iterations before it left. *)
Lemma special_case_in_pass d start node x l1 l2 :
  weak Identities d start = l1 ++ node :: l2 →
  nodes d !! node = Some x → special (node_type x) →
  let before := foldl (special_case Identities)
                      (mkPass d (strong0 Identities d start) []) l1 in
  let after := special_case Identities before node in
  let p' := special_case Identities
              (mkPass d (strong before) (excluded before)) node in
  strong after = strong p'
  ∧ excluded after = excluded p'
  ∧ identity (diagram after) node = identity (diagram p') node
  ∧ identity (diagram after) node
    = stored Identities (node_type x)
        (rule_identity Identities d (node_type x) node).
Proof.
  intros Hweak Hx Hs before after p'.
  destruct (node_in_pass d start node x l1 l2 Hweak Hx)
    as (Hcap & _ & _ & _ & Hx').
  fold before in Hx'.
  destruct (special_cases_rule l1
              (mkPass d (strong0 Identities d start) []) (node_type x) node
              Hcap) as [Hops Hid].
  fold before in Hops, Hid. cbn [diagram] in Hops, Hid.
  assert (Hafter : identity (diagram after) node
                   = stored Identities (node_type x)
                       (rule_identity Identities d (node_type x) node)).
  { unfold identity, after.
    rewrite (special_case_lookup Identities before node x) by done.
    by rewrite Hid. }
  assert (Hp' : identity (diagram p') node
                = stored Identities (node_type x)
                    (rule_identity Identities d (node_type x) node)).
  { unfold identity, p'.
    by rewrite (special_case_lookup Identities _ node x). }
  split; [|split; [|split; [congruence|done]]].
  - unfold after, p'. rewrite !special_case_eq. cbn [diagram].
    rewrite Hx', Hx. cbn [fmap option_fmap option_map].
    destruct (decide (special (node_type x))) as [_|?]; [|done].
    cbv zeta. cbn [strong].
    rewrite Hops, Hid.
    rewrite (setIdentity_identity Identities (diagram before) node _ x)
      by done.
    by rewrite (setIdentity_identity Identities d node _ x) by done.
  - unfold after, p'. rewrite !special_case_eq. cbn [diagram].
    rewrite Hx', Hx. cbn [fmap option_fmap option_map].
    by destruct (decide (special (node_type x))).
Qed.

(** The identity a node that has a case holds when the loop ends. *)
Lemma special_cases_identity d start node x :
  node ∈ weak Identities d start →
  nodes d !! node = Some x → special (node_type x) →
  identity (diagram (special_cases Identities d start)) node
  = stored Identities (node_type x)
      (rule_identity Identities d (node_type x) node).
Proof.
  intros Hin Hx Hs. unfold identity, special_cases.
  rewrite (special_cases_lookup Identities _ _ node x);
    [done|apply NoDup_weak| |done|done|done].
  intros k Hk. by apply elem_of_weak_accepted in Hk.
Qed.

(** The members of [strong] when the loop ends, among the nodes of the
    weak set and the operands of the cases. *)
Lemma special_cases_strong_weak d start node :
  holds d (predicate Identities) start →
  node ∈ weak Identities d start →
  node ∈ strong (special_cases Identities d start)
  ↔ rule_target Identities d node.
Proof.
  intros Hg Hin. unfold special_cases.
  rewrite elem_of_special_cases_strong;
    [|apply NoDup_weak
     |intros n Hn; by apply elem_of_weak_accepted in Hn].
  cbn [diagram strong].
  destruct (weak_strong0 Identities d start Hg) as [_ ->].
  split.
  - intros [[Hnil _]|[_ Ht]]; [by apply elem_of_nil in Hnil|done].
  - intros Ht. by right.
Qed.

Lemma special_cases_strong_operand d start node x k :
  holds d (predicate Identities) start →
  node ∈ weak Identities d start →
  nodes d !! node = Some x →
  k ∈ rule_operands Identities d (node_type x) node →
  k ∉ strong (special_cases Identities d start).
Proof.
  intros Hg Hin Hx Hk. unfold special_cases.
  rewrite elem_of_special_cases_strong;
    [|apply NoDup_weak
     |intros n Hn; by apply elem_of_weak_accepted in Hn].
  cbn [diagram strong].
  intros [[_ Hno]|[Hkw Ht]].
  - apply Hno. exists node, x. done.
  - apply elem_of_weak_accepted in Hkw.
    by apply (rule_target_not_operand Identities d (node_type x) node k).
Qed.

(** What the pass leaves in a node of the weak set that has a case. *)
Lemma doNodeIdentification_identity d start node x :
  holds d (predicate Identities) start →
  node ∈ weak Identities d start →
  nodes d !! node = Some x → special (node_type x) →
  let p := special_cases Identities d start in
  identity (doNodeIdentification Identities d start) node
  = if decide (node ∈ strong p ∨ node ∈ excluded p)
    then identity (diagram p) node
    else stored Identities (node_type x) (aggregate p).
Proof.
  intros Hg Hin Hx Hs p.
  assert (Hp : nodes (diagram p) !! node
               = Some (assigned Identities
                         (rule_identity Identities d (node_type x) node) x)).
  { unfold p, special_cases.
    rewrite (special_cases_lookup Identities _ _ node x);
      [done|apply NoDup_weak| |done|done|done].
    intros k Hk. by apply elem_of_weak_accepted in Hk. }
  unfold identity at 1. rewrite doNodeIdentification_guarded by done.
  rewrite assign_all_lookup. fold p.
  destruct (decide (node ∈ strong p ∨ node ∈ excluded p)) as [Hor|Hor].
  - rewrite decide_False; [done|].
    rewrite elem_of_remaining. tauto.
  - rewrite decide_True by (rewrite elem_of_remaining; tauto).
    rewrite Hp. done.
Qed.

End InPass.

(** C4 (as amended).  A range restriction node processed in the weak set
    during a pass.  In the iteration of the loop that takes the node, its
    operands are the nodes that reach it over an input edge, hold one of
    the identities [Role], [Attribute], [Concept] and are not
    neutral-capable (their capability set lacks [Neutral]); they are the
    operands of the diagram the pass started from, with the identities
    they had there.  Each is mapped to [Concept] when its identity is
    [Role] or [Concept] and to [ValueDomain] otherwise, so an operand of
    identity [Attribute] maps to [ValueDomain]; the iteration assigns the
    node [Neutral], the common mapped identity or [Unknown] as the operands
    map to nothing, to one identity or to several, adds the node to
    [strong] when the identity it then holds is not [Neutral], and
    discards the operands from [strong].  When the loop ends the node
    holds the identity the iteration assigned, is in [strong] exactly when
    that identity is not [Neutral], is not in [excluded], and its operands
    are outside of [strong]; when the pass ends the node holds the
    identity of the iteration, or the stored aggregate when that identity
    is [Neutral]. *)
Theorem range_restriction_rule (Identities : Item → list Identity)
    (d : Diagram) (start node : nat) (l1 l2 : list nat) (x : Node) :
  holds d (predicate Identities) start →
  weak Identities d start = l1 ++ node :: l2 →
  nodes d !! node = Some x →
  node_type x = RangeRestrictionNode →
  let operands := incomingNodes d node f1 (f4 Identities) in
  let before := foldl (special_case Identities)
                      (mkPass d (strong0 Identities d start) []) l1 in
  let after := special_case Identities before node in
  let p := special_cases Identities d start in
  (∀ k, k ∈ operands
        ↔ (∃ y, nodes d !! k = Some y
                ∧ node_identity y ∈ [Role; Attribute; Concept]
                ∧ Neutral ∉ Identities (node_type y))
          ∧ ∃ e, e ∈ edges d ∧ source e = k ∧ target e = node
                 ∧ edge_type e = InputEdge)
  ∧ incomingNodes (diagram before) node f1 (f4 Identities) = operands
  ∧ (∀ k, k ∈ operands → nodes (diagram before) !! k = nodes d !! k)
  ∧ (∀ y, c2 y = if decide (node_identity y ∈ [Role; Concept])
                 then Concept else ValueDomain)
  ∧ (∀ y, node_identity y = Attribute → c2 y = ValueDomain)
  ∧ (operands = [] → identity (diagram after) node = Neutral)
  ∧ (∀ X, operands ≠ [] →
          (∀ k y, k ∈ operands → nodes d !! k = Some y → c2 y = X) →
          identity (diagram after) node
          = stored Identities RangeRestrictionNode X)
  ∧ (∀ X, X ∈ Identities RangeRestrictionNode →
          stored Identities RangeRestrictionNode X = X)
  ∧ (∀ k1 k2 y1 y2, k1 ∈ operands → k2 ∈ operands →
          nodes d !! k1 = Some y1 → nodes d !! k2 = Some y2 →
          c2 y1 ≠ c2 y2 → identity (diagram after) node = Unknown)
  ∧ (∀ k, k ∈ strong after
          ↔ (k ∈ strong before
             ∨ k = node ∧ identity (diagram after) node ≠ Neutral)
            ∧ k ∉ operands)
  ∧ excluded after = excluded before
  ∧ identity (diagram p) node = identity (diagram after) node
  ∧ (node ∈ strong p ↔ identity (diagram after) node ≠ Neutral)
  ∧ (∀ k, k ∈ operands → k ∉ strong p)
  ∧ (node ∉ excluded p)
  ∧ identity (doNodeIdentification Identities d start) node
    = if decide (identity (diagram after) node = Neutral)
      then stored Identities RangeRestrictionNode (aggregate p)
      else identity (diagram after) node.
Proof.
  intros Hg Hweak Hx Ht operands before after p.
  assert (Hs : special (node_type x)).
  { apply special_iff. rewrite Ht. tauto. }
  destruct (node_in_pass Identities d start node x l1 l2 Hweak Hx)
    as (Hcap1 & Hnd1 & Hnot & Hin & Hx').
  fold before in Hx'.
  assert (Hcap : Neutral ∈ Identities RangeRestrictionNode).
  { apply elem_of_weak_accepted in Hin. unfold holds in Hin.
    rewrite Hx in Hin. apply bool_decide_unpack in Hin.
    by rewrite Ht in Hin. }
  destruct (special_case_in_pass Identities d start node x l1 l2 Hweak Hx
              Hs) as (Hst & Hex & Hid & Hval).
  fold before in Hst, Hex, Hid, Hval. fold after in Hst, Hex, Hid, Hval.
  destruct (range_restriction_iteration Identities d (strong before)
              (excluded before) node x Hx Ht Hcap)
    as (Hops & Hc2 & Hattr & Hnil & Hone & Hstored & Hmany & Hstrong
        & Hexcl).
  fold operands in Hops, Hnil, Hone, Hmany, Hstrong.
  destruct (special_cases_rule Identities l1
              (mkPass d (strong0 Identities d start) [])
              RangeRestrictionNode node Hcap1) as [Hrops _].
  fold before in Hrops. cbn [diagram rule_operands] in Hrops.
  assert (Hend : identity (diagram p) node = identity (diagram after) node).
  { unfold p. rewrite (special_cases_identity Identities d start node x)
      by done. by rewrite Hval. }
  assert (Htarget : rule_target Identities d node
                    ↔ identity (diagram after) node ≠ Neutral).
  { rewrite Hval. unfold rule_target. split.
    - intros (y & Hy & _ & Hne). rewrite Hx in Hy. by injection Hy as <-.
    - intros Hne. exists x. split; [done|]. split; [|done].
      rewrite Ht. right. left. }
  assert (Hsp : node ∈ strong p
                ↔ identity (diagram after) node ≠ Neutral).
  { unfold p. by rewrite special_cases_strong_weak. }
  assert (Hnex : node ∉ excluded p).
  { unfold p, special_cases. rewrite elem_of_special_cases_excluded.
    cbn [diagram excluded]. intros [Hnil'|[_ Hty]].
    - by apply elem_of_nil in Hnil'.
    - rewrite Hx in Hty. simpl in Hty. rewrite Ht in Hty. done. }
  split; [done|]. split; [done|]. split.
  { intros k Hk. unfold before. apply special_cases_lookup_notin.
    intros Hk1. apply Hcap1 in Hk1. cbn [diagram] in Hk1.
    apply Hops in Hk as [(y & Hy & _ & Hno) _].
    unfold holds in Hk1. rewrite Hy in Hk1.
    by apply bool_decide_unpack in Hk1. }
  split; [done|]. split; [done|].
  split; [by rewrite Hid|].
  split; [intros X Hne Hall; rewrite Hid; by apply Hone|].
  split; [done|].
  split; [intros k1 k2 y1 y2 H1 H2 H3 H4 H5; rewrite Hid;
          exact (Hmany k1 k2 y1 y2 H1 H2 H3 H4 H5)|].
  split; [intros k; rewrite Hst, Hid; apply Hstrong|].
  split; [by rewrite Hex|].
  split; [done|]. split; [done|]. split.
  { intros k Hk.
    apply (special_cases_strong_operand Identities d start node x);
      [done|done|done|]. by rewrite Ht. }
  split; [done|].
  rewrite (doNodeIdentification_identity Identities d start node x)
    by done.
  fold p. rewrite Ht.
  destruct (decide (identity (diagram after) node = Neutral)) as [E|E].
  - rewrite decide_False; [done|]. rewrite Hsp. tauto.
  - rewrite decide_True by (left; by apply Hsp). done.
Qed.


(** ** The traversal collects the accepted nodes joined to its source *)

Section Reach.

Variable Identities : Item → list Identity.

Lemma elem_of_adjacentNodes d n m :
  m ∈ adjacentNodes d n
  ↔ ∃ e, e ∈ edges d ∧ (source e = n ∨ target e = n) ∧ m = other e n.
Proof.
  unfold adjacentNodes. rewrite list_elem_of_fmap.
  split; intros (e & H1 & H2); exists e.
  - apply list_elem_of_filter in H2. tauto.
  - split; [tauto|]. apply list_elem_of_filter. tauto.
Qed.

(** Edges are followed in both directions. *)
Lemma adjacentNodes_sym d n m :
  m ∈ adjacentNodes d n → n ∈ adjacentNodes d m.
Proof.
  rewrite !elem_of_adjacentNodes. intros (e & He & Hinc & ->).
  exists e. split; [done|]. unfold other.
  destruct (decide (source e = n)) as [Hs|Hs].
  - split; [by right|].
    destruct (decide (source e = target e)) as [Hst|Hst]; congruence.
  - destruct Hinc as [?|Ht]; [done|]. split; [by left|].
    rewrite decide_True by done. done.
Qed.

(** Every node the traversal collects is joined to its source by a path
    of accepted nodes. *)
Lemma bfs_loop_sound d p src fuel (queue ordered C : list nat) :
  (∀ n, n ∈ ordered → rtc (crossing d p) src n) →
  (∀ n, n ∈ queue → n ∈ ordered) →
  bfs_loop d p fuel queue ordered = Some C →
  ∀ n, n ∈ C → rtc (crossing d p) src n.
Proof.
  revert queue ordered.
  induction fuel as [|fuel IH]; intros queue ordered Hord Hq Hrun;
    destruct queue as [|q queue]; simpl in Hrun; try done.
  - injection Hrun as <-. done.
  - injection Hrun as <-. done.
  - eapply IH; [| |exact Hrun].
    + intros n Hn. apply elem_of_app in Hn as [Hn|Hn]; [by apply Hord|].
      apply elem_of_remove_dups, list_elem_of_filter in Hn
        as [[Hh _] Hadj].
      eapply rtc_r; [apply Hord, Hq; left|]. done.
    + intros n Hn. apply elem_of_app. apply elem_of_app in Hn as [Hn|Hn].
      * left. apply Hq. by right.
      * by right.
Qed.

Lemma crossing_back d p a b :
  holds d p a → rtc (crossing d p) a b → rtc (crossing d p) b a.
Proof.
  intros Ha Hab. induction Hab as [a|a b c [Hadj Hb] Hbc IH]; [done|].
  eapply rtc_r; [by apply IH|]. split; [|done].
  by apply adjacentNodes_sym.
Qed.

(** From an accepted source, the traversal collects exactly the nodes
    joined to it. *)
Lemma elem_of_bfs d p source n :
  holds d p source →
  n ∈ bfs d source p ↔ rtc (crossing d p) source n.
Proof.
  intros Hsrc.
  destruct (bfs_returns d p source Hsrc) as (C & HC & -> & Hin & _ & Hcl).
  split.
  - apply (bfs_loop_sound d p source (size (nodes d)) [source] [source] C);
      [|done|done].
    intros m Hm. apply list_elem_of_singleton in Hm as ->. done.
  - revert n. apply rtc_ind_r; [done|].
    intros b c _ [Hadj Hb] IH. by apply (Hcl b c).
Qed.

(** Two accepted nodes of which one is collected from the other give the
    same collected set. *)
Lemma bfs_same_set d p n m k :
  holds d p n → m ∈ bfs d n p →
  k ∈ bfs d m p ↔ k ∈ bfs d n p.
Proof.
  intros Hn Hm.
  assert (Hhm : holds d p m).
  { destruct (bfs_returns d p n Hn) as (C & _ & E & _ & Hall & _).
    rewrite E in Hm. by apply Hall. }
  apply (elem_of_bfs d p n m Hn) in Hm.
  rewrite (elem_of_bfs d p n k Hn), (elem_of_bfs d p m k Hhm).
  split; intros Hk.
  - by etrans.
  - etrans; [|exact Hk]. by apply crossing_back.
Qed.

(** The pass gives the same diagram from every node of the set it
    collects. *)
Lemma doNodeIdentification_start d n m :
  holds d (predicate Identities) n →
  m ∈ collection Identities d n →
  doNodeIdentification Identities d m = doNodeIdentification Identities d n.
Proof.
  intros Hn Hm.
  assert (Hhm : holds d (predicate Identities) m).
  { by apply (collection_returns Identities d n Hn). }
  rewrite !doNodeIdentification_guarded by done.
  unfold special_cases.
  destruct (weak_strong0 Identities d n Hn) as [_ ->].
  destruct (weak_strong0 Identities d m Hhm) as [_ ->].
  assert (Hperm : weak Identities d m ≡ₚ weak Identities d n).
  { apply NoDup_Permutation; [apply NoDup_weak|apply NoDup_weak|].
    intros k. rewrite (elem_of_weak Identities d m k Hhm),
                      (elem_of_weak Identities d n k Hn).
    by apply bfs_same_set. }
  apply (special_cases_perm Identities d [] []); [done|apply NoDup_weak|].
  intros k Hk. by eapply elem_of_weak_accepted.
Qed.

(** A second pass from a node of the collected set changes nothing. *)
Lemma doNodeIdentification_again d n m :
  (∀ t, t ∈ operand_classes → Neutral ∉ Identities t) →
  holds d (predicate Identities) n →
  m ∈ collection Identities d n →
  doNodeIdentification Identities (doNodeIdentification Identities d n) m
  = doNodeIdentification Identities d n.
Proof.
  intros Hwf Hn Hm.
  set (d' := doNodeIdentification Identities d n).
  assert (Hsh : same_shape d d') by apply doNodeIdentification_same_shape.
  assert (Hn' : holds d' (predicate Identities) n).
  { rewrite <- (holds_by_type d d'); [done|done|apply predicate_by_type]. }
  assert (Hm' : m ∈ collection Identities d' n).
  { unfold collection. rewrite <- (bfs_same_shape d d'); [done|done|].
    apply predicate_by_type. }
  rewrite (doNodeIdentification_start d' n m Hn' Hm').
  unfold d'. symmetry.
  apply doNodeIdentification_agree; [done|done|].
  split; [done|]. intros k Hk. symmetry.
  by apply doNodeIdentification_lookup_notin.
Qed.

(** An accepted neighbour of an accepted node is collected from it. *)
Lemma neighbour_collected d n m :
  holds d (predicate Identities) n →
  holds d (predicate Identities) m →
  m ∈ adjacentNodes d n →
  m ∈ collection Identities d n.
Proof.
  intros Hn Hm Hadj. unfold collection.
  apply elem_of_bfs; [done|]. apply rtc_once. done.
Qed.

Lemma edge_adjacent d e :
  e ∈ edges d → target e ∈ adjacentNodes d (source e).
Proof.
  intros He. apply elem_of_adjacentNodes. exists e.
  split; [done|]. split; [by left|]. unfold other.
  by rewrite decide_True.
Qed.

(** The two passes a connection change runs, on a diagram that holds the
    edge. *)
Lemma onConnectionChanged_edge d e :
  (∀ t, t ∈ operand_classes → Neutral ∉ Identities t) →
  e ∈ edges d →
  onConnectionChanged Identities d (inr e)
  = if decide (holds d (predicate Identities) (source e))
    then doNodeIdentification Identities d (source e)
    else doNodeIdentification Identities d (target e).
Proof.
  intros Hwf He. unfold onConnectionChanged. cbn [foldl].
  destruct (decide (holds d (predicate Identities) (source e))) as [Hs|Hs].
  - set (d' := doNodeIdentification Identities d (source e)).
    destruct (decide (holds d (predicate Identities) (target e)))
      as [Ht|Ht].
    + apply doNodeIdentification_again; [done|done|].
      apply neighbour_collected; [done|done|]. by apply edge_adjacent.
    + apply doNodeIdentification_unguarded.
      rewrite <- (holds_by_type d d'); [done| |apply predicate_by_type].
      apply doNodeIdentification_same_shape.
  - by rewrite (doNodeIdentification_unguarded Identities d (source e)).
Qed.

End Reach.

(** X3: the identification pass does not depend on the node it starts
    from: started from any node of the set it collects, it leaves the
    same diagram. *)
Theorem identification_start_independent
    (Identities : Item → list Identity) (d : Diagram) (n m : nat) :
  holds d (predicate Identities) n →
  m ∈ collection Identities d n →
  (∀ k, k ∈ collection Identities d m ↔ k ∈ collection Identities d n)
  ∧ doNodeIdentification Identities d m
    = doNodeIdentification Identities d n.
Proof.
  intros Hn Hm. split.
  - intros k. by apply bfs_same_set.
  - by apply doNodeIdentification_start.
Qed.

(** X4: a connection change on a diagram that holds the edge.  The two
    passes that [onConnectionChanged] runs amount to one: the pass from
    the source when the source is neutral-capable, the pass from the
    target otherwise; when both ends are neutral-capable the pass from the
    target gives the same diagram; and a second delivery of the signal
    changes nothing. *)
Theorem onConnectionChanged_single_pass
    (Identities : Item → list Identity) (d : Diagram) (e : Edge) :
  Forall (λ t, Neutral ∉ Identities t) operand_classes →
  e ∈ edges d →
  let d' := onConnectionChanged Identities d (inr e) in
  (holds d (predicate Identities) (source e) →
   d' = doNodeIdentification Identities d (source e))
  ∧ (holds d (predicate Identities) (target e) →
     d' = doNodeIdentification Identities d (target e))
  ∧ (¬ holds d (predicate Identities) (source e) →
     ¬ holds d (predicate Identities) (target e) → d' = d)
  ∧ onConnectionChanged Identities d' (inr e) = d'.
Proof.
  intros Hwf He d'. rewrite Forall_forall in Hwf.
  assert (E : d' = if decide (holds d (predicate Identities) (source e))
                   then doNodeIdentification Identities d (source e)
                   else doNodeIdentification Identities d (target e))
    by (by apply onConnectionChanged_edge).
  assert (Hst : holds d (predicate Identities) (source e) →
                holds d (predicate Identities) (target e) →
                doNodeIdentification Identities d (target e)
                = doNodeIdentification Identities d (source e)).
  { intros Hs Ht. apply doNodeIdentification_start; [done|].
    apply neighbour_collected; [done|done|]. by apply edge_adjacent. }
  split; [|split; [|split]].
  - intros Hs. by rewrite E, decide_True.
  - intros Ht. rewrite E. case_decide as Hs; [|done]. symmetry. by apply Hst.
  - intros Hs Ht. rewrite E, decide_False by done.
    by apply doNodeIdentification_unguarded.
  - assert (Hsh : same_shape d d').
    { rewrite E. case_decide; apply doNodeIdentification_same_shape. }
    assert (He' : e ∈ edges d') by (by rewrite <- (proj1 Hsh)).
    rewrite (onConnectionChanged_edge Identities d' e Hwf He').
    assert (Hh : ∀ k, holds d' (predicate Identities) k
                      = holds d (predicate Identities) k).
    { intros k. symmetry. apply holds_by_type; [done|].
      apply predicate_by_type. }
    rewrite !Hh.
    destruct (decide (holds d (predicate Identities) (source e)))
      as [Hs|Hs].
    + rewrite E.
      apply doNodeIdentification_again; [done|done|].
      by apply collection_returns.
    + destruct (decide (holds d (predicate Identities) (target e)))
        as [Ht|Ht].
      * rewrite E.
        apply doNodeIdentification_again; [done|done|].
        by apply collection_returns.
      * rewrite E.
        by rewrite !(doNodeIdentification_unguarded Identities d (target e))
          by done.
Qed.

(** ** The OWL 2 export worker *)

Section Calls.

Import worker.

Lemma bind_Returns {A B} (m : M A) (f : A → M B) self b self' :
  (m ≫= f) self = Returns b self'
  ↔ ∃ a s, m self = Returns a s ∧ f a s = Returns b self'.
Proof.
  unfold mbind, M_bind. destruct (m self) as [a s| |].
  - split; [eauto|]. by intros (? & ? & [= <- <-] & ?).
  - split; [done|]. by intros (? & ? & ? & _).
  - split; [done|]. by intros (? & ? & ? & _).
Qed.

Lemma bind_Returns_l {A B} (m : M A) (f : A → M B) self a s :
  m self = Returns a s → (m ≫= f) self = f a s.
Proof. unfold mbind, M_bind. by intros ->. Qed.

Lemma bind_Raises_l {A B} (m : M A) (f : A → M B) self e :
  m self = Raises e → (m ≫= f) self = Raises e.
Proof. unfold mbind, M_bind. by intros ->. Qed.

Section Respects.

Context (R : relation Worker) `{!PreOrder R}.

Lemma respects_ret {A} (a : A) : respects R (mret a).
Proof. intros self a' self' [= _ <-]. done. Qed.

Lemma respects_raise {A} e : respects R (@raise A e).
Proof. intros self a self' [=]. Qed.

Lemma respects_bind {A B} (m : M A) (f : A → M B) :
  respects R m → (∀ a, respects R (f a)) → respects R (m ≫= f).
Proof.
  intros Hm Hf self b self' (a & s & H1 & H2)%bind_Returns.
  etrans; [by eapply Hm|by eapply Hf].
Qed.

End Respects.

Lemma ret_Returns {A} (a b : A) self self' :
  (mret a : M A) self = Returns b self' ↔ a = b ∧ self = self'.
Proof.
  unfold mret, M_ret. split; [by intros [= -> ->]|by intros [-> ->]].
Qed.

Lemma raise_Returns {A} e (b : A) self self' :
  (raise e : M A) self = Returns b self' ↔ False.
Proof. done. Qed.

Lemma run_all_app oracle l1 l2 self s self' :
  run_all oracle l1 self s → run_all oracle l2 s self' →
  run_all oracle (l1 ++ l2) self self'.
Proof.
  revert self. induction l1 as [|m l1 IH]; intros self; simpl.
  - by intros ->.
  - intros (e & s1 & H1 & H2) H3. exists e, s1. split; [done|]. by apply IH.
Qed.

End Calls.

(** Steps through the text of a builder. *)
Ltac respects_step :=
  match goal with
  | |- respects _ (mret _) => apply respects_ret; apply _
  | |- respects _ (worker.raise _) => apply respects_raise
  | |- respects _ (_ ≫= _) => apply respects_bind; [apply _| |intros ?]
  | |- respects _ (if ?c then _ else _) => destruct c
  | |- respects _ (match ?x with _ => _ end) => destruct x
  | H : ∀ n, respects _ (?c n) |- respects _ (?c _) => apply H
  end.

(** Steps back from a call that returned. *)
Ltac returned_step :=
  match goal with
  | H : worker.raise _ _ = worker.Returns _ _ |- _ => discriminate H
  | H : (if ?c then _ else _) _ = worker.Returns _ _ |- _ => destruct c
  | H : (_ ≫= _) _ = worker.Returns _ _ |- _ =>
    apply bind_Returns in H as (? & ? & ? & H)
  | H : mret _ _ = worker.Returns _ _ |- _ =>
    apply ret_Returns in H as [? ?]; subst
  | H : (match ?x with _ => _ end) _ = worker.Returns _ _ |- _ =>
    destruct x eqn:?
  end.

Section Builders.

Import worker.

Variable d : Diagram.
Variable prefix : string.
Variable OWLShortIRI : string → string → string.
Variable text : nat → string.
Variable special : nat → option Special.t.
Variable datatype : nat → option Datatype.t.
Variable value : nat → string.
Variable facet : nat → option Facet.t.
Variable inputs : nat → list nat.
Variable restriction : nat → Restriction.t.
Variable cardinality : nat → string → option nat.

Section Relation.

Context (R : relation Worker) `{!PreOrder R}.
Variable self_convert : nat → M OWLObject.
Hypothesis Hconvert : ∀ n, respects R (self_convert n).

Lemma respects_getOWLApiDatatype o : respects R (getOWLApiDatatype o).
Proof.
  destruct o as [[]|]; first [by apply respects_ret|apply respects_raise].
Qed.

Lemma respects_getOWLApiFacet o : respects R (getOWLApiFacet o).
Proof.
  destruct o as [[]|]; first [by apply respects_ret|apply respects_raise].
Qed.

Lemma respects_add_converted operands collection :
  respects R (add_converted self_convert operands collection).
Proof.
  revert collection. induction operands as [|i operands IH];
    intros collection; simpl; repeat respects_step; try apply IH.
Qed.

Lemma respects_others node ids : respects R (others d node ids).
Proof.
  induction ids as [|i ids IH]; simpl; repeat respects_step; try apply IH.
Qed.

Lemma respects_append_individuals node operands collection :
  respects R (append_individuals d self_convert node operands collection).
Proof.
  revert collection. induction operands as [|i operands IH];
    intros collection; simpl; repeat respects_step; try apply IH.
Qed.

Lemma respects_add_roles node operands collection :
  respects R (add_roles d self_convert node operands collection).
Proof.
  revert collection. induction operands as [|i operands IH];
    intros collection; simpl; repeat respects_step; try apply IH.
Qed.

Lemma respects_build node :
  respects R
    (build d prefix OWLShortIRI text special datatype value facet inputs
           restriction cardinality self_convert node).
Proof.
  unfold build.
  destruct (type d node) as [[]|]; try apply respects_raise; try done;
    unfold getConcept, getAttribute, getRole, getValueDomain,
      getIndividual, getFacet, getRoleInverse, getRoleChain, getComplement,
      getEnumeration, getIntersection, getUnion, getDatatypeRestriction,
      getPropertyAssertion, getDomainRestriction, getRangeRestriction;
    cbv zeta;
    repeat first
      [ respects_step
      | apply respects_getOWLApiDatatype
      | apply respects_getOWLApiFacet
      | apply respects_add_converted
      | apply respects_others
      | apply respects_append_individuals
      | apply respects_add_roles ].
Qed.

End Relation.

(** *** [convert] *)

Abbreviation convert :=
  (worker.convert d prefix OWLShortIRI text special datatype value facet
                  inputs restriction cardinality).
Abbreviation build :=
  (worker.build d prefix OWLShortIRI text special datatype value facet
                inputs restriction cardinality).

Lemma convert_cached fuel node self e :
  _converted self !! node = Some e →
  convert fuel node self = Returns e self.
Proof. intros H. destruct fuel; simpl; by rewrite H. Qed.

Lemma convert_S fuel node self :
  _converted self !! node = None →
  convert (S fuel) node self
  = (e ← build (convert fuel) node; store node e) self.
Proof. intros H. simpl. by rewrite H. Qed.

Lemma convert_0 node self :
  _converted self !! node = None → convert 0 node self = Unfinished.
Proof. intros H. simpl. by rewrite H. Qed.

(** *** The calls a builder makes before it returns *)

Section Needed.

Variable oracle : nat → M OWLObject.

Lemma getOWLApiDatatype_Returns o self e s :
  getOWLApiDatatype o self = Returns e s →
  s = self ∧ ∃ name, e = OWLDatatype name.
Proof.
  destruct o as [[]|]; [| | | | | | | | | | | | | | | | | | | | | | | | | | | | | | | | | |done];
    intros [<- <-]%ret_Returns; eauto.
Qed.

Lemma getOWLApiFacet_Returns o self e s :
  getOWLApiFacet o self = Returns e s →
  s = self ∧ ∃ name, e = OWLFacet name.
Proof.
  destruct o as [[]|]; [| | | | | | | | |done];
    intros [<- <-]%ret_Returns; eauto.
Qed.

Lemma add_converted_run operands collection self c s :
  add_converted oracle operands collection self = Returns c s →
  run_all oracle operands self s.
Proof.
  revert collection self. induction operands as [|i operands IH];
    intros collection self; simpl.
  - by intros [_ ->]%ret_Returns.
  - intros (e & s1 & H1 & H2)%bind_Returns. exists e, s1.
    split; [done|]. by eapply IH.
Qed.

Lemma others_Returns node ids self l s :
  others d node ids self = Returns l s →
  s = self ∧ l = omap (λ i, (λ e, other e node) <$> edge d i) ids.
Proof.
  revert self l. induction ids as [|i ids IH]; intros self l; simpl.
  - by intros [<- ->]%ret_Returns.
  - destruct (edge d i) as [e|]; [|done].
    intros (l' & s1 & H1 & H2)%bind_Returns.
    apply ret_Returns in H2 as [<- <-]. apply IH in H1 as [-> ->]. done.
Qed.

Lemma append_individuals_run node operands collection self c s :
  append_individuals d oracle node operands collection self = Returns c s →
  run_all oracle operands self s.
Proof.
  revert collection self. induction operands as [|i operands IH];
    intros collection self; simpl.
  - by intros [_ ->]%ret_Returns.
  - case_decide; [done|].
    intros (e & s1 & H1 & H2)%bind_Returns. exists e, s1.
    split; [done|]. by eapply IH.
Qed.

Lemma add_roles_run node operands collection self c s :
  add_roles d oracle node operands collection self = Returns c s →
  run_all oracle operands self s.
Proof.
  revert collection self. induction operands as [|i operands IH];
    intros collection self; simpl.
  - by intros [_ ->]%ret_Returns.
  - case_decide; [done|].
    intros (e & s1 & H1 & H2)%bind_Returns. exists e, s1.
    split; [done|]. by eapply IH.
Qed.

(** A builder that returns has had its calls on the needed operands
    answered, one after the other, and has left the state of the last
    answer. *)
Lemma build_needed node self e s :
  worker.build d prefix OWLShortIRI text special datatype value facet inputs
        restriction cardinality oracle node self = Returns e s →
  run_all oracle (needed d inputs node) self s.
Proof.
  unfold worker.build, needed.
  destruct (type d node) as [[]|]; try done;
    unfold getConcept, getAttribute, getRole, getValueDomain,
      getIndividual, getFacet, getRoleInverse, getRoleChain, getComplement,
      getEnumeration, getIntersection, getUnion, getDatatypeRestriction,
      getPropertyAssertion, getDomainRestriction, getRangeRestriction;
    cbv zeta; intros H.
  all: repeat returned_step.
  all: try done.
  all: repeat match goal with
       | H : others _ _ _ _ = Returns _ _ |- _ =>
         apply others_Returns in H as [-> ->]
       | H : getOWLApiDatatype _ _ = Returns _ _ |- _ =>
         apply getOWLApiDatatype_Returns in H as [-> _]
       | H : getOWLApiFacet _ _ = Returns _ _ |- _ =>
         apply getOWLApiFacet_Returns in H as [-> _]
       end.
  all: cbn [option_list app run_all].
  all: repeat first
       [ reflexivity
       | (eexists _, _; split; [eassumption|])
       | (eapply add_converted_run; eassumption)
       | (eapply append_individuals_run; eassumption)
       | (eapply add_roles_run; eassumption) ].
Qed.

End Needed.

(** *** The dictionary of converted nodes *)

#[local] Instance kept_preorder : PreOrder kept.
Proof. split; [by intros ? ?|]. intros s1 s2 s3 H1 H2 k Hk. eauto. Qed.

#[local] Instance pending_preorder C : PreOrder (pending C).
Proof. split; [by intros ? ?|]. intros s1 s2 s3 H1 H2 H. eauto. Qed.

#[local] Instance grown_preorder : PreOrder grown.
Proof.
  split; [by intros ?|]. intros s1 s2 s3 [H1 E1] [H2 E2]. split.
  - by etrans.
  - by rewrite E2.
Qed.

Lemma convert_stores fuel node self e s :
  convert fuel node self = Returns e s → _converted s !! node = Some e.
Proof.
  destruct (_converted self !! node) as [e'|] eqn:Hc.
  - rewrite (convert_cached _ _ _ e') by done. by intros [= <- <-].
  - destruct fuel as [|fuel]; [by rewrite convert_0|].
    rewrite convert_S by done.
    intros (e1 & s1 & _ & [= <- <-])%bind_Returns. simpl.
    apply lookup_insert_eq.
Qed.

(** A relation that holds across every assignment to the dictionary
    holds across every call of [convert]. *)
Lemma respects_convert (R : relation Worker) `{!PreOrder R} :
  (∀ self node e,
     R self (mkWorker (_axioms self) (<[node := e]> (_converted self)))) →
  ∀ fuel node, respects R (convert fuel node).
Proof.
  intros Hstore. induction fuel as [|fuel IH]; intros node self a self' Hrun.
  - simpl in Hrun. destruct (_converted self !! node); [|done].
    by injection Hrun as _ <-.
  - destruct (_converted self !! node) as [e|] eqn:Hc.
    + rewrite (convert_cached _ _ _ e) in Hrun by done.
      by injection Hrun as _ <-.
    + rewrite convert_S in Hrun by done.
      apply bind_Returns in Hrun as (e & s & Hb & Hs).
      unfold store in Hs. injection Hs as _ <-.
      etrans; [|apply Hstore].
      by eapply (respects_build R (convert fuel) IH node).
Qed.

Lemma convert_kept fuel node : respects kept (convert fuel node).
Proof.
  apply respects_convert; [apply _|].
  intros self k e c. simpl. intros Hc.
  apply lookup_insert_None in Hc. tauto.
Qed.

Lemma run_all_respects (R : relation Worker) `{!PreOrder R} oracle l self s :
  (∀ n, respects R (oracle n)) → run_all oracle l self s → R self s.
Proof.
  intros Ho. revert self. induction l as [|m l IH]; intros self; simpl.
  - by intros ->.
  - intros (e & s1 & H1 & H2). etrans; [by eapply Ho|by apply IH].
Qed.

(** The call among those of [run_all] that put [n] in the dictionary. *)
Lemma run_all_caches oracle l self s n :
  (∀ k, respects kept (oracle k)) →
  run_all oracle l self s →
  _converted self !! n = None → is_Some (_converted s !! n) →
  ∃ m t e t', m ∈ l ∧ kept self t ∧ oracle m t = Returns e t'
              ∧ _converted t !! n = None ∧ is_Some (_converted t' !! n).
Proof.
  intros Ho. revert self. induction l as [|m l IH]; intros self; simpl.
  - intros -> Hn [v Hv]. congruence.
  - intros (e & s1 & H1 & H2) Hn Hs.
    destruct (_converted s1 !! n) as [v|] eqn:Hn1.
    + exists m, self, e, s1. split; [left|]. split; [done|].
      split; [done|]. split; [done|]. by rewrite Hn1.
    + destruct (IH s1 H2 Hn1 Hs) as (m' & t & e' & t' & Hm & Hk & Hrest).
      exists m', t, e', t'. split; [by right|]. split; [|done].
      etrans; [|exact Hk]. by eapply Ho.
Qed.

(** The call among those of [run_all] on a given node of [l]. *)
Lemma run_all_call (R : relation Worker) `{!PreOrder R} oracle l self s m :
  (∀ n, respects R (oracle n)) →
  run_all oracle l self s → m ∈ l →
  ∃ t e t', R self t ∧ oracle m t = Returns e t'.
Proof.
  intros Ho. revert self. induction l as [|m' l IH]; intros self; simpl.
  - intros _ Hm. by apply elem_of_nil in Hm.
  - intros (e & s1 & H1 & H2) Hm.
    apply elem_of_cons in Hm as [->|Hm].
    + exists self, e, s1. split; [done|done].
    + destruct (IH s1 H2 Hm) as (t & e' & t' & Hr & Hcall).
      exists t, e', t'. split; [|done].
      etrans; [|exact Hr]. by eapply Ho.
Qed.

(** Nodes that wait for one another are never converted: when every
    node of [C] needs a node of [C], no call of [convert] puts a node of
    [C] in a dictionary that holds none of them. *)
Lemma convert_pending (C : nat → Prop) :
  (∀ c, C c → ∃ c', C c' ∧ c' ∈ needed d inputs c) →
  ∀ fuel node, respects (pending C) (convert fuel node).
Proof.
  intros Hnext. induction fuel as [|fuel IH]; intros node self a s Hrun.
  - simpl in Hrun. destruct (_converted self !! node); [|done].
    by injection Hrun as _ <-.
  - destruct (_converted self !! node) as [e|] eqn:Hc.
    + rewrite (convert_cached _ _ _ e) in Hrun by done.
      by injection Hrun as _ <-.
    + rewrite convert_S in Hrun by done.
      apply bind_Returns in Hrun as (e & s1 & Hb & Hs).
      unfold store in Hs. injection Hs as _ <-.
      intros Hself c Hc'. simpl.
      assert (Hs1 : ∀ c, C c → _converted s1 !! c = None).
      { by apply (respects_build (pending C) (convert fuel) IH node
                    self e s1 Hb). }
      destruct (decide (c = node)) as [->|Hne].
      * exfalso. destruct (Hnext node Hc') as (c' & HC' & Hin).
        apply build_needed in Hb.
        destruct (run_all_call (pending C) (convert fuel)
                    (needed d inputs node) self s1 c' IH Hb Hin)
          as (t & e' & t' & Ht & Hcall).
        assert (Hnone : _converted t' !! c' = None).
        { by apply (IH c' t e' t' Hcall (Ht Hself)). }
        apply convert_stores in Hcall. congruence.
      * rewrite lookup_insert_ne by done. by apply Hs1.
Qed.

(** A node that enters the dictionary during a call of [convert] is
    reached from the node of the call along operands that were not in the
    dictionary. *)
Lemma convert_caches fuel node self e s n :
  convert fuel node self = Returns e s →
  _converted self !! n = None → is_Some (_converted s !! n) →
  rtc (awaits d inputs self) node n.
Proof.
  revert node self e s.
  induction fuel as [|fuel IH]; intros node self e s Hrun Hn Hs.
  - simpl in Hrun. destruct (_converted self !! node); [|done].
    injection Hrun as _ <-. destruct Hs. congruence.
  - destruct (_converted self !! node) as [e'|] eqn:Hc.
    + rewrite (convert_cached _ _ _ e') in Hrun by done.
      injection Hrun as _ <-. destruct Hs. congruence.
    + rewrite convert_S in Hrun by done.
      apply bind_Returns in Hrun as (e1 & s1 & Hb & Hst).
      unfold store in Hst. injection Hst as _ <-. simpl in Hs.
      destruct (decide (n = node)) as [->|Hne]; [done|].
      rewrite lookup_insert_ne in Hs by done.
      apply build_needed in Hb.
      destruct (run_all_caches (convert fuel) _ self s1 n
                  (convert_kept fuel) Hb Hn Hs)
        as (m & t & e2 & t' & Hm & Hk & Hcall & Hnt & Hst').
      eapply rtc_l; [split; [exact Hc|exact Hm]|].
      eapply rtc_subrel; [|by eapply IH].
      intros a b [Ha Hb']. split; [by apply Hk|done].
Qed.

(** A builder does not find its own node in the dictionary when it
    returns: [convert] never assigns twice to a key. *)
Lemma build_fresh fuel node self e s :
  _converted self !! node = None →
  build (convert fuel) node self = Returns e s →
  _converted s !! node = None.
Proof.
  intros Hc Hb.
  destruct (_converted s !! node) as [v|] eqn:Hs; [|done]. exfalso.
  assert (Hrun := Hb). apply build_needed in Hrun.
  destruct (run_all_caches (convert fuel) _ self s node
              (convert_kept fuel) Hrun Hc)
    as (m & t & e2 & t' & Hm & Hk & Hcall & Hnt & Hst'); [by rewrite Hs|].
  assert (Hpath : rtc (awaits d inputs self) m node).
  { eapply rtc_subrel; [|by eapply convert_caches].
    intros a b [Ha Hb']. split; [by apply Hk|done]. }
  set (C := λ c, tc (awaits d inputs self) c c).
  assert (Hnode : C node).
  { eapply tc_rtc_r; [|exact Hpath]. apply tc_once. done. }
  assert (Hnext : ∀ c, C c → ∃ c', C c' ∧ c' ∈ needed d inputs c).
  { intros c Hcc. unfold C in Hcc.
    apply tc_rtc in Hcc as Hrtc.
    inversion Hcc as [? ? Hstep|? c' ? Hstep Hrest]; subst.
    - exists c. split; [done|]. apply Hstep.
    - exists c'. split; [|apply Hstep].
      eapply tc_rtc_l; [apply tc_rtc, Hrest|]. by apply tc_once. }
  assert (Hall : ∀ c, C c → _converted self !! c = None).
  { intros c Hcc. unfold C in Hcc.
    inversion Hcc as [? ? [Hu _]|? ? ? [Hu _] _]; done. }
  assert (Hfull : convert (S fuel) node self
                  = Returns e (mkWorker (_axioms s)
                                 (<[node := e]> (_converted s)))).
  { rewrite convert_S by done.
    by rewrite (bind_Returns_l _ _ _ _ _ Hb). }
  pose proof (convert_pending C Hnext (S fuel) node self e _ Hfull Hall
                node Hnode) as Hcontra.
  simpl in Hcontra. by rewrite lookup_insert_eq in Hcontra.
Qed.

(** A call of [convert] adds entries to the dictionary and leaves the
    entries it holds and the axioms as they are. *)
Lemma convert_grown fuel node : respects grown (convert fuel node).
Proof.
  revert node. induction fuel as [|fuel IH]; intros node self a s Hrun.
  - simpl in Hrun. destruct (_converted self !! node); [|done].
    by injection Hrun as _ <-.
  - destruct (_converted self !! node) as [e|] eqn:Hc.
    + rewrite (convert_cached _ _ _ e) in Hrun by done.
      by injection Hrun as _ <-.
    + rewrite convert_S in Hrun by done.
      apply bind_Returns in Hrun as (e & s1 & Hb & Hs).
      unfold store in Hs. injection Hs as _ <-.
      assert (Hg : grown self s1)
        by (by eapply (respects_build grown (convert fuel) IH node)).
      assert (Hfresh := build_fresh fuel node self e s1 Hc Hb).
      destruct Hg as [Hsub Hax]. split; simpl; [|done].
      etrans; [exact Hsub|]. by apply insert_subseteq.
Qed.

End Builders.

(** *** The form of the converted values *)

Section Forms.

Import worker.

Variable d : Diagram.
Variable prefix : string.
Variable OWLShortIRI : string → string → string.
Variable text : nat → string.
Variable special : nat → option Special.t.
Variable datatype : nat → option Datatype.t.
Variable value : nat → string.
Variable facet : nat → option Facet.t.
Variable inputs : nat → list nat.
Variable restriction : nat → Restriction.t.
Variable cardinality : nat → string → option nat.

Lemma elem_of_HashSet_add s e x :
  x ∈ HashSet_add s e ↔ x ∈ s ∨ x = e.
Proof.
  unfold HashSet_add. case_decide as H.
  - split; [by left|]. intros [?| ->]; done.
  - rewrite elem_of_app, list_elem_of_singleton. done.
Qed.

Lemma HashSet_add_nonempty s e : HashSet_add s e ≠ [].
Proof.
  intros E. assert (H : e ∈ HashSet_add s e).
  { apply elem_of_HashSet_add. by right. }
  rewrite E in H. by apply elem_of_nil in H.
Qed.

Lemma nonempty_spec {A} (l : list A) : nonempty l ↔ l ≠ [].
Proof. by destruct l. Qed.

Lemma forallb_spec {A} (p : A → bool) (l : list A) :
  forallb p l ↔ ∀ x, x ∈ l → p x.
Proof.
  induction l as [|a l IH]; simpl.
  - split; [|done]. intros _ x Hx. by apply elem_of_nil in Hx.
  - rewrite andb_True, IH. split.
    + intros [Ha Hl] x [->|Hx]%elem_of_cons; auto.
    + intros H. split; [apply H; left|]. intros x Hx. apply H. by right.
Qed.

Lemma first_elem_of {A} (l : list A) x : first l = Some x → x ∈ l.
Proof. destruct l; [done|]. intros [= ->]. left. Qed.

(** The class of an operand selected by its class. *)
Lemma operand_type node fe t k :
  k ∈ incomingNodes d node fe (λ x, bool_decide (node_type x = t)) →
  type d k = Some t.
Proof.
  intros [Hk _]%elem_of_incomingNodes.
  apply holds_Some in Hk as (y & Hy & Hp). apply bool_decide_unpack in Hp.
  unfold type. by rewrite Hy, <- Hp.
Qed.

(** The identity of an operand. *)
Lemma operand_identity node fe fn k :
  k ∈ incomingNodes d node fe fn →
  ∃ y, fn y ∧ identity d k = node_identity y.
Proof.
  intros [Hk _]%elem_of_incomingNodes.
  apply holds_Some in Hk as (y & Hy & Hp). exists y. split; [done|].
  unfold identity. by rewrite Hy.
Qed.

Lemma members_shaped node fe t (x : list OWLObject) :
  (∀ v, v ∈ x →
        v ∈ @nil OWLObject
        ∨ ∃ k, k ∈ incomingNodes d node fe
                     (λ x, bool_decide (node_type x = t))
               ∧ shaped d k v) →
  ∀ v, v ∈ x → shape t v.
Proof.
  intros H v Hv. destruct (H v Hv) as [Hnil|(k & Hk & t' & Hty & Hs)].
  - by apply elem_of_nil in Hnil.
  - apply operand_type in Hk. rewrite Hk in Hty. by injection Hty as <-.
Qed.

Lemma pair_of_individuals (vs : list OWLObject) :
  ¬ length vs < 2 → ¬ 2 < length vs →
  (∀ v, v ∈ vs → is_individual v) →
  shape PropertyAssertionNode (PyList vs).
Proof.
  intros H1 H2 Hall.
  destruct vs as [|a [|b [|c vs]]]; simpl in *; try lia.
  apply andb_True. split; apply Hall; [left|right; left].
Qed.

Section Oracle.

Variable oracle : nat → M OWLObject.
Hypothesis Horacle : ∀ k t v t',
  oracle k t = Returns v t' →
  well_shaped d t → well_shaped d t' ∧ shaped d k v.

Lemma add_converted_shaped operands collection self c s :
  add_converted oracle operands collection self = Returns c s →
  well_shaped d self →
  well_shaped d s
  ∧ (∀ v, v ∈ c → v ∈ collection ∨ ∃ k, k ∈ operands ∧ shaped d k v)
  ∧ (operands ≠ [] ∨ collection ≠ [] → c ≠ []).
Proof.
  revert collection self. induction operands as [|i operands IH];
    intros collection self; simpl.
  - intros [<- <-]%ret_Returns Hw. split; [done|]. split; [by left|].
    intros [?|?]; done.
  - intros (e & s1 & H1 & H2)%bind_Returns Hw.
    destruct (Horacle _ _ _ _ H1 Hw) as [Hw1 He].
    destruct (IH _ _ H2 Hw1) as (Hws & Hin & Hne).
    split; [done|]. split.
    + intros v Hv. destruct (Hin v Hv) as [Hc|(k & Hk & Hs)].
      * apply elem_of_HashSet_add in Hc as [?| ->]; [by left|].
        right. exists i. split; [left|done].
      * right. exists k. split; [by right|done].
    + intros _. apply Hne. right. apply HashSet_add_nonempty.
Qed.

Lemma append_individuals_shaped node operands collection self c s :
  append_individuals d oracle node operands collection self = Returns c s →
  well_shaped d self →
  well_shaped d s
  ∧ ∃ vs, c = collection ++ vs ∧ length vs = length operands
          ∧ ∀ v, v ∈ vs → is_individual v.
Proof.
  revert collection self. induction operands as [|i operands IH];
    intros collection self; simpl.
  - intros [<- <-]%ret_Returns Hw. split; [done|]. exists [].
    split; [by rewrite app_nil_r|]. split; [done|].
    intros v Hv. by apply elem_of_nil in Hv.
  - case_decide as Ht; [done|].
    intros (e & s1 & H1 & H2)%bind_Returns Hw.
    destruct (Horacle _ _ _ _ H1 Hw) as [Hw1 (t & Hty & He)].
    destruct (IH _ _ H2 Hw1) as (Hws & vs & -> & Hlen & Hall).
    split; [done|]. exists (e :: vs). split; [by rewrite <- app_assoc|].
    split; [simpl; by rewrite Hlen|].
    intros v [->|Hv]%elem_of_cons; [|by apply Hall].
    rewrite Hty in Ht. by injection Ht as ->.
Qed.

Lemma add_roles_shaped node operands collection self c s :
  add_roles d oracle node operands collection self = Returns c s →
  well_shaped d self →
  well_shaped d s
  ∧ ∃ vs, c = collection ++ vs ∧ length vs = length operands
          ∧ ∀ v, v ∈ vs → is_object_property v || is_inverse v.
Proof.
  revert collection self. induction operands as [|i operands IH];
    intros collection self; simpl.
  - intros [<- <-]%ret_Returns Hw. split; [done|]. exists [].
    split; [by rewrite app_nil_r|]. split; [done|].
    intros v Hv. by apply elem_of_nil in Hv.
  - case_decide as Ht; [done|].
    intros (e & s1 & H1 & H2)%bind_Returns Hw.
    destruct (Horacle _ _ _ _ H1 Hw) as [Hw1 (t & Hty & He)].
    destruct (IH _ _ H2 Hw1) as (Hws & vs & -> & Hlen & Hall).
    split; [done|]. exists (e :: vs). split; [by rewrite <- app_assoc|].
    split; [simpl; by rewrite Hlen|].
    intros v [->|Hv]%elem_of_cons; [|by apply Hall].
    rewrite Hty in Ht.
    destruct (decide (t = RoleNode)) as [->|Hr].
    + simpl in He. apply orb_True. by left.
    + destruct (decide (t = RoleInverseNode)) as [->|Hi].
      * simpl in He. apply orb_True. by right.
      * exfalso. apply Ht. split; congruence.
Qed.

Lemma others_pure node ids self l s :
  others d node ids self = Returns l s → s = self.
Proof. by intros [-> _]%others_Returns. Qed.

Lemma cardinalities_data min_cardinality max_cardinality dpe dre l :
  l = match max_cardinality with
      | Some n =>
        HashSet_add
          match min_cardinality with
          | Some n => HashSet_add [] (OWLDataMinCardinality n dpe dre)
          | None => []
          end (OWLDataMinCardinality n dpe dre)
      | None =>
        match min_cardinality with
        | Some n => HashSet_add [] (OWLDataMinCardinality n dpe dre)
        | None => []
        end
      end →
  l = [] ∨ one_or_two l && forallb is_data_cardinality l.
Proof.
  intros ->. destruct min_cardinality, max_cardinality;
    unfold HashSet_add; repeat case_decide; simpl; tauto.
Qed.

Lemma cardinalities_object min_cardinality max_cardinality ope ce l :
  l = match max_cardinality with
      | Some n =>
        HashSet_add
          match min_cardinality with
          | Some n => HashSet_add [] (OWLObjectMinCardinality n ope ce)
          | None => []
          end (OWLObjectMaxCardinality n ope ce)
      | None =>
        match min_cardinality with
        | Some n => HashSet_add [] (OWLObjectMinCardinality n ope ce)
        | None => []
        end
      end →
  l = [] ∨ one_or_two l && forallb is_object_cardinality l.
Proof.
  intros ->. destruct min_cardinality, max_cardinality;
    unfold HashSet_add; repeat case_decide; simpl; tauto.
Qed.

(** A builder that returns leaves a dictionary whose entries have the
    form their class asks for, and returns a value of the form the class
    of its node asks for. *)
Lemma build_shaped node self e s :
  build d prefix OWLShortIRI text special datatype value facet inputs
        restriction cardinality oracle node self = Returns e s →
  well_shaped d self →
  well_shaped d s ∧ shaped d node e.
Proof.
  unfold build, shaped.
  destruct (type d node) as [t|] eqn:Hty; [|done].
  intros H Hw.
  cut (well_shaped d s ∧ shape t e); [intros [? ?]; eauto|].
  destruct t; try done;
    unfold getConcept, getAttribute, getRole, getValueDomain,
      getIndividual, getFacet, getRoleInverse, getRoleChain, getComplement,
      getEnumeration, getIntersection, getUnion, getDatatypeRestriction,
      getPropertyAssertion, getDomainRestriction, getRangeRestriction in H;
    cbv zeta in H.
  all: repeat returned_step.
  all: try done.
  all: repeat match goal with
       | H : others _ _ _ _ = Returns _ _ |- _ =>
         apply others_pure in H as ->
       | H : getOWLApiDatatype _ _ = Returns _ _ |- _ =>
         apply getOWLApiDatatype_Returns in H as [-> [? ->]]
       | H : getOWLApiFacet _ _ = Returns _ _ |- _ =>
         apply getOWLApiFacet_Returns in H as [-> [? ->]]
       end.
  all: try done.
  all: repeat match goal with
       | H : oracle _ ?t = Returns _ _, Hw : well_shaped d ?t |- _ =>
         destruct (Horacle _ _ _ _ H Hw) as [? (? & ? & ?)]; clear H
       | H : add_converted oracle _ _ ?t = Returns _ _,
         Hw : well_shaped d ?t |- _ =>
         destruct (add_converted_shaped _ _ _ _ _ H Hw) as (? & ? & ?);
         clear H
       | H : append_individuals d oracle _ _ _ ?t = Returns _ _,
         Hw : well_shaped d ?t |- _ =>
         destruct (append_individuals_shaped _ _ _ _ _ _ H Hw)
           as (? & ? & ? & ? & ?);
         clear H
       | H : add_roles d oracle _ _ _ ?t = Returns _ _,
         Hw : well_shaped d ?t |- _ =>
         destruct (add_roles_shaped _ _ _ _ _ _ H Hw)
           as (? & ? & ? & ? & ?);
         clear H
       end.
  all: (split; [assumption|]).
  all: try done.
  all: try (exfalso; simpl in *; lia).
  all: repeat match goal with
       | H : first _ = Some _ |- _ => apply first_elem_of in H
       end.
  all: lazymatch goal with
       | Hty : type d _ = Some EnumerationNode |- _ =>
         apply andb_True; split;
           [by apply nonempty_spec
           |apply forallb_spec; intros v Hv;
            change (Is_true (shape IndividualNode v));
            eapply members_shaped; eassumption]
       | Hty : type d _ = Some IntersectionNode |- _ =>
         by apply nonempty_spec
       | Hty : type d _ = Some UnionNode |- _ =>
         by apply nonempty_spec
       | Hty : type d _ = Some DisjointUnionNode |- _ =>
         by apply nonempty_spec
       | Hty : type d _ = Some PropertyAssertionNode |- _ =>
         subst; by apply pair_of_individuals
       | Hty : type d _ = Some RoleChainNode |- _ =>
         subst; cbn [app shape] in *; apply andb_True; split;
           [by apply nonempty_spec|by apply forallb_spec]
       | Hty : type d _ = Some RoleInverseNode |- _ =>
         match goal with
         | Hk : _ ∈ incomingNodes _ _ _ _, Hs : type d _ = Some ?t |- _ =>
           apply operand_type in Hk; rewrite Hk in Hs;
           injection Hs as <-; assumption
         end
       | Hty : type d _ = Some DatatypeRestrictionNode |- _ =>
         match goal with
         | Hk : _ ∈ incomingNodes _ _ _ _, Hs : type d _ = Some ?t,
           Hne : _ ∨ _ → _ ≠ [] |- _ =>
           apply operand_type in Hk; rewrite Hk in Hs;
           injection Hs as <-;
           apply andb_True; split;
             [apply andb_True; split;
                [assumption|apply nonempty_spec, Hne; by left]
             |apply forallb_spec; intros v Hv;
              change (Is_true (shape FacetNode v));
              eapply members_shaped; eassumption]
         end
       | Heqo : _ ∈ incomingNodes _ _ _ _, H1 : identity d _ ≠ Attribute,
         H2 : identity d _ ≠ Role |- _ =>
         apply operand_identity in Heqo as (y & Hy & Hid);
         apply bool_decide_unpack in Hy; rewrite <- Hid in Hy;
         rewrite !elem_of_cons, elem_of_nil in Hy; tauto
       | Heql : _ = ?o :: ?l |- _ =>
         first
           [ destruct (cardinalities_data _ _ _ _ _ (eq_sym Heql)) as [?|?]
           | destruct (cardinalities_object _ _ _ _ _ (eq_sym Heql))
               as [?|?] ];
         [done|assumption]
       end.
Qed.

End Oracle.

(** [convert] keeps the dictionary well shaped and returns a value of
    the form the class of the node asks for. *)
Lemma convert_shaped fuel node self e s :
  convert d prefix OWLShortIRI text special datatype value facet inputs
          restriction cardinality fuel node self = Returns e s →
  well_shaped d self →
  well_shaped d s ∧ shaped d node e.
Proof.
  revert node self e s.
  induction fuel as [|fuel IH]; intros node self e s Hrun Hw.
  - simpl in Hrun. destruct (_converted self !! node) eqn:Hc; [|done].
    injection Hrun as <- <-. split; [done|]. by apply Hw.
  - destruct (_converted self !! node) as [e'|] eqn:Hc.
    + rewrite (convert_cached _ _ _ _ _ _ _ _ _ _ _ _ _ _ e') in Hrun
        by done.
      injection Hrun as <- <-. split; [done|]. by apply Hw.
    + rewrite convert_S in Hrun by done.
      apply bind_Returns in Hrun as (e1 & s1 & Hb & Hst).
      unfold store in Hst. injection Hst as <- <-.
      destruct (build_shaped _ IH node self e1 s1 Hb Hw) as [Hw1 Hs].
      split; [|done]. intros k v. simpl.
      destruct (decide (k = node)) as [->|Hne].
      * rewrite lookup_insert_eq. by intros [= <-].
      * rewrite lookup_insert_ne by done. apply Hw1.
Qed.

End Forms.

(** X5: [convert] memoises.  A call that returns has stored the value it
    returns under the node; it has removed or changed no entry of the
    dictionary and has added no axiom; and every later call on the node
    returns the stored value and leaves the state as it is, whatever the
    depth allowed. *)
Theorem convert_memoises
    (d : Diagram) (prefix : string) (OWLShortIRI : string → string → string)
    (text : nat → string) (special : nat → option Special.t)
    (datatype : nat → option Datatype.t) (value : nat → string)
    (facet : nat → option Facet.t) (inputs : nat → list nat)
    (restriction : nat → Restriction.t)
    (cardinality : nat → string → option nat)
    (fuel node : nat) (self s : worker.Worker) (e : worker.OWLObject) :
  worker.convert d prefix OWLShortIRI text special datatype value facet
    inputs restriction cardinality fuel node self = worker.Returns e s →
  worker._converted s !! node = Some e
  ∧ worker._converted self ⊆ worker._converted s
  ∧ worker._axioms s = worker._axioms self
  ∧ ∀ fuel',
      worker.convert d prefix OWLShortIRI text special datatype value facet
        inputs restriction cardinality fuel' node s = worker.Returns e s.
Proof.
  intros Hrun.
  assert (Hst := convert_stores _ _ _ _ _ _ _ _ _ _ _ _ _ _ _ _ Hrun).
  split; [done|].
  destruct (convert_grown _ _ _ _ _ _ _ _ _ _ _ _ _ _ _ _ Hrun)
    as [Hsub Hax].
  split; [done|]. split; [done|].
  intros fuel'. by apply convert_cached.
Qed.

(** X7: operands that wait for one another cannot be converted.  When a
    node that is not in the dictionary is reached from itself along
    operands that builders need and that are not in the dictionary, no
    call of [convert] on it returns, however deep the calls may go, and no
    call of [convert] on any node puts it in the dictionary. *)
Theorem convert_cycle_never_returns
    (d : Diagram) (prefix : string) (OWLShortIRI : string → string → string)
    (text : nat → string) (special : nat → option Special.t)
    (datatype : nat → option Datatype.t) (value : nat → string)
    (facet : nat → option Facet.t) (inputs : nat → list nat)
    (restriction : nat → Restriction.t)
    (cardinality : nat → string → option nat)
    (node : nat) (self : worker.Worker) :
  tc (awaits d inputs self) node node →
  (∀ fuel e s,
     worker.convert d prefix OWLShortIRI text special datatype value facet
       inputs restriction cardinality fuel node self ≠ worker.Returns e s)
  ∧ (∀ fuel k e s,
       worker.convert d prefix OWLShortIRI text special datatype value facet
         inputs restriction cardinality fuel k self = worker.Returns e s →
       worker._converted s !! node = None).
Proof.
  intros Hcycle.
  set (C := λ c, tc (awaits d inputs self) c c).
  assert (Hnext : ∀ c, C c → ∃ c', C c' ∧ c' ∈ needed d inputs c).
  { intros c Hcc. unfold C in Hcc.
    inversion Hcc as [? ? Hstep|? c' ? Hstep Hrest]; subst.
    - exists c. split; [done|]. apply Hstep.
    - exists c'. split; [|apply Hstep].
      eapply tc_rtc_l; [apply tc_rtc, Hrest|]. by apply tc_once. }
  assert (Hall : ∀ c, C c → worker._converted self !! c = None).
  { intros c Hcc. unfold C in Hcc.
    inversion Hcc as [? ? [Hu _]|? ? ? [Hu _] _]; done. }
  assert (Hkeep : ∀ fuel k e s,
    worker.convert d prefix OWLShortIRI text special datatype value facet
      inputs restriction cardinality fuel k self = worker.Returns e s →
    worker._converted s !! node = None).
  { intros fuel k e s Hrun.
    by apply (convert_pending d prefix OWLShortIRI text special datatype
                value facet inputs restriction cardinality C Hnext fuel k
                self e s Hrun Hall node). }
  split; [|done].
  intros fuel e s Hrun. pose proof (Hkeep _ _ _ _ Hrun) as Hnone.
  apply convert_stores in Hrun. congruence.
Qed.

(** X8: every converted value has the form the class of its node asks
    for.  From a dictionary whose entries have the form their class asks
    for, a call of [convert] that returns leaves such a dictionary and
    returns a value of the form the class of the node asks for: a class
    for a concept node, a pair of individuals for a property assertion
    node, a non-empty enumeration of individuals for an enumeration node,
    never [None] for a domain restriction node, and so on. *)
Theorem convert_shape
    (d : Diagram) (prefix : string) (OWLShortIRI : string → string → string)
    (text : nat → string) (special : nat → option Special.t)
    (datatype : nat → option Datatype.t) (value : nat → string)
    (facet : nat → option Facet.t) (inputs : nat → list nat)
    (restriction : nat → Restriction.t)
    (cardinality : nat → string → option nat)
    (fuel node : nat) (self s : worker.Worker) (e : worker.OWLObject) :
  well_shaped d self →
  worker.convert d prefix OWLShortIRI text special datatype value facet
    inputs restriction cardinality fuel node self = worker.Returns e s →
  well_shaped d s
  ∧ ∃ t, worker.type d node = Some t ∧ shape t e.
Proof. intros Hw Hrun. by eapply convert_shaped. Qed.

(** X9: a node the resolver left with the identity [Unknown] stops the
    export.  For a complement, enumeration, intersection, union, disjoint
    union or property assertion node that is not in the dictionary and
    whose identity is [Unknown], [convert] raises
    [DiagramMalformedError] on the node before it converts any operand,
    and so under every bound on the depth but the empty one. *)
Theorem convert_unknown_identity
    (d : Diagram) (prefix : string) (OWLShortIRI : string → string → string)
    (text : nat → string) (special : nat → option Special.t)
    (datatype : nat → option Datatype.t) (value : nat → string)
    (facet : nat → option Facet.t) (inputs : nat → list nat)
    (restriction : nat → Restriction.t)
    (cardinality : nat → string → option nat)
    (fuel node : nat) (self : worker.Worker) (t : Item) :
  worker.type d node = Some t →
  t ∈ [ComplementNode; EnumerationNode; IntersectionNode; UnionNode;
       DisjointUnionNode; PropertyAssertionNode] →
  identity d node = Unknown →
  worker._converted self !! node = None →
  worker.convert d prefix OWLShortIRI text special datatype value facet
    inputs restriction cardinality (S fuel) node self
  = worker.Raises
      (worker.DiagramMalformedError (inl node) "unsupported operand(s)").
Proof.
  intros Hty Ht Hid Hc. rewrite convert_S by done.
  apply bind_Raises_l. unfold worker.build. rewrite Hty.
  rewrite !elem_of_cons, elem_of_nil in Ht.
  destruct Ht as [->|[->|[->|[->|[->|[->|[]]]]]]];
    unfold worker.getComplement, worker.getEnumeration,
      worker.getIntersection, worker.getUnion,
      worker.getPropertyAssertion;
    by rewrite decide_True.
Qed.

(** X10: [getOWLApiFacet] maps the facets [maxLength] and [minLength] to
    the same OWL facet, [MIN_LENGTH]: no facet is mapped to [MAX_LENGTH],
    and two different facets are mapped to the same OWL facet only when
    they are these two. *)
Theorem getOWLApiFacet_maxLength (self : worker.Worker) :
  worker.getOWLApiFacet (Some Facet.maxLength) self
  = worker.Returns (worker.OWLFacet "MIN_LENGTH") self
  ∧ worker.getOWLApiFacet (Some Facet.minLength) self
    = worker.Returns (worker.OWLFacet "MIN_LENGTH") self
  ∧ (∀ facet,
       worker.getOWLApiFacet facet self
       ≠ worker.Returns (worker.OWLFacet "MAX_LENGTH") self)
  ∧ (∀ f g, f ≠ g →
       worker.getOWLApiFacet (Some f) self
       = worker.getOWLApiFacet (Some g) self →
       (f = Facet.maxLength ∧ g = Facet.minLength)
       ∨ (f = Facet.minLength ∧ g = Facet.maxLength)).
Proof.
  split; [done|]. split; [done|]. split.
  - intros [[]|]; done.
  - intros f g Hne. destruct f, g; try done; intros [=]; tauto.
Qed.

(** X11: [getOWLApiDatatype] maps every datatype to an OWL datatype of its
    own, changes nothing in the state of the worker, and raises
    [ValueError] for nothing but a value that is no datatype. *)
Theorem getOWLApiDatatype_injective (self : worker.Worker) :
  (∀ a b,
     worker.getOWLApiDatatype (Some a) self
     = worker.getOWLApiDatatype (Some b) self → a = b)
  ∧ (∀ a, ∃ name,
       worker.getOWLApiDatatype (Some a) self
       = worker.Returns (worker.OWLDatatype name) self)
  ∧ worker.getOWLApiDatatype None self
    = worker.Raises (worker.ValueError "invalid datatype supplied").
Proof.
  split; [|split; [|done]].
  - intros a b. destruct a, b; try done; intros [=].
  - intros []; eexists; reflexivity.
Qed.

(** *** The axioms generated from edges and restriction nodes *)

Section Edges.

Import worker.

Variable d : Diagram.
Variable prefix : string.
Variable OWLShortIRI : string → string → string.
Variable text : nat → string.
Variable special : nat → option Special.t.
Variable datatype : nat → option Datatype.t.
Variable value : nat → string.
Variable facet : nat → option Facet.t.
Variable inputs : nat → list nat.
Variable restriction : nat → Restriction.t.
Variable cardinality : nat → string → option nat.

Abbreviation convert :=
  (worker.convert d prefix OWLShortIRI text special datatype value facet
                  inputs restriction cardinality).

Lemma identity_lookup k v :
  identity d k = v → v ≠ Neutral →
  ∃ y, nodes d !! k = Some y ∧ node_identity y = v.
Proof.
  unfold identity. destruct (nodes d !! k) as [y|]; [eauto|].
  intros <- H. done.
Qed.

(** The axioms of the loop over the nodes a property is restricted to. *)
Lemma add_property_axioms_Returns fuel axiom property concepts self u s :
  add_property_axioms (convert fuel) axiom property concepts self
  = Returns u s →
  worker._converted self ⊆ worker._converted s
  ∧ ∃ added,
      worker._axioms s = added ++ worker._axioms self
      ∧ (∀ a, a ∈ added → ∃ pe ce, a = axiom pe ce)
      ∧ ∀ c, c ∈ concepts →
           ∃ pe ce, worker._converted s !! property = Some pe
                    ∧ worker._converted s !! c = Some ce
                    ∧ axiom pe ce ∈ added.
Proof.
  revert self. induction concepts as [|c concepts IH]; intros self; simpl.
  - intros [_ <-]%ret_Returns. split; [done|]. exists [].
    split; [done|]. split; intros ? H; by apply elem_of_nil in H.
  - intros (pe & s1 & H1 & H2)%bind_Returns.
    apply bind_Returns in H2 as (ce & s2 & H2 & H3).
    apply bind_Returns in H3 as ([] & s3 & H3 & H4).
    unfold addAxiom in H3. injection H3 as <-.
    destruct (IH _ H4) as (Hsub & added & Hax & Hform & Hall).
    simpl in Hsub, Hax.
    pose proof (convert_grown _ _ _ _ _ _ _ _ _ _ _ _ _ _ _ _ H1)
      as [Hg1 Ha1].
    pose proof (convert_grown _ _ _ _ _ _ _ _ _ _ _ _ _ _ _ _ H2)
      as [Hg2 Ha2].
    apply convert_stores in H1 as Hst1. apply convert_stores in H2 as Hst2.
    split; [by repeat (etrans; [eassumption|])|].
    exists (added ++ [axiom pe ce]). split; [|split].
    + rewrite Hax, Ha2, Ha1. by rewrite <- app_assoc.
    + intros a [Ha|Ha]%elem_of_app; [by apply Hform|].
      apply list_elem_of_singleton in Ha as ->. eauto.
    + intros c' [->|Hc']%elem_of_cons.
      * exists pe, ce. split; [|split].
        -- eapply lookup_weaken; [|exact Hsub].
           eapply lookup_weaken; [exact Hst1|exact Hg2].
        -- eapply lookup_weaken; [exact Hst2|exact Hsub].
        -- apply elem_of_app. right. by apply list_elem_of_singleton.
      * destruct (Hall c' Hc') as (pe' & ce' & Hp & Hc & Hin).
        exists pe', ce'. split; [done|]. split; [done|].
        apply elem_of_app. by left.
Qed.

(** *** The complements of roles and of attributes *)

Lemma build_complement fuel k operand self e s :
  type d k = Some ComplementNode →
  incomingNodes d k
    (λ x, bool_decide (edge_type x = InputEdge))
    (λ x, bool_decide
            (node_identity x ∈ [Attribute; Concept; ValueDomain; Role]))
  = [operand] →
  identity d operand ∈ [Role; Attribute] →
  worker.build d prefix OWLShortIRI text special datatype value facet
    inputs restriction cardinality (convert fuel) k self = Returns e s →
  convert fuel operand self = Returns e s.
Proof.
  intros Hty Hinc Hid. unfold build. rewrite Hty. unfold getComplement.
  cbv zeta. rewrite Hinc.
  destruct (decide (identity d k = Unknown)); [done|].
  rewrite decide_False by done.
  rewrite decide_False by (simpl; lia).
  cbn [first head].
  rewrite !elem_of_cons, elem_of_nil in Hid.
  destruct Hid as [Hid|[Hid|[]]]; rewrite Hid.
  - rewrite decide_False by done. rewrite decide_False by done.
    by rewrite decide_True.
  - rewrite decide_False by done. rewrite decide_False by done.
    rewrite decide_False by done. by rewrite decide_True.
Qed.

#[local] Instance complements_preorder :
  PreOrder (λ self s, complements_follow d self → complements_follow d s).
Proof. split; [by intros ?|]. intros s1 s2 s3 H1 H2 H. eauto. Qed.

(** The invariant of the dictionary across a call of [convert]. *)
Lemma convert_complements fuel node :
  respects (λ self s, complements_follow d self → complements_follow d s)
    (convert fuel node).
Proof.
  revert node. induction fuel as [|fuel IH]; intros node self a s Hrun.
  - simpl in Hrun. destruct (_converted self !! node); [|done].
    by injection Hrun as _ <-.
  - destruct (_converted self !! node) as [e|] eqn:Hc.
    + rewrite (convert_cached _ _ _ _ _ _ _ _ _ _ _ _ _ _ e) in Hrun
        by done.
      by injection Hrun as _ <-.
    + rewrite convert_S in Hrun by done.
      apply bind_Returns in Hrun as (e & s1 & Hb & Hs).
      unfold store in Hs. injection Hs as _ <-.
      intros Hself.
      assert (Hs1 : complements_follow d s1).
      { by apply (respects_build d prefix OWLShortIRI text special datatype
                    value facet inputs restriction cardinality _
                    (convert fuel) IH node self e s1 Hb). }
      assert (Hfresh : _converted s1 !! node = None)
        by (by eapply build_fresh).
      intros k operand e' Hty Hinc Hid. cbn [_converted].
      destruct (decide (k = node)) as [->|Hne].
      * rewrite lookup_insert_eq. intros [= <-].
        assert (Hop : convert fuel operand self = Returns e s1)
          by (by eapply build_complement).
        apply convert_stores in Hop.
        rewrite lookup_insert_ne by congruence. done.
      * rewrite lookup_insert_ne by done. intros Hk.
        pose proof (Hs1 k operand e' Hty Hinc Hid Hk) as Hop.
        rewrite lookup_insert_ne by congruence. done.
Qed.

(** The pre-processing of the nodes: every node of the list is in the
    dictionary when it ends. *)
Lemma nodes_pre_processing_Returns fuel l self u s :
  nodes_pre_processing (convert fuel) l self = Returns u s →
  worker._converted self ⊆ worker._converted s
  ∧ worker._axioms s = worker._axioms self
  ∧ (complements_follow d self → complements_follow d s)
  ∧ ∀ k, k ∈ l → is_Some (worker._converted s !! k).
Proof.
  revert self. induction l as [|m l IH]; intros self; simpl.
  - intros [_ <-]%ret_Returns. split; [done|]. split; [done|].
    split; [done|]. intros k Hk. by apply elem_of_nil in Hk.
  - intros (e & s1 & H1 & H2)%bind_Returns.
    destruct (IH _ H2) as (Hsub & Hax & Hinv & Hall).
    pose proof (convert_grown _ _ _ _ _ _ _ _ _ _ _ _ _ _ _ _ H1)
      as [Hg1 Ha1].
    split; [by etrans|]. split; [congruence|]. split.
    + intros Hself. apply Hinv. by eapply convert_complements.
    + intros k [->|Hk]%elem_of_cons; [|by apply Hall].
      apply convert_stores in H1. exists e.
      by eapply lookup_weaken.
Qed.

End Edges.

(** X12: an inclusion edge from a range restriction node to a value
    domain.  The loop of [run] over the edges generates nothing for it and
    raises nothing; [createPropertyRangeAxiom] generates the data property
    range axiom for it, from the converted attribute and the converted
    target of the edge, when the restriction node has an attribute as
    operand; when it has none, every axiom [createPropertyRangeAxiom] adds
    is an object property range axiom, and the edge is left without an
    axiom. *)
Theorem range_inclusion_of_value_domain
    (d : Diagram) (prefix : string) (OWLShortIRI : string → string → string)
    (text : nat → string) (special : nat → option Special.t)
    (datatype : nat → option Datatype.t) (value : nat → string)
    (facet : nat → option Facet.t) (inputs : nat → list nat)
    (restriction : nat → Restriction.t)
    (cardinality : nat → string → option nat)
    (fuel : nat) (edge : Edge) (self s : worker.Worker) :
  edge ∈ edges d →
  edge_type edge = InclusionEdge →
  worker.type d (source edge) = Some RangeRestrictionNode →
  identity d (target edge) = ValueDomain →
  worker.createPropertyRangeAxiom d
    (worker.convert d prefix OWLShortIRI text special datatype value facet
                    inputs restriction cardinality fuel)
    (source edge) self = worker.Returns () s →
  (∀ self_convert,
     worker.axioms_from_edge d self_convert edge self
     = worker.Returns () self)
  ∧ ∃ added,
      worker._axioms s = added ++ worker._axioms self
      ∧ match first (incomingNodes d (source edge)
                       (λ x, bool_decide (edge_type x = InputEdge))
                       (λ x, bool_decide (node_identity x = Attribute))) with
        | Some attribute =>
          ∃ dpe dr,
            worker._converted s !! attribute = Some dpe
            ∧ worker._converted s !! target edge = Some dr
            ∧ worker.OWLDataPropertyRangeAxiom dpe dr ∈ added
        | None =>
          ∀ a, a ∈ added →
               ∃ ope ce, a = worker.OWLObjectPropertyRangeAxiom ope ce
        end.
Proof.
  intros He Hty Hsrc Htgt Hrun. split.
  - intros self_convert. unfold worker.axioms_from_edge. cbv zeta.
    rewrite decide_True by done.
    rewrite decide_False by (rewrite Htgt; intros [_ ?]; done).
    rewrite decide_False by (rewrite Htgt; intros [_ ?]; done).
    rewrite decide_False by (rewrite Htgt; intros [_ ?]; done).
    by rewrite decide_True.
  - unfold worker.createPropertyRangeAxiom in Hrun. cbv zeta in Hrun.
    apply bind_Returns in Hrun as ([] & s1 & Hrole & Hattr).
    assert (Hfirst : worker._converted self ⊆ worker._converted s1
      ∧ ∃ added1, worker._axioms s1 = added1 ++ worker._axioms self
          ∧ ∀ a, a ∈ added1 →
                 ∃ ope ce, a = worker.OWLObjectPropertyRangeAxiom ope ce).
    { destruct (first (incomingNodes d (source edge) _
                         (λ x, bool_decide (node_identity x = Role))))
        as [role|].
      - apply add_property_axioms_Returns in Hrole
          as (Hsub & added & Hax & Hform & _). eauto.
      - apply ret_Returns in Hrole as [_ <-]. split; [done|]. exists [].
        split; [done|]. intros ? H. by apply elem_of_nil in H. }
    destruct Hfirst as (Hsub1 & added1 & Hax1 & Hform1).
    destruct (first (incomingNodes d (source edge) _
                       (λ x, bool_decide (node_identity x = Attribute))))
      as [attribute|].
    + apply add_property_axioms_Returns in Hattr
        as (Hsub & added & Hax & Hform & Hall).
      exists (added ++ added1). split.
      { by rewrite Hax, Hax1, <- app_assoc. }
      destruct (Hall (target edge)) as (dpe & dr & Hp & Hc & Hin).
      { apply elem_of_outgoingNodes. split.
        - apply holds_Some.
          destruct (identity_lookup d (target edge) ValueDomain Htgt)
            as (y & Hy & Hid); [done|].
          exists y. split; [done|]. by apply bool_decide_pack.
        - exists edge. split; [done|]. split; [done|]. split; [done|].
          apply bool_decide_pack. rewrite Hty. left. }
      exists dpe, dr. split; [done|]. split; [done|].
      apply elem_of_app. by left.
    + apply ret_Returns in Hattr as [_ <-].
      exists added1. split; [done|]. done.
Qed.

(** X13: the inclusion of a role in the complement of a role becomes a
    disjointness axiom over the two roles.  [run] converts every node of
    the project before it generates axioms.  For an inclusion edge from a
    role or role inverse node to a complement node, both with the identity
    [Role], where the complement has one operand, a role: when the
    pre-processing of nodes among which are the two ends of the edge has
    returned, the dictionary holds the conversion of the source and of the
    operand, it holds the conversion of the operand for the complement
    node too, and the loop of [run] over the edges, whatever axioms were
    generated before, adds the axiom that the two converted roles are
    disjoint and leaves the dictionary as it is. *)
Theorem role_inclusion_in_complement
    (d : Diagram) (prefix : string) (OWLShortIRI : string → string → string)
    (text : nat → string) (special : nat → option Special.t)
    (datatype : nat → option Datatype.t) (value : nat → string)
    (facet : nat → option Facet.t) (inputs : nat → list nat)
    (restriction : nat → Restriction.t)
    (cardinality : nat → string → option nat)
    (fuel fuel' : nat) (edge : Edge) (operand : nat)
    (project_nodes : list nat) (s : worker.Worker)
    (axioms : list worker.OWLAxiom) :
  edge_type edge = InclusionEdge →
  identity d (source edge) = Role →
  identity d (target edge) = Role →
  worker.type d (source edge) ∈ [Some RoleNode; Some RoleInverseNode] →
  worker.type d (target edge) = Some ComplementNode →
  incomingNodes d (target edge)
    (λ x, bool_decide (edge_type x = InputEdge))
    (λ x, bool_decide
            (node_identity x ∈ [Attribute; Concept; ValueDomain; Role]))
  = [operand] →
  identity d operand = Role →
  source edge ∈ project_nodes →
  target edge ∈ project_nodes →
  worker.nodes_pre_processing
    (worker.convert d prefix OWLShortIRI text special datatype value facet
                    inputs restriction cardinality fuel)
    project_nodes worker.init
  = worker.Returns () s →
  ∃ e1 e2,
    worker._converted s !! source edge = Some e1
    ∧ worker._converted s !! operand = Some e2
    ∧ worker._converted s !! target edge = Some e2
    ∧ worker.axioms_from_edge d
        (worker.convert d prefix OWLShortIRI text special datatype value
                        facet inputs restriction cardinality fuel')
        edge (worker.mkWorker axioms (worker._converted s))
      = worker.Returns ()
          (worker.mkWorker
             (worker.OWLDisjointObjectPropertiesAxiom
                (worker.HashSet_add [e1] e2) :: axioms)
             (worker._converted s)).
Proof.
  intros Hty Hsi Hti Hst Htt Hinc Hoi Hsrc Htgt Hrun.
  destruct (nodes_pre_processing_Returns _ _ _ _ _ _ _ _ _ _ _ _ _ _ _ _
              Hrun) as (_ & _ & Hinv & Hall).
  assert (Hfollow : complements_follow d s).
  { apply Hinv. intros k o e _ _ _ Hk. simpl in Hk.
    by rewrite lookup_empty in Hk. }
  destruct (Hall _ Hsrc) as [e1 H1]. destruct (Hall _ Htgt) as [e2 H2].
  assert (Hop : worker._converted s !! operand = Some e2).
  { apply (Hfollow (target edge) operand e2 Htt Hinc); [|done].
    rewrite Hoi. left. }
  exists e1, e2. split; [done|]. split; [done|]. split; [done|].
  unfold worker.axioms_from_edge. cbv zeta.
  rewrite decide_True by done.
  rewrite decide_False by (rewrite Hsi; intros [? _]; done).
  rewrite decide_True by done.
  rewrite decide_False.
  2: { intros E. rewrite E in Hst.
       rewrite !elem_of_cons, elem_of_nil in Hst.
       destruct Hst as [?|[?|[]]]; done. }
  rewrite decide_True by done.
  rewrite decide_True by done.
  unfold worker.createDisjointObjectPropertiesAxiom. cbv zeta.
  rewrite (bind_Returns_l _ _ _ _ _
             (convert_cached _ _ _ _ _ _ _ _ _ _ _ fuel' _
                (worker.mkWorker axioms (worker._converted s)) e1 H1)).
  rewrite (bind_Returns_l _ _ _ _ _
             (convert_cached _ _ _ _ _ _ _ _ _ _ _ fuel' _
                (worker.mkWorker axioms (worker._converted s)) e2 H2)).
  unfold worker.addAxiom. cbn [worker._axioms worker._converted].
  assert (E : worker.HashSet_add [] e1 = [e1]).
  { unfold worker.HashSet_add. rewrite decide_False; [done|].
    apply not_elem_of_nil. }
  by rewrite E.
Qed.

(** X14: a membership edge from a property assertion node.  When the
    property assertion node and the target of the edge are converted, the
    node has been converted into a list of two operands, both individuals
    or literals, and the loop of [run] over the edges adds one axiom and
    raises nothing: the object property assertion over the converted
    target and the two operands, in their order, when the node holds
    [RoleInstance], and the data property assertion when it holds
    [AttributeInstance]. *)
Theorem membership_of_property_assertion
    (d : Diagram) (prefix : string) (OWLShortIRI : string → string → string)
    (text : nat → string) (special : nat → option Special.t)
    (datatype : nat → option Datatype.t) (value : nat → string)
    (facet : nat → option Facet.t) (inputs : nat → list nat)
    (restriction : nat → Restriction.t)
    (cardinality : nat → string → option nat)
    (fuel : nat) (edge : Edge) (self s1 s2 : worker.Worker)
    (e pe : worker.OWLObject) :
  well_shaped d self →
  edge_type edge = MembershipEdge →
  worker.type d (source edge) = Some PropertyAssertionNode →
  identity d (source edge) ∈ [RoleInstance; AttributeInstance] →
  worker.convert d prefix OWLShortIRI text special datatype value facet
    inputs restriction cardinality fuel (source edge) self
  = worker.Returns e s1 →
  worker.convert d prefix OWLShortIRI text special datatype value facet
    inputs restriction cardinality fuel (target edge) s1
  = worker.Returns pe s2 →
  ∃ operand1 operand2,
    e = worker.PyList [operand1; operand2]
    ∧ is_individual operand1 ∧ is_individual operand2
    ∧ worker.axioms_from_edge d
        (worker.convert d prefix OWLShortIRI text special datatype value
                        facet inputs restriction cardinality fuel)
        edge self
      = worker.Returns ()
          (worker.mkWorker
             ((if decide (identity d (source edge) = RoleInstance)
               then worker.OWLObjectPropertyAssertionAxiom pe operand1
                      operand2
               else worker.OWLDataPropertyAssertionAxiom pe operand1
                      operand2)
              :: worker._axioms self)
             (worker._converted s2)).
Proof.
  intros Hw Hty Hst Hid H1 H2.
  destruct (convert_shaped _ _ _ _ _ _ _ _ _ _ _ _ _ _ _ _ H1 Hw)
    as (_ & t & Ht & Hshape).
  rewrite Hst in Ht. injection Ht as <-.
  destruct e as [| | | | | | | | | | | | | | | | | | | | | | | | | | | | | | |
                 |items| |]; try done.
  destruct items as [|operand1 [|operand2 [|? ?]]]; try done.
  simpl in Hshape. apply andb_True in Hshape as [Ha Hb].
  exists operand1, operand2. split; [done|]. split; [done|]. split; [done|].
  pose proof (convert_stores _ _ _ _ _ _ _ _ _ _ _ _ _ _ _ _ H1) as Hstored.
  assert (Hagain :
    worker.convert d prefix OWLShortIRI text special datatype value facet
      inputs restriction cardinality fuel (source edge) s1
    = worker.Returns (worker.PyList [operand1; operand2]) s1)
    by (by apply convert_cached).
  pose proof (convert_grown _ _ _ _ _ _ _ _ _ _ _ _ _ _ _ _ H1) as [_ Ha1].
  pose proof (convert_grown _ _ _ _ _ _ _ _ _ _ _ _ _ _ _ _ H2) as [_ Ha2].
  assert (H0 : ∀ s, worker.subscript
                      (worker.PyList [operand1; operand2]) 0 s
                    = worker.Returns operand1 s) by done.
  assert (H1' : ∀ s, worker.subscript
                       (worker.PyList [operand1; operand2]) 1 s
                     = worker.Returns operand2 s) by done.
  unfold worker.axioms_from_edge. cbv zeta.
  rewrite decide_False by (rewrite Hty; done).
  rewrite decide_False by (rewrite Hty; done).
  rewrite decide_True by done.
  rewrite !elem_of_cons, elem_of_nil in Hid.
  destruct Hid as [Hid|[Hid|[]]]; rewrite Hid.
  - rewrite decide_False by (intros [? _]; done).
    rewrite !decide_True by done.
    unfold worker.createObjectPropertyAssertionAxiom.
    rewrite (bind_Returns_l _ _ _ _ _ H1).
    rewrite (bind_Returns_l _ _ _ _ _ (H0 s1)).
    rewrite (bind_Returns_l _ _ _ _ _ Hagain).
    rewrite (bind_Returns_l _ _ _ _ _ (H1' s1)).
    rewrite (bind_Returns_l _ _ _ _ _ H2).
    unfold worker.addAxiom. by rewrite Ha2, Ha1.
  - rewrite decide_False by (intros [? _]; done).
    rewrite decide_False by done.
    rewrite decide_True by done.
    unfold worker.createDataPropertyAssertionAxiom.
    rewrite (bind_Returns_l _ _ _ _ _ H1).
    rewrite (bind_Returns_l _ _ _ _ _ (H0 s1)).
    rewrite (bind_Returns_l _ _ _ _ _ Hagain).
    rewrite (bind_Returns_l _ _ _ _ _ (H1' s1)).
    rewrite (bind_Returns_l _ _ _ _ _ H2).
    unfold worker.addAxiom. by rewrite Ha2, Ha1.
Qed.

(** ** The restriction and the cardinality of squared nodes *)

Lemma assign_invariant (self : SquaredNode.t) (a : assignment) :
  SquaredNode.restriction (assign self a) ≠ Restriction.Cardinality →
  SquaredNode.cardinality (assign self a) = (None, None).
Proof.
  destruct a as [r|c]; simpl.
  - done.
  - unfold SquaredNode.set_cardinality. cbv zeta. case_decide; [done|].
    intros Hr. simpl in *. done.
Qed.

(** X15: the cardinality of a squared node follows its restriction.
    Whatever the node was created with and whatever was assigned to its
    restriction and cardinality since: it reads the cardinality
    [dict(min=None, max=None)] when its restriction is not [Cardinality];
    an assignment to its restriction resets the cardinality, also when
    the restriction assigned is [Cardinality]; and an assignment of a
    dictionary to its cardinality is read back when, and only when, its
    restriction is [Cardinality]. *)
Theorem cardinality_follows_restriction
    (restriction : option Restriction.t)
    (cardinality : option SquaredNode.dict) (assignments : list assignment) :
  let self := foldl assign (SquaredNode.init restriction cardinality)
                    assignments in
  (SquaredNode.restriction self ≠ Restriction.Cardinality →
   SquaredNode.cardinality self = (None, None))
  ∧ (∀ r, SquaredNode.cardinality (SquaredNode.set_restriction self r)
          = (None, None))
  ∧ (∀ c, SquaredNode.cardinality
            (SquaredNode.set_cardinality self (Some c))
          = if decide (SquaredNode.restriction self
                       = Restriction.Cardinality)
            then c else (None, None)).
Proof.
  intros self. split; [|split].
  - unfold self. clear self.
    induction assignments as [|a assignments IH] using rev_ind.
    + simpl. unfold SquaredNode.init. cbv zeta.
      unfold SquaredNode.restriction, SquaredNode.cardinality. simpl.
      case_decide; [done|]. done.
    + rewrite foldl_app. simpl. apply assign_invariant.
  - done.
  - intros c. unfold SquaredNode.set_cardinality. cbv zeta.
    unfold SquaredNode.restriction. simpl.
    destruct (decide (SquaredNode._restriction self
                      = Restriction.Cardinality)) as [E|E].
    + by rewrite decide_False by (by intros H; apply H).
    + by rewrite decide_True.
Qed.

(** ** The item on top of a point *)

Section Top.

Import scene.

Lemma max_spec {A} (first : A) (rest : list A) (key : A → Z) :
  let m := max first rest key in
  m ∈ first :: rest
  ∧ (∀ y, y ∈ first :: rest → (key y ≤ key m)%Z)
  ∧ ∃ before after,
      first :: rest = before ++ m :: after
      ∧ ∀ y, y ∈ before → (key y < key m)%Z.
Proof.
  unfold max. revert first.
  induction rest as [|x rest IH]; intros first; simpl.
  - split; [left|]. split.
    + intros y Hy. apply list_elem_of_singleton in Hy as ->. lia.
    + exists [], []. split; [done|]. intros y Hy. by apply elem_of_nil in Hy.
  - destruct (decide (key first < key x)%Z) as [Hlt|Hge].
    + destruct (IH x) as (Hin & Hmax & before & after & Heq & Hbefore).
      split; [by right|]. split.
      * intros y [->|Hy]%elem_of_cons; [|by apply Hmax].
        specialize (Hmax x ltac:(left)). lia.
      * exists (first :: before), after.
        split; [simpl; by rewrite <- Heq|].
        intros y [->|Hy]%elem_of_cons; [|by apply Hbefore].
        specialize (Hmax x ltac:(left)). lia.
    + destruct (IH first) as (Hin & Hmax & before & after & Heq & Hbefore).
      split.
      { apply elem_of_cons. apply elem_of_cons in Hin as [Hin|Hin];
          [by left|].
        right. apply elem_of_cons. by right. }
      split.
      * intros y [->|[->|Hy]%elem_of_cons]%elem_of_cons.
        -- apply Hmax. left.
        -- specialize (Hmax first ltac:(left)). lia.
        -- apply Hmax. by right.
      * destruct before as [|b before].
        -- exists [], (x :: rest). simpl in Heq.
           injection Heq as Heq _. rewrite <- Heq. split; [done|].
           intros y Hy. by apply elem_of_nil in Hy.
        -- simpl in Heq. injection Heq as -> Heq.
           exists (b :: x :: before), after.
           split; [simpl; by rewrite <- Heq|].
           intros y [->|[->|Hy]%elem_of_cons]%elem_of_cons.
           ++ apply Hbefore. left.
           ++ specialize (Hbefore b ltac:(left)). lia.
           ++ apply Hbefore. by right.
Qed.

End Top.

(** X16: [itemOnTopOf] answers with the topmost of the items asked for.
    It answers [None] exactly when no item under the point is of a kind
    asked for and outside of [skip]; otherwise its answer is such an item,
    no such item has a greater stacking value, and every such item that
    comes before it in the list has a smaller one. *)
Theorem itemOnTopOf_topmost
    (items : list scene.GraphicsItem) (nodes edges labels : bool)
    (skip : list scene.GraphicsItem) :
  let wanted (x : scene.GraphicsItem) :=
    (nodes && scene.isNode x || edges && scene.isEdge x
     || labels && scene.isLabel x) ∧ x ∉ skip in
  match scene.itemOnTopOf items nodes edges labels skip with
  | None => ∀ x, x ∈ items → ¬ wanted x
  | Some top =>
    top ∈ items ∧ wanted top
    ∧ (∀ x, x ∈ items → wanted x → (scene.zValue x ≤ scene.zValue top)%Z)
    ∧ ∃ before after,
        items = before ++ top :: after
        ∧ ∀ x, x ∈ before → wanted x →
               (scene.zValue x < scene.zValue top)%Z
  end.
Proof.
  intros wanted. unfold scene.itemOnTopOf. cbv zeta.
  fold wanted.
  destruct (filter wanted items) as [|first rest] eqn:Hdata.
  - intros x Hx Hw.
    assert (Hin : x ∈ filter wanted items)
      by (by apply list_elem_of_filter).
    rewrite Hdata in Hin. by apply elem_of_nil in Hin.
  - destruct (max_spec first rest scene.zValue)
      as (Hin & Hmax & before & after & Heq & Hbefore).
    set (top := scene.max first rest scene.zValue) in *.
    rewrite <- Hdata in Hin, Hmax.
    apply list_elem_of_filter in Hin as [Hw Hin].
    split; [done|]. split; [done|]. split.
    + intros x Hx Hwx. apply Hmax. by apply list_elem_of_filter.
    + rewrite <- Hdata in Heq. clearbody top. clear Hdata Hmax Hin first rest.
      revert before Heq Hbefore.
      induction items as [|i items IH]; intros before Heq Hbefore.
      * by destruct before.
      * rewrite filter_cons in Heq.
        destruct (decide (wanted i)) as [Hwi|Hwi].
        -- destruct before as [|b before]; simpl in Heq.
           ++ injection Heq as -> _. exists [], items. split; [done|].
              intros x Hx. by apply elem_of_nil in Hx.
           ++ injection Heq as -> Heq.
              destruct (IH before Heq) as (before' & after' & -> & Hb').
              { intros y Hy. apply Hbefore. by right. }
              exists (b :: before'), after'. split; [done|].
              intros x [->|Hx]%elem_of_cons Hwx.
              ** apply Hbefore. left.
              ** by apply Hb'.
        -- destruct (IH before Heq Hbefore)
             as (before' & after' & -> & Hb').
           exists (i :: before'), after'. split; [done|].
           intros x [->|Hx]%elem_of_cons Hwx; [done|]. by apply Hb'.
Qed.

(** ** The special cases at the sample diagrams *)

(** C4, witness: the range restriction of a role, taken second in the
    pass started from the union it feeds. *)
Lemma range_restriction_rule_witness :
  holds range_in_union (predicate graphol_Identities) 0
  ∧ weak graphol_Identities range_in_union 0 = [0] ++ 1 :: []
  ∧ identity (diagram (special_cases graphol_Identities range_in_union 0)) 1
    = Concept
  ∧ 1 ∈ strong (special_cases graphol_Identities range_in_union 0)
  ∧ (2 ∉ strong (special_cases graphol_Identities range_in_union 0))
  ∧ identity (doNodeIdentification graphol_Identities range_in_union 0) 1
    = Concept.
Proof.
  assert (Hg : holds range_in_union (predicate graphol_Identities) 0)
    by (vm_compute; exact I).
  assert (Hweak : weak graphol_Identities range_in_union 0 = [0] ++ 1 :: [])
    by (vm_compute; reflexivity).
  assert (Hx : nodes range_in_union !! 1
               = Some (mkNode RangeRestrictionNode Neutral))
    by (vm_compute; reflexivity).
  assert (Hops : incomingNodes range_in_union 1 f1 (f4 graphol_Identities)
                 = [2]) by (vm_compute; reflexivity).
  split; [exact Hg|]. split; [exact Hweak|].
  destruct (range_restriction_rule graphol_Identities range_in_union 0 1
              [0] [] (mkNode RangeRestrictionNode Neutral) Hg Hweak Hx
              eq_refl)
    as (_ & _ & _ & _ & _ & _ & Hone & Hstored & _ & _ & _ & Hend & Hin
        & Hout & _ & Hpass).
  assert (Hid : identity
                  (diagram
                     (special_case graphol_Identities
                        (foldl (special_case graphol_Identities)
                           (mkPass range_in_union
                              (strong0 graphol_Identities range_in_union 0)
                              []) [0]) 1)) 1 = Concept).
  { rewrite (Hone Concept).
    - apply Hstored. compute_done.
    - rewrite Hops. discriminate.
    - intros k y Hk Hy. rewrite Hops in Hk.
      apply list_elem_of_singleton in Hk as ->.
      assert (E : nodes range_in_union !! 2 = Some (mkNode RoleNode Role))
        by (vm_compute; reflexivity).
      rewrite E in Hy. injection Hy as <-. reflexivity. }
  split; [by rewrite Hend|].
  split; [apply Hin; rewrite Hid; discriminate|].
  split; [apply Hout; rewrite Hops; left|].
  rewrite Hpass, Hid. reflexivity.
Defined.


(** ** The further results at the sample diagrams *)

(** X1, witness: the union and the enumeration, taken in either order. *)
Lemma special_cases_order_independent_witness :
  [2; 0] ≡ₚ [0; 2]
  ∧ NoDup [2; 0]
  ∧ diagram (foldl (special_case graphol_Identities)
               (mkPass enumeration_diagram [] []) [2; 0])
    = diagram (foldl (special_case graphol_Identities)
                 (mkPass enumeration_diagram [] []) [0; 2]).
Proof.
  assert (Hp : [2; 0] ≡ₚ [0; 2]) by apply perm_swap.
  assert (Hnd : NoDup [2; 0]) by compute_done.
  split; [exact Hp|]. split; [exact Hnd|].
  destruct (special_cases_order_independent graphol_Identities
              enumeration_diagram [] [] [2; 0] [0; 2] Hp Hnd) as [H _].
  - intros n Hn. apply elem_of_cons in Hn as [->|Hn].
    + vm_compute. exact I.
    + apply list_elem_of_singleton in Hn as ->. vm_compute. exact I.
  - exact H.
Defined.

(** X2, witness: the enumeration node after the pass from the union. *)
Lemma pass_closed_form_witness :
  holds enumeration_diagram (predicate graphol_Identities) 2
  ∧ nodes (doNodeIdentification graphol_Identities enumeration_diagram 2)
      !! 0
    = Some (mkNode EnumerationNode Concept).
Proof.
  assert (Hg : holds enumeration_diagram (predicate graphol_Identities) 2)
    by (vm_compute; exact I).
  split; [exact Hg|].
  destruct (pass_closed_form graphol_Identities enumeration_diagram 2 Hg)
    as (Hweak & _ & _).
  rewrite (Hweak 0 (mkNode EnumerationNode Neutral)).
  - vm_compute. reflexivity.
  - compute_done.
  - vm_compute. reflexivity.
Defined.

(** X3, witness: the pass from the enumeration and the pass from the
    union. *)
Lemma identification_start_independent_witness :
  holds enumeration_diagram (predicate graphol_Identities) 2
  ∧ 0 ∈ collection graphol_Identities enumeration_diagram 2
  ∧ doNodeIdentification graphol_Identities enumeration_diagram 0
    = doNodeIdentification graphol_Identities enumeration_diagram 2.
Proof.
  assert (Hg : holds enumeration_diagram (predicate graphol_Identities) 2)
    by (vm_compute; exact I).
  assert (Hin : 0 ∈ collection graphol_Identities enumeration_diagram 2)
    by compute_done.
  split; [exact Hg|]. split; [exact Hin|].
  exact (proj2 (identification_start_independent graphol_Identities
                  enumeration_diagram 2 0 Hg Hin)).
Defined.

(** X4, witness: the edge from the enumeration to the union is added. *)
Lemma onConnectionChanged_single_pass_witness :
  Forall (λ t, Neutral ∉ graphol_Identities t) operand_classes
  ∧ mkEdge 0 2 InputEdge ∈ edges enumeration_diagram
  ∧ onConnectionChanged graphol_Identities enumeration_diagram
      (inr (mkEdge 0 2 InputEdge))
    = doNodeIdentification graphol_Identities enumeration_diagram 0.
Proof.
  assert (Hwf : Forall (λ t, Neutral ∉ graphol_Identities t)
                  operand_classes) by compute_done.
  assert (He : mkEdge 0 2 InputEdge ∈ edges enumeration_diagram)
    by (simpl; right; left).
  split; [exact Hwf|]. split; [exact He|].
  destruct (onConnectionChanged_single_pass graphol_Identities
              enumeration_diagram (mkEdge 0 2 InputEdge) Hwf He)
    as (Hsource & _).
  apply Hsource. vm_compute. exact I.
Defined.

(** X5, witness: the complement of a role is converted and kept. *)
Lemma convert_memoises_witness :
  worker.convert disjoint_roles "p" short_iri sample_text no_special
    xsd_integer no_value no_facet no_inputs always_cardinality at_most_two
    2 2 worker.init
  = worker.Returns (worker.OWLObjectProperty "p:hasParent")
      (worker.mkWorker []
         (<[2 := worker.OWLObjectProperty "p:hasParent"]>
            (<[1 := worker.OWLObjectProperty "p:hasParent"]> ∅)))
  ∧ ∀ fuel',
      worker.convert disjoint_roles "p" short_iri sample_text no_special
        xsd_integer no_value no_facet no_inputs always_cardinality
        at_most_two fuel' 2
        (worker.mkWorker []
           (<[2 := worker.OWLObjectProperty "p:hasParent"]>
              (<[1 := worker.OWLObjectProperty "p:hasParent"]> ∅)))
      = worker.Returns (worker.OWLObjectProperty "p:hasParent")
          (worker.mkWorker []
             (<[2 := worker.OWLObjectProperty "p:hasParent"]>
                (<[1 := worker.OWLObjectProperty "p:hasParent"]> ∅))).
Proof.
  assert (Hrun :
    worker.convert disjoint_roles "p" short_iri sample_text no_special
      xsd_integer no_value no_facet no_inputs always_cardinality at_most_two
      2 2 worker.init
    = worker.Returns (worker.OWLObjectProperty "p:hasParent")
        (worker.mkWorker []
           (<[2 := worker.OWLObjectProperty "p:hasParent"]>
              (<[1 := worker.OWLObjectProperty "p:hasParent"]> ∅))))
    by (vm_compute; reflexivity).
  split; [exact Hrun|].
  destruct (convert_memoises _ _ _ _ _ _ _ _ _ _ _ _ _ _ _ _ Hrun)
    as (_ & _ & _ & Hagain).
  exact Hagain.
Defined.

(** X7, witness: an intersection and a union that wait for each other. *)
Lemma convert_cycle_never_returns_witness :
  tc (awaits mutual_operands no_inputs worker.init) 0 0
  ∧ ∀ fuel e s,
      worker.convert mutual_operands "p" short_iri sample_text no_special
        xsd_integer no_value no_facet no_inputs always_cardinality
        at_most_two fuel 0 worker.init ≠ worker.Returns e s.
Proof.
  assert (Hcycle : tc (awaits mutual_operands no_inputs worker.init) 0 0).
  { apply tc_l with 1.
    - split; [reflexivity|]. compute_done.
    - apply tc_once. split; [reflexivity|]. compute_done. }
  split; [exact Hcycle|].
  exact (proj1 (convert_cycle_never_returns mutual_operands "p" short_iri
                  sample_text no_special xsd_integer no_value no_facet
                  no_inputs always_cardinality at_most_two 0 worker.init
                  Hcycle)).
Defined.

(** X8, witness: the dictionary after the conversion of the complement
    of a role from the empty dictionary. *)
Lemma convert_shape_witness :
  well_shaped disjoint_roles worker.init
  ∧ well_shaped disjoint_roles
      (worker.mkWorker []
         (<[2 := worker.OWLObjectProperty "p:hasParent"]>
            (<[1 := worker.OWLObjectProperty "p:hasParent"]> ∅))).
Proof.
  assert (Hw : well_shaped disjoint_roles worker.init).
  { intros k e Hk. simpl in Hk. rewrite lookup_empty in Hk. discriminate. }
  assert (Hrun :
    worker.convert disjoint_roles "p" short_iri sample_text no_special
      xsd_integer no_value no_facet no_inputs always_cardinality at_most_two
      2 2 worker.init
    = worker.Returns (worker.OWLObjectProperty "p:hasParent")
        (worker.mkWorker []
           (<[2 := worker.OWLObjectProperty "p:hasParent"]>
              (<[1 := worker.OWLObjectProperty "p:hasParent"]> ∅))))
    by (vm_compute; reflexivity).
  split; [exact Hw|].
  exact (proj1 (convert_shape disjoint_roles "p" short_iri sample_text
                  no_special xsd_integer no_value no_facet no_inputs
                  always_cardinality at_most_two 2 2 worker.init _ _ Hw
                  Hrun)).
Defined.

(** X9, witness: the union without an identity. *)
Lemma convert_unknown_identity_witness :
  worker.type unknown_union 0 = Some UnionNode
  ∧ identity unknown_union 0 = Unknown
  ∧ worker.convert unknown_union "p" short_iri sample_text no_special
      xsd_integer no_value no_facet no_inputs always_cardinality at_most_two
      1 0 worker.init
    = worker.Raises
        (worker.DiagramMalformedError (inl 0) "unsupported operand(s)").
Proof.
  assert (Hty : worker.type unknown_union 0 = Some UnionNode)
    by (vm_compute; reflexivity).
  assert (Hid : identity unknown_union 0 = Unknown)
    by (vm_compute; reflexivity).
  split; [exact Hty|]. split; [exact Hid|].
  apply (convert_unknown_identity unknown_union "p" short_iri sample_text
           no_special xsd_integer no_value no_facet no_inputs
           always_cardinality at_most_two 0 0 worker.init UnionNode Hty).
  - compute_done.
  - exact Hid.
  - reflexivity.
Defined.

(** X12, witness: the range of the attribute [hasParent]. *)
Lemma range_inclusion_of_value_domain_witness :
  mkEdge 0 2 InclusionEdge ∈ edges range_of_attribute
  ∧ worker.createPropertyRangeAxiom range_of_attribute
      (worker.convert range_of_attribute "p" short_iri sample_text
         no_special xsd_integer no_value no_facet no_inputs
         always_cardinality at_most_two 3)
      0 worker.init
    = worker.Returns ()
        (worker.mkWorker
           [worker.OWLDataPropertyRangeAxiom
              (worker.OWLDataProperty "p:hasParent")
              (worker.OWLDatatype "XSD_INTEGER")]
           (<[2 := worker.OWLDatatype "XSD_INTEGER"]>
              (<[1 := worker.OWLDataProperty "p:hasParent"]> ∅)))
  ∧ worker.axioms_from_edge range_of_attribute
      (worker.convert range_of_attribute "p" short_iri sample_text
         no_special xsd_integer no_value no_facet no_inputs
         always_cardinality at_most_two 3)
      (mkEdge 0 2 InclusionEdge) worker.init
    = worker.Returns () worker.init.
Proof.
  assert (He : mkEdge 0 2 InclusionEdge ∈ edges range_of_attribute)
    by (simpl; right; left).
  assert (Hrun :
    worker.createPropertyRangeAxiom range_of_attribute
      (worker.convert range_of_attribute "p" short_iri sample_text
         no_special xsd_integer no_value no_facet no_inputs
         always_cardinality at_most_two 3)
      0 worker.init
    = worker.Returns ()
        (worker.mkWorker
           [worker.OWLDataPropertyRangeAxiom
              (worker.OWLDataProperty "p:hasParent")
              (worker.OWLDatatype "XSD_INTEGER")]
           (<[2 := worker.OWLDatatype "XSD_INTEGER"]>
              (<[1 := worker.OWLDataProperty "p:hasParent"]> ∅))))
    by (vm_compute; reflexivity).
  split; [exact He|]. split; [exact Hrun|].
  destruct (range_inclusion_of_value_domain range_of_attribute "p"
              short_iri sample_text no_special xsd_integer no_value
              no_facet no_inputs always_cardinality at_most_two 3
              (mkEdge 0 2 InclusionEdge) worker.init
              (worker.mkWorker
                 [worker.OWLDataPropertyRangeAxiom
                    (worker.OWLDataProperty "p:hasParent")
                    (worker.OWLDatatype "XSD_INTEGER")]
                 (<[2 := worker.OWLDatatype "XSD_INTEGER"]>
                    (<[1 := worker.OWLDataProperty "p:hasParent"]> ∅)))
              He)
    as (Hloop & _).
  - reflexivity.
  - vm_compute. reflexivity.
  - vm_compute. reflexivity.
  - exact Hrun.
  - apply Hloop.
Defined.

(** X13, witness: [hasChild] included in the complement of [hasParent],
    after the pre-processing of the three nodes. *)
Lemma role_inclusion_in_complement_witness :
  worker.nodes_pre_processing
    (worker.convert disjoint_roles "p" short_iri sample_text no_special
       xsd_integer no_value no_facet no_inputs always_cardinality
       at_most_two 2)
    [0; 1; 2] worker.init
  = worker.Returns ()
      (worker.mkWorker []
         (<[2 := worker.OWLObjectProperty "p:hasParent"]>
            (<[1 := worker.OWLObjectProperty "p:hasParent"]>
               (<[0 := worker.OWLObjectProperty "p:hasChild"]> ∅))))
  ∧ worker.axioms_from_edge disjoint_roles
      (worker.convert disjoint_roles "p" short_iri sample_text no_special
         xsd_integer no_value no_facet no_inputs always_cardinality
         at_most_two 0)
      (mkEdge 0 2 InclusionEdge)
      (worker.mkWorker []
         (<[2 := worker.OWLObjectProperty "p:hasParent"]>
            (<[1 := worker.OWLObjectProperty "p:hasParent"]>
               (<[0 := worker.OWLObjectProperty "p:hasChild"]> ∅))))
    = worker.Returns ()
        (worker.mkWorker
           [worker.OWLDisjointObjectPropertiesAxiom
              [worker.OWLObjectProperty "p:hasChild";
               worker.OWLObjectProperty "p:hasParent"]]
           (<[2 := worker.OWLObjectProperty "p:hasParent"]>
              (<[1 := worker.OWLObjectProperty "p:hasParent"]>
                 (<[0 := worker.OWLObjectProperty "p:hasChild"]> ∅)))).
Proof.
  assert (Hrun :
    worker.nodes_pre_processing
      (worker.convert disjoint_roles "p" short_iri sample_text no_special
         xsd_integer no_value no_facet no_inputs always_cardinality
         at_most_two 2)
      [0; 1; 2] worker.init
    = worker.Returns ()
        (worker.mkWorker []
           (<[2 := worker.OWLObjectProperty "p:hasParent"]>
              (<[1 := worker.OWLObjectProperty "p:hasParent"]>
                 (<[0 := worker.OWLObjectProperty "p:hasChild"]> ∅)))))
    by (vm_compute; reflexivity).
  split; [exact Hrun|].
  destruct (role_inclusion_in_complement disjoint_roles "p" short_iri
              sample_text no_special xsd_integer no_value no_facet no_inputs
              always_cardinality at_most_two 2 0 (mkEdge 0 2 InclusionEdge)
              1 [0; 1; 2]
              (worker.mkWorker []
                 (<[2 := worker.OWLObjectProperty "p:hasParent"]>
                    (<[1 := worker.OWLObjectProperty "p:hasParent"]>
                       (<[0 := worker.OWLObjectProperty "p:hasChild"]> ∅))))
              [] eq_refl)
    as (e1 & e2 & H1 & H2 & _ & Hedge);
    [vm_compute; reflexivity
    |vm_compute; reflexivity
    |vm_compute; left
    |vm_compute; reflexivity
    |vm_compute; reflexivity
    |vm_compute; reflexivity
    |simpl; left
    |simpl; right; right; left
    |exact Hrun
    |].
  vm_compute in H1. injection H1 as <-.
  vm_compute in H2. injection H2 as <-.
  exact Hedge.
Defined.

(** X14, witness: [knows] asserted of [alice] and [bob]. *)
Lemma membership_of_property_assertion_witness :
  well_shaped asserted_role worker.init
  ∧ worker.axioms_from_edge asserted_role
      (worker.convert asserted_role "p" short_iri assertion_text no_special
         xsd_integer no_value no_facet assertion_inputs always_cardinality
         at_most_two 2)
      (mkEdge 0 3 MembershipEdge) worker.init
    = worker.Returns ()
        (worker.mkWorker
           [worker.OWLObjectPropertyAssertionAxiom
              (worker.OWLObjectProperty "p:knows")
              (worker.OWLNamedIndividual "p:alice")
              (worker.OWLNamedIndividual "p:bob")]
           (<[3 := worker.OWLObjectProperty "p:knows"]>
              (<[0 := worker.PyList [worker.OWLNamedIndividual "p:alice";
                                     worker.OWLNamedIndividual "p:bob"]]>
                 (<[2 := worker.OWLNamedIndividual "p:bob"]>
                    (<[1 := worker.OWLNamedIndividual "p:alice"]> ∅))))).
Proof.
  assert (Hw : well_shaped asserted_role worker.init).
  { intros k e Hk. simpl in Hk. rewrite lookup_empty in Hk. discriminate. }
  split; [exact Hw|].
  destruct (membership_of_property_assertion asserted_role "p" short_iri
              assertion_text no_special xsd_integer no_value no_facet
              assertion_inputs always_cardinality at_most_two 2
              (mkEdge 0 3 MembershipEdge) worker.init
              (worker.mkWorker []
                 (<[0 := worker.PyList
                           [worker.OWLNamedIndividual "p:alice";
                            worker.OWLNamedIndividual "p:bob"]]>
                    (<[2 := worker.OWLNamedIndividual "p:bob"]>
                       (<[1 := worker.OWLNamedIndividual "p:alice"]> ∅))))
              (worker.mkWorker []
                 (<[3 := worker.OWLObjectProperty "p:knows"]>
                    (<[0 := worker.PyList
                              [worker.OWLNamedIndividual "p:alice";
                               worker.OWLNamedIndividual "p:bob"]]>
                       (<[2 := worker.OWLNamedIndividual "p:bob"]>
                          (<[1 := worker.OWLNamedIndividual "p:alice"]>
                             ∅)))))
              (worker.PyList [worker.OWLNamedIndividual "p:alice";
                              worker.OWLNamedIndividual "p:bob"])
              (worker.OWLObjectProperty "p:knows") Hw)
    as (operand1 & operand2 & He & _ & _ & Hrun).
  - reflexivity.
  - vm_compute. reflexivity.
  - vm_compute. left.
  - vm_compute. reflexivity.
  - vm_compute. reflexivity.
  - injection He as <- <-. rewrite Hrun. reflexivity.
Defined.
